(** * snap-confine: the launcher's privilege and namespace sequence

    A shallow embedding of [cmd/snap-confine/snap-confine.c]: [main],
    [enter_classic_execution_environment],
    [enter_non_classic_execution_environment], [sc_maybe_fixup_permissions]
    and [sc_maybe_fixup_udev], written in a small state-and-termination monad.

    The process state is the credential set of the process (real, effective
    and saved user and group ids), its environment, and the chronological
    trace of the system calls and collaborator calls it has made.  Everything
    the program reads from outside (command line, environment, kernel and
    collaborator results) is collected in a [world]. *)

From Stdlib Require Import ZArith Lia Bool List Ascii String DecimalString.
From stdpp Require Import base strings gmap list.

Local Open Scope string_scope.
Local Open Scope Z_scope.
Local Open Scope list_scope.

(** ** Data model *)

(** [uid_t] and [gid_t]: the program only compares ids with each other and
    with 0, so they are integers. *)
Definition uid_t := Z.
Definition gid_t := Z.

(** The credentials the kernel keeps for the process (credentials(7)). *)
Record creds := mk_creds {
  ruid : uid_t; euid : uid_t; suid : uid_t;
  rgid : gid_t; egid : gid_t; sgid : gid_t
}.

(** [struct sc_args], through its accessors [sc_args_is_version_query],
    [sc_args_is_classic_confinement], [sc_args_security_tag],
    [sc_args_executable] and [sc_args_base_snap] (NULL is [None]). *)
Record sc_args := mk_args {
  sc_args_is_version_query : bool;
  sc_args_is_classic_confinement : bool;
  sc_args_security_tag : string;
  sc_args_executable : string;
  sc_args_base_snap : option string
}.

(** [enum sc_apparmor_mode] of apparmor-support.h. *)
Inductive sc_apparmor_mode :=
  | SC_AA_INVALID | SC_AA_NOT_APPLICABLE | SC_AA_ENFORCE | SC_AA_COMPLAIN | SC_AA_MIXED.

Definition aa_mode_eqb (a b : sc_apparmor_mode) : bool :=
  match a, b with
  | SC_AA_INVALID, SC_AA_INVALID | SC_AA_NOT_APPLICABLE, SC_AA_NOT_APPLICABLE
  | SC_AA_ENFORCE, SC_AA_ENFORCE | SC_AA_COMPLAIN, SC_AA_COMPLAIN
  | SC_AA_MIXED, SC_AA_MIXED => true
  | _, _ => false
  end.

(** [struct sc_apparmor] as filled in by [sc_init_apparmor_support]. *)
Record sc_apparmor := mk_aa { aa_is_confined : bool; aa_mode : sc_apparmor_mode }.

(** [sc_invocation]. *)
Record sc_invocation := mk_inv {
  base_snap_name : string;
  security_tag : string;
  snap_instance : string;
  is_normal_mode : bool
}.

(** [enum sc_feature_flag] of feature.h: the one flag this file reads. *)
Inductive sc_feature_flag := SC_PER_USER_MOUNT_NAMESPACE.

(** The functions of the repository that this file calls and that live in
    other files (libsnap-confine-private and the *-support modules).  Each
    either returns (possibly with an integer result) or terminates the
    process from the inside. *)
Inductive collaborator :=
  | sc_instance_name_validate | sc_snap_name_validate
  | sc_cookie_get_from_snapd | sc_init_apparmor_support
  | sc_reassociate_with_pid1_mount_ns | sc_lock_global
  | sc_ensure_shared_snap_mount | sc_initialize_mount_ns
  | sc_open_snap_update_ns | sc_open_snap_discard_ns
  | sc_lock_snap | sc_open_mount_ns | sc_classify_distro | sc_fork_helper
  | sc_join_preserved_ns | sc_populate_mount_ns | sc_preserve_populated_mount_ns
  | sc_join_preserved_per_user_ns | sc_setup_user_mounts
  | sc_preserve_populated_per_user_mount_ns
  | sc_cgroup_freezer_join | sc_close_mount_ns
  | snappy_udev_init | setup_devices_cgroup | snappy_udev_cleanup
  | setup_user_data | sc_maybe_aa_change_onexec
  | sc_apply_seccomp_profile_for_security_tag | sc_apply_global_seccomp_profile.

(** The two lock files; a lock descriptor is identified by the lock it is
    open on ([global_lock_fd], [snap_lock_fd]). *)
Inductive lock_fd := global_lock_fd | snap_lock_fd.

(** The places where the program asks the kernel to change its state and
    checks the answer. *)
Inductive site :=
  | at_early_setegid      (* line 159 *)
  | at_raise_setegid      (* line 366 *)
  | at_lower_setegid      (* line 372 *)
  | at_tmp_setegid        (* line 212 *)
  | at_tmp_seteuid        (* line 213 *)
  | at_setgid             (* line 241 *)
  | at_setuid             (* line 242 *)
  | at_unshare_snap       (* line 323 *)
  | at_unshare_user.      (* line 344 *)

(** What the process does that the outside can see, in order. *)
Inductive event :=
  | Printf (s : string)
  | Getenv (name : string)
  | SecureGetenv (name : string)
  | Setenv (name value : string)
  | Getresuid | Getresgid
  | Getuid | Geteuid | Getgid | Getegid | Getpid
  | Setegid (g : gid_t) (ok : bool)
  | Seteuid (u : uid_t) (ok : bool)
  | Setgid (g : gid_t) (ok : bool)
  | Setuid (u : uid_t) (ok : bool)
  | Unshare (ok : bool)
  | Call (c : collaborator)
  | Unlock (fd : lock_fd)
  | Stat (path : string) | Chmod (path : string) (mode : Z)
  | Chown (path : string) (u : uid_t) (g : gid_t)
  | Glob (pattern : string) | Unlink (path : string)
  | ErrorMsg
  | Execv (path : string) (ok : bool)
  | Perror (s : string).

(** Everything the program reads from outside. *)
Record world := mk_world {
  (* sc_nonfatal_parse_args: the parsed command line, or an error *)
  w_args : option sc_args;
  (* the inherited environment and credentials *)
  w_environ : gmap string string;
  w_creds : creds;
  (* AT_SECURE: whether the process runs in secure-execution mode *)
  w_at_secure : bool;
  (* build configuration *)
  HAVE_SECCOMP : bool;
  CAPS_OVER_SETUID : bool;
  (* predicates of libsnap-confine-private/snap.h *)
  verify_security_tag : string -> string -> bool;
  sc_is_hook_security_tag : string -> bool;
  (* sc_cookie_get_from_snapd: the cookie and whether the error was set *)
  w_cookie : option string;
  w_cookie_err : bool;
  (* sc_init_apparmor_support *)
  w_apparmor : sc_apparmor;
  (* sc_should_use_normal_mode(sc_classify_distro(), base) *)
  sc_should_use_normal_mode : Z -> string -> bool;
  sc_feature_enabled : sc_feature_flag -> bool;
  (* whether a collaborator returns (rather than dying), and what *)
  w_returns : collaborator -> bool;
  w_retval : collaborator -> Z;
  (* whether the kernel refuses a call although the credentials allow it *)
  w_refused : site -> bool;
  (* stat, chmod and chown of /var/lib *)
  w_var_lib_mode : option Z;
  w_chmod_ok : bool;
  w_chown_ok : bool;
  (* glob: its return value and the paths matched *)
  w_glob_err : Z;
  w_glob_pathv : list string;
  (* execv: whether the process image is replaced *)
  w_execv_ok : bool
}.

(** ** The monad *)

Record state := mk_state {
  st_creds : creds;
  st_env : gmap string string;
  st_trace : list event
}.

(** How a process stops other than by returning from [main]. *)
Inductive stop :=
  | Died (msg : string)       (* die(): fatal *)
  | Replaced (path : string). (* execv succeeded *)

Inductive result (A : Type) :=
  | Ret (a : A)
  | Stop (t : stop).
Arguments Ret {A} a.
Arguments Stop {A} t.

Definition M (A : Type) : Type := state -> result A * state.

Definition ret {A} (a : A) : M A := fun s => (Ret a, s).

Definition bind {A B} (m : M A) (k : A -> M B) : M B :=
  fun s => match m s with
           | (Ret a, s') => k a s'
           | (Stop t, s') => (Stop t, s')
           end.

Declare Scope launch_scope.
Delimit Scope launch_scope with launch.
Notation "'do' x <- m ; k" := (bind m (fun x => k))
  (at level 10, x name, m at level 100, k at level 200) : launch_scope.
Notation "m ;; k" := (bind m (fun _ => k))
  (at level 100, k at level 200, right associativity) : launch_scope.
Local Open Scope launch_scope.

Definition emit (e : event) : M unit :=
  fun s => (Ret tt, mk_state (st_creds s) (st_env s) (st_trace s ++ [e])).

Definition get_creds : M creds := fun s => (Ret (st_creds s), s).

Definition put_creds (c : creds) : M unit :=
  fun s => (Ret tt, mk_state c (st_env s) (st_trace s)).

Definition get_env : M (gmap string string) := fun s => (Ret (st_env s), s).

Definition put_env (e : gmap string string) : M unit :=
  fun s => (Ret tt, mk_state (st_creds s) e (st_trace s)).

(** Modelled from the spec: [die] of libsnap-confine-private/utils.c, which
    is not in this file; it "terminates the process immediately with a
    non-zero status and a descriptive message". *)
Definition die {A} (msg : string) : M A := fun s => (Stop (Died msg), s).

(** The conversion %d of a message: the decimal digits of an int, with a
    minus sign before those of a negative one. *)
Definition decimal (n : Z) : string := NilZero.string_of_int (Z.to_int n).

(** %d reads its argument as an int, so a [gid_t] (an unsigned int) of
    2^31 or more is printed as the negative int with the same bits. *)
Definition as_int (n : Z) : Z := (n + 2147483648) mod 4294967296 - 2147483648.

Arguments decimal : simpl never.
Arguments as_int : simpl never.

(** [debug] only logs. *)
Definition debug (msg : string) : M unit := ret tt.

(** The exit status of a finished run: the value [main] returns, the status
    [die] exits with; a replaced process image has none. *)
Definition exit_status (r : result Z) : option Z :=
  match r with
  | Ret code => Some code
  | Stop (Died _) => Some 1
  | Stop (Replaced _) => None
  end.

(** ** The kernel's rules for changing ids

    setegid(2), seteuid(2), setgid(2) and setuid(2) as Linux implements
    them, with "privileged" read as "effective uid 0" (the process holds
    CAP_SETUID and CAP_SETGID exactly when its effective uid is 0). *)

Definition privileged (c : creds) : bool := euid c =? 0.

Definition with_egid (c : creds) (g : gid_t) : creds :=
  mk_creds (ruid c) (euid c) (suid c) (rgid c) g (sgid c).

Definition with_euid (c : creds) (u : uid_t) : creds :=
  mk_creds (ruid c) u (suid c) (rgid c) (egid c) (sgid c).

Definition with_all_gids (c : creds) (g : gid_t) : creds :=
  mk_creds (ruid c) (euid c) (suid c) g g g.

Definition with_all_uids (c : creds) (u : uid_t) : creds :=
  mk_creds u u u (rgid c) (egid c) (sgid c).

(** An unprivileged process may set its effective group id to its real,
    effective or saved group id; a privileged one to anything. *)
Definition kernel_setegid (c : creds) (g : gid_t) : option creds :=
  if privileged c || (g =? rgid c) || (g =? egid c) || (g =? sgid c)
  then Some (with_egid c g) else None.

Definition kernel_seteuid (c : creds) (u : uid_t) : option creds :=
  if privileged c || (u =? ruid c) || (u =? euid c) || (u =? suid c)
  then Some (with_euid c u) else None.

(** A privileged process sets all three group ids; an unprivileged one only
    the effective one, and only to its real or saved group id. *)
Definition kernel_setgid (c : creds) (g : gid_t) : option creds :=
  if privileged c then Some (with_all_gids c g)
  else if (g =? rgid c) || (g =? sgid c) then Some (with_egid c g)
  else None.

Definition kernel_setuid (c : creds) (u : uid_t) : option creds :=
  if privileged c then Some (with_all_uids c u)
  else if (u =? ruid c) || (u =? suid c) then Some (with_euid c u)
  else None.

Section Launcher.

Variable w : world.

(** ** System calls and collaborators *)

(** A credential-changing call: the kernel's rule decides, unless the
    kernel refuses for a reason of its own; the C function returns 0 or -1. *)
Definition change_ids (rule : creds -> option creds) (at_ : site)
    (ev : bool -> event) : M Z :=
  do c <- get_creds;
  match (if w_refused w at_ then None else rule c) with
  | Some c' => emit (ev true) ;; put_creds c' ;; ret 0
  | None => emit (ev false) ;; ret (-1)
  end.

Definition setegid (at_ : site) (g : gid_t) : M Z :=
  change_ids (fun c => kernel_setegid c g) at_ (Setegid g).
Definition seteuid (at_ : site) (u : uid_t) : M Z :=
  change_ids (fun c => kernel_seteuid c u) at_ (Seteuid u).
Definition setgid (at_ : site) (g : gid_t) : M Z :=
  change_ids (fun c => kernel_setgid c g) at_ (Setgid g).
Definition setuid (at_ : site) (u : uid_t) : M Z :=
  change_ids (fun c => kernel_setuid c u) at_ (Setuid u).

Definition getuid : M uid_t := emit Getuid ;; do c <- get_creds; ret (ruid c).
Definition geteuid : M uid_t := emit Geteuid ;; do c <- get_creds; ret (euid c).
Definition getgid : M gid_t := emit Getgid ;; do c <- get_creds; ret (rgid c).
Definition getegid : M gid_t := emit Getegid ;; do c <- get_creds; ret (egid c).
Definition getresuid : M (uid_t * uid_t * uid_t) :=
  emit Getresuid ;; do c <- get_creds; ret (ruid c, euid c, suid c).
Definition getresgid : M (gid_t * gid_t * gid_t) :=
  emit Getresgid ;; do c <- get_creds; ret (rgid c, egid c, sgid c).
Definition getpid : M unit := emit Getpid.

(** [unshare(CLONE_NEWNS)]: a negative value is an error. *)
Definition unshare (at_ : site) : M Z :=
  if w_refused w at_ then emit (Unshare false) ;; ret (-1)
  else emit (Unshare true) ;; ret 0.

Definition getenv (name : string) : M (option string) :=
  emit (Getenv name) ;; do e <- get_env; ret (e !! name).

(** [secure_getenv] answers NULL in secure-execution mode. *)
Definition secure_getenv (name : string) : M (option string) :=
  emit (SecureGetenv name) ;;
  do e <- get_env; ret (if w_at_secure w then None else e !! name).

(** [setenv(name, value, 1)]: the variable is overwritten.  It fails with
    EINVAL for an empty name or one that contains '='; running out of memory
    is outside this model. *)
Fixpoint has_equals_sign (name : string) : bool :=
  match name with
  | EmptyString => false
  | String a rest => Ascii.eqb a "="%char || has_equals_sign rest
  end.

Definition valid_env_name (name : string) : bool :=
  negb (String.eqb name "") && negb (has_equals_sign name).

Definition setenv (name value : string) : M Z :=
  if valid_env_name name
  then emit (Setenv name value) ;; do e <- get_env; put_env (<[name := value]> e) ;; ret 0
  else ret (-1).

(** A collaborator either returns its value or dies inside. *)
Definition call (c : collaborator) : M Z :=
  emit (Call c) ;;
  if w_returns w c then ret (w_retval w c) else die "fatal error in collaborator".

Definition sc_unlock (fd : lock_fd) : M unit := emit (Unlock fd).

(** errno.h and glob.h *)
Definition ESRCH : Z := 3.
Definition GLOB_NOMATCH : Z := 3.

Definition stat (path : string) : M (option Z) :=
  emit (Stat path) ;; ret (w_var_lib_mode w).
Definition chmod (path : string) (mode : Z) : M Z :=
  emit (Chmod path mode) ;; ret (if w_chmod_ok w then 0 else -1).
Definition chown (path : string) (u : uid_t) (g : gid_t) : M Z :=
  emit (Chown path u g) ;; ret (if w_chown_ok w then 0 else -1).
Definition glob (pattern : string) : M (Z * list string) :=
  emit (Glob pattern) ;; ret (w_glob_err w, w_glob_pathv w).
Definition unlink (path : string) : M unit := emit (Unlink path).

(** ** The program *)

(** The octal constants 0777 and 0755. *)
Definition mode_0777 : Z := 511.
Definition mode_0755 : Z := 493.

(** [sc_maybe_fixup_permissions], lines 54-67. *)
Definition sc_maybe_fixup_permissions : M unit :=
  do buf <- stat "/var/lib";
  match buf with
  | None => die "cannot stat /var/lib"
  | Some st_mode =>
      if Z.land st_mode mode_0777 =? mode_0777 then
        do rc <- chmod "/var/lib" mode_0755;
        if negb (rc =? 0) then die "cannot chmod /var/lib" else
        do rc <- chown "/var/lib" 0 0;
        if negb (rc =? 0) then die "cannot chown /var/lib" else ret tt
      else ret tt
  end.

(** The loop of lines 93-95. *)
Fixpoint unlink_each (gl_pathv : list string) : M unit :=
  match gl_pathv with
  | [] => ret tt
  | path :: rest => unlink path ;; unlink_each rest
  end.

(** [sc_maybe_fixup_udev], lines 73-96. *)
Definition sc_maybe_fixup_udev : M unit :=
  let glob_pattern := "/run/udev/tags/snap_*/*nvidia*" in
  do res <- glob glob_pattern;
  let err := fst res in
  if err =? GLOB_NOMATCH then ret tt else
  if negb (err =? 0) then
    die ("cannot search using glob pattern " ++ glob_pattern ++ ": " ++ decimal err)%string
  else
  unlink_each (snd res).

(** [enter_classic_execution_environment], lines 258-267. *)
Definition enter_classic_execution_environment : M unit :=
  debug "skipping sandbox setup, classic confinement in use".

Definition core_snap_PATH : string :=
  "/usr/local/sbin:/usr/local/bin:/usr/sbin:/usr/bin:/sbin:/bin:/usr/games:/usr/local/games".

(** The loop of lines 401-407 over [tmpd]. *)
Fixpoint set_tmpdirs (tmpd : list string) : M unit :=
  match tmpd with
  | [] => ret tt
  | name :: rest =>
      do rc <- setenv name "/tmp";
      if negb (rc =? 0) then
        die ("cannot set environment variable '" ++ name ++ "'")%string
      else set_tmpdirs rest
  end.

(** [enter_non_classic_execution_environment], lines 269-411.  The
    invocation is passed by pointer and [is_normal_mode] is written through
    it, so the updated record is handed back.  The arguments of the
    collaborators are left out of the events; the descriptors of
    snap-update-ns and snap-discard-ns, closed when the function returns,
    are not modelled. *)
Definition enter_non_classic_execution_environment (inv : sc_invocation)
    (aa : sc_apparmor) (real_uid : uid_t) (real_gid saved_gid : gid_t) : M sc_invocation :=
  call sc_reassociate_with_pid1_mount_ns ;;
  (* Do global initialization *)
  call sc_lock_global ;;
  debug "ensuring that snap mount directory is shared" ;;
  call sc_ensure_shared_snap_mount ;;
  debug "unsharing snap namespace directory" ;;
  call sc_initialize_mount_ns ;;
  sc_unlock global_lock_fd ;;
  call sc_open_snap_update_ns ;;
  call sc_open_snap_discard_ns ;;
  (* Do per-snap initialization *)
  call sc_lock_snap ;;
  debug "initializing mount namespace" ;;
  call sc_open_mount_ns ;;
  do distro <- call sc_classify_distro;
  let inv := mk_inv (base_snap_name inv) (security_tag inv) (snap_instance inv)
                    (sc_should_use_normal_mode w distro (base_snap_name inv)) in
  call sc_fork_helper ;;
  do retval <- call sc_join_preserved_ns;
  (if retval =? ESRCH then
     debug "unsharing the mount namespace (per-snap)" ;;
     do rc <- unshare at_unshare_snap;
     if rc <? 0 then die "cannot unshare the mount namespace" else
     call sc_populate_mount_ns ;;
     call sc_preserve_populated_mount_ns ;;
     ret tt
   else ret tt) ;;
  sc_maybe_fixup_permissions ;;
  sc_maybe_fixup_udev ;;
  (* User mount profiles do not apply to non-root users. *)
  (if negb (real_uid =? 0) then
     debug "joining preserved per-user mount namespace" ;;
     do retval <- call sc_join_preserved_per_user_ns;
     if retval =? ESRCH then
       debug "unsharing the mount namespace (per-user)" ;;
       do rc <- unshare at_unshare_user;
       if rc <? 0 then die "cannot unshare the mount namespace" else
       call sc_setup_user_mounts ;;
       if sc_feature_enabled w SC_PER_USER_MOUNT_NAMESPACE then
         call sc_preserve_populated_per_user_mount_ns ;; ret tt
       else debug "NOT preserving per-user mount namespace"
     else ret tt
   else ret tt) ;;
  do eg <- getegid;
  (if negb (eg =? 0) && (saved_gid =? 0) then
     do rc <- setegid at_raise_setegid 0;
     if negb (rc =? 0) then die "cannot set effective group id to root" else ret tt
   else ret tt) ;;
  getpid ;;
  call sc_cgroup_freezer_join ;;
  do eu <- geteuid;
  (if (eu =? 0) && negb (real_gid =? 0) then
     do rc <- setegid at_lower_setegid real_gid;
     if negb (rc =? 0) then
       die ("cannot set effective group id to " ++ decimal (as_int real_gid))%string
     else ret tt
   else ret tt) ;;
  sc_unlock snap_lock_fd ;;
  call sc_close_mount_ns ;;
  debug "resetting PATH to values in sync with core snap" ;;
  setenv "PATH" core_snap_PATH ;;
  set_tmpdirs ["TMPDIR"; "TEMPDIR"] ;;
  do rc <- call snappy_udev_init;
  (if rc =? 0 then call setup_devices_cgroup ;; ret tt else ret tt) ;;
  call snappy_udev_cleanup ;;
  ret inv.

(** Lines 212-213 of [main]: the temporary drop. *)
Definition temporary_drop (real_uid : uid_t) (real_gid : gid_t) : M unit :=
  do rc <- setegid at_tmp_setegid real_gid;
  if negb (rc =? 0) then die "setegid failed" else
  do rc <- seteuid at_tmp_seteuid real_uid;
  if negb (rc =? 0) then die "seteuid failed" else ret tt.

(** Lines 215-216 of [main]: the reads after the temporary drop.  The
    second operand of [&&] is only evaluated when the first holds. *)
Definition check_temporary_drop (real_uid : uid_t) (real_gid : gid_t) : M unit :=
  do still_root <- (if negb (real_gid =? 0) then do eu <- geteuid; ret (eu =? 0) else ret false);
  if still_root then die "dropping privs did not work" else
  do still_root <- (if negb (real_uid =? 0) then do eg <- getegid; ret (eg =? 0) else ret false);
  if still_root then die "dropping privs did not work" else ret tt.

(** Lines 241-242 of [main]: the permanent drop. *)
Definition permanent_drop (real_uid : uid_t) (real_gid : gid_t) : M unit :=
  do rc <- setgid at_setgid real_gid;
  if negb (rc =? 0) then die "setgid failed" else
  do rc <- setuid at_setuid real_uid;
  if negb (rc =? 0) then die "setuid failed" else ret tt.

(** Lines 244-245 of [main]: the reads after the permanent drop. *)
Definition check_permanent_drop (real_uid : uid_t) (real_gid : gid_t) : M unit :=
  do still_root <-
    (if negb (real_gid =? 0) then
       do u <- getuid;
       if u =? 0 then ret true else do eu <- geteuid; ret (eu =? 0)
     else ret false);
  if still_root then die "permanently dropping privs did not work" else
  do still_root <-
    (if negb (real_uid =? 0) then
       do g <- getgid;
       if g =? 0 then ret true else do eg <- getegid; ret (eg =? 0)
     else ret false);
  if still_root then die "permanently dropping privs did not work" else ret tt.

(** Lines 238-246 of [main]: "Permanently drop if not root". *)
Definition permanent_drop_step (real_uid : uid_t) (real_gid : gid_t) : M unit :=
  do eu <- geteuid;
  if eu =? 0 then
    permanent_drop real_uid real_gid ;;
    check_permanent_drop real_uid real_gid
  else ret tt.

Definition printf (s : string) : M unit := emit (Printf s).

Definition execv (path : string) : M Z :=
  emit (Execv path (w_execv_ok w)) ;;
  if w_execv_ok w then (fun s => (Stop (Replaced path), s)) else ret (-1).

Definition perror (s : string) : M unit := emit (Perror s).

(** [main], lines 111-256.  Heap memory and its release (the cleanup of
    [args], [err] and [snap_context]) are not modelled; [PACKAGE] and
    [PACKAGE_VERSION] of config.h are not in this file, so the version line
    is a fixed string; the loop of lines 250-252 only logs the arguments. *)
Definition main : M Z :=
  match w_args w with
  | None => die "cannot parse arguments" (* sc_die_on_error *)
  | Some args =>
  if sc_args_is_version_query args then
    printf "snap-confine version" ;; ret 0
  else
  do snap_instance <- getenv "SNAP_INSTANCE_NAME";
  match snap_instance with
  | None => die "SNAP_INSTANCE_NAME is not set"
  | Some snap_instance =>
  call sc_instance_name_validate ;;
  let security_tag := sc_args_security_tag args in
  if negb (verify_security_tag w security_tag snap_instance) then
    die ("security tag " ++ security_tag ++ " not allowed")%string
  else
  let executable := sc_args_executable args in
  let base_snap_name := default "core" (sc_args_base_snap args) in
  let classic_confinement := sc_args_is_classic_confinement args in
  call sc_snap_name_validate ;;
  debug "security tag" ;;
  debug "executable" ;;
  debug "confinement" ;;
  debug "base snap" ;;
  (* Who are we? *)
  do ruids <- getresuid;
  do rgids <- getresgid;
  let '(real_uid, effective_uid, saved_uid) := ruids in
  let '(real_gid, effective_gid, saved_gid) := rgids in
  debug "ruid, euid, suid" ;;
  debug "rgid, egid, sgid" ;;
  (if (effective_gid =? 0) && negb (real_gid =? 0) then
     do rc <- setegid at_early_setegid real_gid;
     if negb (rc =? 0) then
       die ("cannot set effective group id to " ++ decimal (as_int real_gid))%string
     else ret tt
   else ret tt) ;;
  (if CAPS_OVER_SETUID w then ret tt else
     do eu <- geteuid;
     if negb (eu =? 0) then
       do no_root <- secure_getenv "SNAP_CONFINE_NO_ROOT";
       match no_root with
       | None => die "need to run as root or suid"
       | Some _ => ret tt
       end
     else ret tt) ;;
  do snap_context <-
    (if negb (sc_is_hook_security_tag w security_tag) then
       emit (Call sc_cookie_get_from_snapd) ;;
       (if w_cookie_err w then emit ErrorMsg else ret tt) ;;
       ret (w_cookie w)
     else ret None);
  call sc_init_apparmor_support ;;
  let apparmor := w_apparmor w in
  do refuse <-
    (if negb (aa_is_confined apparmor)
        && negb (aa_mode_eqb (aa_mode apparmor) SC_AA_NOT_APPLICABLE) then
       do u <- getuid;
       if negb (u =? 0) then do eu <- geteuid; ret (eu =? 0) else ret false
     else ret false);
  if refuse then
    die "snap-confine has elevated permissions and is not confined but should be. Refusing to continue to avoid permission escalation attacks"
  else
  let invocation := mk_inv base_snap_name security_tag snap_instance false in
  do eu <- geteuid;
  (if eu =? 0 then
     (if classic_confinement then enter_classic_execution_environment
      else enter_non_classic_execution_environment invocation apparmor
             real_uid real_gid saved_gid ;; ret tt) ;;
     temporary_drop real_uid real_gid ;;
     check_temporary_drop real_uid real_gid
   else ret tt) ;;
  (* Ensure that the user data path exists. *)
  call setup_user_data ;;
  call sc_maybe_aa_change_onexec ;;
  (if HAVE_SECCOMP w then
     do applied <- call sc_apply_seccomp_profile_for_security_tag;
     if negb (applied =? 0) then call sc_apply_global_seccomp_profile ;; ret tt else ret tt
   else ret tt) ;;
  match snap_context with
  | Some cookie =>
      setenv "SNAP_COOKIE" cookie ;;
      setenv "SNAP_CONTEXT" cookie ;; ret tt
  | None => ret tt
  end ;;
  (* Permanently drop if not root *)
  permanent_drop_step real_uid real_gid ;;
  (* and exec the new executable *)
  debug "execv" ;;
  execv executable ;;
  perror "execv failed" ;;
  ret 1
  end
  end.

End Launcher.

(** The state in which [main] starts. *)
Definition initial_state (w : world) : state :=
  mk_state (w_creds w) (w_environ w) [].

(** A run of the launcher: how it ends and the state it ends in. *)
Definition run (w : world) : result Z * state := main w (initial_state w).

Definition outcome (w : world) : result Z := fst (run w).
Definition trace (w : world) : list event := st_trace (snd (run w)).
Definition final_creds (w : world) : creds := st_creds (snd (run w)).
Definition final_env (w : world) : gmap string string := st_env (snd (run w)).

(** ** Reasoning about runs *)

(** [holds m s Q]: running [m] from [s] ends in a result and a state that
    satisfy [Q]. *)
Definition holds {A} (m : M A) (s : state) (Q : result A -> state -> Prop) : Prop :=
  Q (fst (m s)) (snd (m s)).

(** The state after one more event. *)
Definition after (s : state) (e : event) : state :=
  mk_state (st_creds s) (st_env s) (st_trace s ++ [e]).

(** ** Monitors: automata that read a trace *)

Section MonitorDefs.

Context {Q : Type}.
Variable step : Q -> event -> option Q.
Variable q0 : Q.

Definition feed (oq : option Q) (e : event) : option Q :=
  match oq with
  | Some q => step q e
  | None => None
  end.

(** The monitor's state after a trace; [None] once it has rejected. *)
Definition monitor (tr : list event) : option Q := fold_left feed tr (Some q0).

(** The monitor is in state [q] after the trace of [s]. *)
Definition tracked (q : Q) (s : state) : Prop := monitor (st_trace s) = Some q.

(** The monitor is in state [q] and [extra] holds of the state besides. *)
Definition kept (extra : Q -> state -> Prop) (q : Q) (s : state) : Prop :=
  tracked q s /\ extra q s.

(** The monitor has not rejected the trace of [s], [extra] holds, and the
    monitor's state fits the way the run ended. *)
Definition ended {A} (extra : Q -> state -> Prop) (good : Q -> result A -> Prop)
    (o : result A) (s : state) : Prop :=
  exists q, kept extra q s /\ good q o.

End MonitorDefs.

(** Nothing is known of the state besides the monitor. *)
Definition nothing {Q} (q : Q) (s : state) : Prop := True.

(** ** Example invocations *)

Definition host_env : gmap string string :=
  <["SNAP_INSTANCE_NAME" := "foo"]>
    (<["TMPDIR" := "/host/tmp"]> (<["PATH" := "/host/bin"]> ∅)).

(** A launch of the application "snap.foo.app" of snap "foo" on a host where
    no namespace is preserved yet, nothing fails, and /var/lib has mode
    0755. *)
Definition example_world (c : creds) (version classic : bool)
    (environ : gmap string string) (at_secure : bool) (aa : sc_apparmor) : world :=
  mk_world
    (Some (mk_args version classic "snap.foo.app" "/snap/foo/bin/app" None))
    environ c at_secure
    true false
    (fun _ _ => true) (fun _ => false)
    (Some "tok") false
    aa
    (fun _ _ => true) (fun _ => false)
    (fun _ => true)
    (fun c => match c with
              | sc_join_preserved_ns | sc_join_preserved_per_user_ns => ESRCH
              | sc_apply_seccomp_profile_for_security_tag => 1
              | _ => 0
              end)
    (fun _ => false)
    (Some mode_0755) true true
    GLOB_NOMATCH []
    true.

Definition confined : sc_apparmor := mk_aa true SC_AA_ENFORCE.
Definition unconfined : sc_apparmor := mk_aa false SC_AA_ENFORCE.

(** User 1000 runs the set-uid and set-gid root launcher. *)
Definition user_launch : world :=
  example_world (mk_creds 1000 0 0 1000 0 0) false false host_env true confined.


(** A test run: the launcher is not set-uid and SNAP_CONFINE_NO_ROOT is set. *)
Definition test_launch : world :=
  example_world (mk_creds 1000 1000 1000 1000 1000 1000) false false
    (<["SNAP_CONFINE_NO_ROOT" := "1"]> host_env) false confined.

(** ** The per-snap lock *)

(** The operations on the snap's mount namespaces and its freezer group. *)
Definition namespace_op (e : event) : bool :=
  match e with
  | Unshare _
  | Call sc_join_preserved_ns
  | Call sc_populate_mount_ns
  | Call sc_preserve_populated_mount_ns
  | Call sc_join_preserved_per_user_ns
  | Call sc_setup_user_mounts
  | Call sc_preserve_populated_per_user_mount_ns
  | Call sc_cgroup_freezer_join => true
  | _ => false
  end.

(** Whether the per-snap lock is held after a trace: taken by
    [sc_lock_snap], released by [sc_unlock(snap_lock_fd)]. *)
Definition lock_update (held : bool) (e : event) : bool :=
  match e with
  | Call sc_lock_snap => true
  | Unlock snap_lock_fd => false
  | _ => held
  end.

Definition snap_lock_held (tr : list event) : bool := fold_left lock_update tr false.

(** Where a run is with respect to the per-snap lock.  While the lock is
    held the monitor remembers whether the join of the preserved namespace
    has been attempted and whether the freezer group has been joined. *)
Inductive lock_phase :=
  | NotLocked
  | Locked (join_attempted cgroup_joined : bool)
  | Released.

(** The monitor rejects a namespace operation made without the lock, a
    second acquisition, and a release before the freezer group is joined. *)
Definition lock_step (q : lock_phase) (e : event) : option lock_phase :=
  match q, e with
  | NotLocked, Call sc_lock_snap => Some (Locked false false)
  | Locked _ _, Call sc_lock_snap | Released, Call sc_lock_snap => None
  | Locked true true, Unlock snap_lock_fd => Some Released
  | _, Unlock snap_lock_fd => None
  | Locked _ c, Call sc_join_preserved_ns => Some (Locked true c)
  | Locked true _, Call sc_cgroup_freezer_join => Some (Locked true true)
  | Locked false _, Call sc_cgroup_freezer_join => None
  | Locked true _, _ => Some q
  | Locked false _, _ => if namespace_op e then None else Some q
  | _, _ => if namespace_op e then None else Some q
  end.

(** What a monitor state says about the trace read so far. *)
Definition phase_sound (tr : list event) (q : lock_phase) : Prop :=
  match q with
  | NotLocked => snap_lock_held tr = false
  | Locked j c =>
      snap_lock_held tr = true /\
      (j = true -> In (Call sc_join_preserved_ns) tr) /\
      (c = true -> In (Call sc_cgroup_freezer_join) tr)
  | Released =>
      snap_lock_held tr = false /\
      In (Call sc_join_preserved_ns) tr /\
      In (Call sc_cgroup_freezer_join) tr
  end.

(** ** The permanent drop *)

(** A real or effective id of the process is 0. *)
Definition still_privileged (c : creds) : Prop :=
  ruid c = 0 \/ euid c = 0 \/ rgid c = 0 \/ egid c = 0.


(** ** The order of the privilege drops and the policy *)

(** The application of the AppArmor transition and of the seccomp filters. *)
Definition policy_event (e : event) : bool :=
  match e with
  | Call sc_maybe_aa_change_onexec
  | Call sc_apply_seccomp_profile_for_security_tag
  | Call sc_apply_global_seccomp_profile => true
  | _ => false
  end.

(** [setegid] and [seteuid], the calls of the temporary drops. *)
Definition effective_id_call (e : event) : bool :=
  match e with
  | Setegid _ _ | Seteuid _ _ => true
  | _ => false
  end.

(** [setgid] and [setuid], the calls of the permanent drop. *)
Definition permanent_id_call (e : event) : bool :=
  match e with
  | Setgid _ _ | Setuid _ _ => true
  | _ => false
  end.

(** How far the run is in dropping privileges and applying the policy. *)
Inductive drop_phase :=
  | Elevated   (* no seteuid has succeeded *)
  | Dropped    (* seteuid(real_uid) has succeeded *)
  | Applied    (* a policy has been applied *)
  | Final.     (* setgid or setuid has been called *)

(** The monitor accepts a successful [seteuid] only to the invoker's real
    uid, a policy event only after it (or, for a launcher that started
    without effective uid 0, without it) and before [setgid] and [setuid],
    and no [setegid] or [seteuid] once the effective uid is dropped. *)
Definition drop_step (w : world) (q : drop_phase) (e : event) : option drop_phase :=
  match q with
  | Elevated =>
      match e with
      | Seteuid u true => if u =? ruid (w_creds w) then Some Dropped else None
      | Setgid _ _ | Setuid _ _ => Some Final
      | _ => if policy_event e
             then if euid (w_creds w) =? 0 then None else Some Applied
             else Some Elevated
      end
  | Dropped =>
      if effective_id_call e then None
      else if permanent_id_call e then Some Final
      else if policy_event e then Some Applied else Some Dropped
  | Applied =>
      if effective_id_call e then None
      else if permanent_id_call e then Some Final
      else Some Applied
  | Final =>
      if effective_id_call e || policy_event e then None else Some Final
  end.

(** What a phase says about the trace read so far. *)
Definition drop_sound (w : world) (tr : list event) (q : drop_phase) : Prop :=
  match q with
  | Elevated =>
      Forall (fun e => permanent_id_call e = false) tr
  | Dropped =>
      Forall (fun e => permanent_id_call e = false) tr /\
      In (Seteuid (ruid (w_creds w)) true) tr
  | Applied =>
      Forall (fun e => permanent_id_call e = false) tr /\
      (euid (w_creds w) = 0 -> In (Seteuid (ruid (w_creds w)) true) tr)
  | Final => True
  end.

(** Every [seteuid] in a trace directly follows a successful
    [setegid(real_gid)]. *)
Definition drop_pairs (w : world) (tr : list event) : Prop :=
  forall a u ok b, tr = a ++ Seteuid u ok :: b ->
    exists a', a = a' ++ [Setegid (rgid (w_creds w)) true].

(** The temporary drop to the invoker's ids has been made in a trace. *)
Definition temporarily_dropped (w : world) (tr : list event) : Prop :=
  exists a b, tr = a ++ Setegid (rgid (w_creds w)) true
                     :: Seteuid (ruid (w_creds w)) true :: b.

(** Besides the monitor: the pairing of the drop, and that the effective
    uid is the inherited one while it has not been dropped. *)
Definition drop_extra (w : world) (q : drop_phase) (s : state) : Prop :=
  drop_pairs w (st_trace s) /\
  match q with
  | Elevated => euid (st_creds s) = euid (w_creds w)
  | _ => True
  end.

(** C2 as it is stated: whenever a policy is applied, the temporary drop
    has been made before and no permanent drop. *)
Definition policy_after_temporary_drop (w : world) : Prop :=
  forall pre e post, trace w = pre ++ e :: post -> policy_event e = true ->
    temporarily_dropped w pre /\
    Forall (fun e' => permanent_id_call e' = false) pre.

(** ** Checking the calls that change ids *)

(** A call that changes the ids of the process. *)
Definition id_change (e : event) : bool :=
  match e with
  | Setegid _ _ | Seteuid _ _ | Setgid _ _ | Setuid _ _ => true
  | _ => false
  end.

(** ... that the kernel refused. *)
Definition failed_id_change (e : event) : bool :=
  match e with
  | Setegid _ false | Seteuid _ false | Setgid _ false | Setuid _ false => true
  | _ => false
  end.

(** A read of the ids of the process. *)
Definition id_read (e : event) : bool :=
  match e with
  | Getresuid | Getresgid | Getuid | Geteuid | Getgid | Getegid => true
  | _ => false
  end.

(** C3 as it is stated: every call that changes ids is directly followed by
    a read of the ids (or by the next call of the same drop, itself followed
    by a read). *)
Definition every_change_verified (tr : list event) : Prop :=
  forall pre e post, tr = pre ++ e :: post -> id_change e = true ->
    exists e' post', post = e' :: post' /\ (id_read e' = true \/ id_change e' = true).

(** ** The construction of the namespaces *)

(** The operations that join, build or publish a mount namespace. *)
Definition construction_op (e : event) : bool :=
  match e with
  | Unshare _
  | Call sc_join_preserved_ns
  | Call sc_populate_mount_ns
  | Call sc_preserve_populated_mount_ns
  | Call sc_join_preserved_per_user_ns
  | Call sc_setup_user_mounts
  | Call sc_preserve_populated_per_user_mount_ns => true
  | _ => false
  end.

(** How far the join-or-construct sequence has come. *)
Inductive build_phase :=
  | BeforeJoin       (* the per-snap join has not been attempted *)
  | SnapJoinMissed   (* the per-snap join answered ESRCH *)
  | SnapUnshared     (* ... and the mount namespace was unshared *)
  | SnapPopulated    (* ... and populated *)
  | BetweenNs        (* the per-snap namespace is joined or preserved *)
  | UserJoinMissed   (* the per-user join answered ESRCH *)
  | UserUnshared     (* ... and the mount namespace was unshared *)
  | UserMounted      (* ... and the user mounts set up, to be preserved *)
  | UserEphemeral    (* ... and the user mounts set up, not to be preserved *)
  | AfterNs          (* the per-user namespace is joined, built or skipped *)
  | Halted.          (* a step failed *)

(** The monitor of the sequence.  In the phases in which the program has
    one thing to do next, only that event is accepted. *)
Definition build_step (w : world) (real_uid : uid_t)
    (q : build_phase) (e : event) : option build_phase :=
  match q with
  | BeforeJoin =>
      match e with
      | Call sc_join_preserved_ns =>
          Some (if w_returns w sc_join_preserved_ns
                then if w_retval w sc_join_preserved_ns =? ESRCH
                     then SnapJoinMissed else BetweenNs
                else Halted)
      | _ => if construction_op e then None else Some BeforeJoin
      end
  | SnapJoinMissed =>
      match e with
      | Unshare ok => Some (if ok then SnapUnshared else Halted)
      | _ => None
      end
  | SnapUnshared =>
      match e with
      | Call sc_populate_mount_ns =>
          Some (if w_returns w sc_populate_mount_ns then SnapPopulated else Halted)
      | _ => None
      end
  | SnapPopulated =>
      match e with
      | Call sc_preserve_populated_mount_ns =>
          Some (if w_returns w sc_preserve_populated_mount_ns then BetweenNs else Halted)
      | _ => None
      end
  | BetweenNs =>
      match e with
      | Call sc_join_preserved_per_user_ns =>
          if real_uid =? 0 then None
          else Some (if w_returns w sc_join_preserved_per_user_ns
                     then if w_retval w sc_join_preserved_per_user_ns =? ESRCH
                          then UserJoinMissed else AfterNs
                     else Halted)
      | _ => if construction_op e then None else Some BetweenNs
      end
  | UserJoinMissed =>
      match e with
      | Unshare ok => Some (if ok then UserUnshared else Halted)
      | _ => None
      end
  | UserUnshared =>
      match e with
      | Call sc_setup_user_mounts =>
          Some (if w_returns w sc_setup_user_mounts
                then if sc_feature_enabled w SC_PER_USER_MOUNT_NAMESPACE
                     then UserMounted else UserEphemeral
                else Halted)
      | _ => None
      end
  | UserMounted =>
      match e with
      | Call sc_preserve_populated_per_user_mount_ns =>
          Some (if w_returns w sc_preserve_populated_per_user_mount_ns
                then AfterNs else Halted)
      | _ => None
      end
  | UserEphemeral | AfterNs => if construction_op e then None else Some AfterNs
  | Halted => None
  end.

(** A run can end in a phase only if nothing is pending there; after a
    failed step it has died. *)
Definition build_end (q : build_phase) (o : result Z) : Prop :=
  match q with
  | BeforeJoin | BetweenNs | AfterNs => True
  | Halted => exists msg, o = Stop (Died msg)
  | _ => False
  end.

(** What a phase says about the trace read so far. *)
Definition build_sound (w : world) (real_uid : uid_t)
    (tr : list event) (q : build_phase) : Prop :=
  match q with
  | SnapJoinMissed =>
      (w_retval w sc_join_preserved_ns =? ESRCH) = true /\
      exists p, tr = p ++ [Call sc_join_preserved_ns]
  | SnapUnshared =>
      (w_retval w sc_join_preserved_ns =? ESRCH) = true /\
      exists p, tr = p ++ [Call sc_join_preserved_ns; Unshare true]
  | SnapPopulated =>
      w_returns w sc_populate_mount_ns = true /\
      exists p, tr = p ++ [Call sc_join_preserved_ns; Unshare true;
                           Call sc_populate_mount_ns]
  | UserJoinMissed =>
      (real_uid =? 0) = false /\
      (w_retval w sc_join_preserved_per_user_ns =? ESRCH) = true /\
      exists p, tr = p ++ [Call sc_join_preserved_per_user_ns]
  | UserUnshared =>
      (real_uid =? 0) = false /\
      (w_retval w sc_join_preserved_per_user_ns =? ESRCH) = true /\
      exists p, tr = p ++ [Call sc_join_preserved_per_user_ns; Unshare true]
  | UserMounted =>
      (real_uid =? 0) = false /\
      sc_feature_enabled w SC_PER_USER_MOUNT_NAMESPACE = true /\
      exists p, tr = p ++ [Call sc_join_preserved_per_user_ns; Unshare true;
                           Call sc_setup_user_mounts]
  | _ => True
  end.

(** ** Refusals before any execution environment *)

(** The work of a launch: taking a lock, touching a namespace or the
    freezer and device groups, fixing up /var/lib and udev tags, applying a
    policy, changing the user ids or the real group id, changing the
    environment, executing the application.  What [main] does before it
    (reading the environment and the ids, validating names, asking snapd
    for the cookie, probing AppArmor, lowering the effective group id) is
    not. *)
Definition launch_work (e : event) : bool :=
  match e with
  | Call sc_instance_name_validate | Call sc_snap_name_validate
  | Call sc_cookie_get_from_snapd | Call sc_init_apparmor_support => false
  | Call _ => true
  | Unshare _ | Unlock _ | Stat _ | Chmod _ _ | Chown _ _ _ | Glob _ | Unlink _
  | Setenv _ _ | Seteuid _ _ | Setgid _ _ | Setuid _ _ | Execv _ _ => true
  | _ => false
  end.

(** The invocation asks for the version string. *)
Definition version_query (w : world) : bool :=
  match w_args w with
  | Some args => sc_args_is_version_query args
  | None => false
  end.

(** The process is not confined by AppArmor where AppArmor applies, and has
    effective uid 0 for a real uid that is not 0. *)
Definition elevated_unconfined (w : world) : Prop :=
  aa_is_confined (w_apparmor w) = false /\
  aa_mode (w_apparmor w) <> SC_AA_NOT_APPLICABLE /\
  ruid (w_creds w) <> 0 /\
  euid (w_creds w) = 0.

(** The run dies without having done any of the work of a launch. *)
Definition refused (w : world) : Prop :=
  (exists msg, outcome w = Stop (Died msg)) /\
  Forall (fun e => launch_work e = false) (trace w).

(** C7 as it is stated, for every invocation. *)
Definition unconfined_is_refused (w : world) : Prop :=
  elevated_unconfined w -> refused w.

(** The monitor that rejects the work of a launch. *)
Definition quiet_step (q : unit) (e : event) : option unit :=
  if launch_work e then None else Some q.

Definition died (q : unit) (o : result Z) : Prop :=
  exists msg, o = Stop (Died msg).

(** User 1000 asks the set-uid root launcher, not confined by AppArmor, for
    its version. *)
Definition version_launch : world :=
  example_world (mk_creds 1000 0 0 1000 0 0) true false host_env true unconfined.

(** User 1000 runs the set-uid root launcher, not confined by AppArmor. *)
Definition unconfined_launch : world :=
  example_world (mk_creds 1000 0 0 1000 0 0) false false host_env true unconfined.

(** The same launch as [user_launch] without SNAP_INSTANCE_NAME. *)
Definition nameless_launch : world :=
  example_world (mk_creds 1000 0 0 1000 0 0) false false
    (delete "SNAP_INSTANCE_NAME" host_env) true confined.

(** ** The environment of the application *)

(** The environment a non-classic launch hands to the application. *)
Definition isolated_env (env : gmap string string) : Prop :=
  env !! "PATH" = Some core_snap_PATH /\
  env !! "TMPDIR" = Some "/tmp" /\
  env !! "TEMPDIR" = Some "/tmp".

(** The invocation asks for classic confinement. *)
Definition classic_launch (w : world) : bool :=
  match w_args w with
  | Some args => sc_args_is_classic_confinement args
  | None => false
  end.

(** Where a run is with respect to the reset of the environment. *)
Inductive env_phase :=
  | Outside    (* the non-classic environment has not been entered *)
  | Entered    (* it has, and the last of the variables is not reset yet *)
  | Isolated.     (* TEMPDIR, the last of them, has been set *)

Definition env_step (q : env_phase) (e : event) : option env_phase :=
  match e with
  | Call sc_reassociate_with_pid1_mount_ns =>
      Some (match q with Outside => Entered | _ => q end)
  | Setenv name _ => Some (if String.eqb name "TEMPDIR" then Isolated else q)
  | _ => Some q
  end.

(** A launch is handed off only with the environment reset. *)
Definition env_end (q : env_phase) (o : result Z) : Prop :=
  (exists path, o = Stop (Replaced path)) -> q = Isolated.

(** Besides the monitor: before the environment is entered the effective
    uid is the inherited one; once the variables are reset they stay so. *)
Definition env_extra (w : world) (q : env_phase) (s : state) : Prop :=
  match q with
  | Outside => euid (st_creds s) = euid (w_creds w)
  | Entered => True
  | Isolated => isolated_env (st_env s)
  end.

(** The same without the part on the effective uid. *)
Definition env_kept (q : env_phase) (s : state) : Prop :=
  match q with
  | Isolated => isolated_env (st_env s)
  | _ => True
  end.

(** What a phase says about the trace read so far. *)
Definition env_sound (tr : list event) (q : env_phase) : Prop :=
  match q with
  | Isolated => True
  | _ => forall v, ~ In (Setenv "TEMPDIR" v) tr
  end.

(** ** The snap cookie *)

(** The security tag of the invocation is that of a hook. *)
Definition hook_invocation (w : world) : bool :=
  match w_args w with
  | Some args => sc_is_hook_security_tag w (sc_args_security_tag args)
  | None => false
  end.

(** The two variables that carry the cookie. *)
Definition cookie_variable (name : string) : bool :=
  String.eqb name "SNAP_COOKIE" || String.eqb name "SNAP_CONTEXT".

(** Neither variable has been set in a trace. *)
Definition no_cookie_set (tr : list event) : Prop :=
  forall name v, In (Setenv name v) tr -> cookie_variable name = false.

(** Where a run is with respect to the cookie. *)
Inductive cookie_phase :=
  | NotFetched                 (* snapd has not been asked *)
  | Asked                      (* snapd has just been asked *)
  | Reported                   (* ... and its error has just been printed *)
  | Fetched                    (* the request is over *)
  | CookieSet (v : string)     (* SNAP_COOKIE has just been set to v *)
  | BothSet.                   (* and SNAP_CONTEXT too *)

(** Once the request is over: SNAP_COOKIE is set only to the cookie snapd
    gave, and the hand-off is made without the variables only if there is
    no cookie. *)
Definition cookie_settled (w : world) (e : event) : option cookie_phase :=
  match e with
  | Call sc_cookie_get_from_snapd | ErrorMsg => None
  | Setenv name v =>
      if String.eqb name "SNAP_COOKIE" then
        match w_cookie w with
        | Some v' => if String.eqb v' v then Some (CookieSet v) else None
        | None => None
        end
      else if String.eqb name "SNAP_CONTEXT" then None else Some Fetched
  | Execv _ _ =>
      match w_cookie w with
      | None => Some Fetched
      | Some _ => None
      end
  | _ => Some Fetched
  end.

(** The monitor accepts the request to snapd only when the tag is not a
    hook's; directly after the request the error message, and only it,
    when there is an error, and anything but it when there is none;
    SNAP_COOKIE only with the cookie snapd gave, SNAP_CONTEXT only directly
    after it with the same value, and the hand-off only with both variables
    set if there is a cookie and neither if there is none. *)
Definition cookie_step (w : world) (hook : bool)
    (q : cookie_phase) (e : event) : option cookie_phase :=
  match q with
  | NotFetched =>
      match e with
      | Call sc_cookie_get_from_snapd => if hook then None else Some Asked
      | ErrorMsg => None
      | Setenv name _ => if cookie_variable name then None else Some NotFetched
      | Execv _ _ => if hook then Some NotFetched else None
      | _ => Some NotFetched
      end
  | Asked =>
      match e with
      | ErrorMsg => if w_cookie_err w then Some Reported else None
      | _ => if w_cookie_err w then None else cookie_settled w e
      end
  | Reported | Fetched => cookie_settled w e
  | CookieSet v =>
      match e with
      | Setenv name v' =>
          if String.eqb name "SNAP_CONTEXT" && String.eqb v' v
          then Some BothSet else None
      | _ => None
      end
  | BothSet =>
      match e with
      | Call sc_cookie_get_from_snapd | ErrorMsg => None
      | Setenv name _ => if cookie_variable name then None else Some BothSet
      | _ => Some BothSet
      end
  end.

(** A run does not end on the request, on the error message or between the
    two variables; and it hands off before the request only for a hook,
    after it without the variables only if snapd gave no cookie. *)
Definition cookie_end (w : world) (hook : bool)
    (q : cookie_phase) (o : result Z) : Prop :=
  match q with
  | Asked | Reported | CookieSet _ => False
  | NotFetched =>
      match o with
      | Stop (Replaced _) => hook = true
      | _ => True
      end
  | Fetched =>
      match o with
      | Stop (Replaced _) => w_cookie w = None
      | _ => True
      end
  | BothSet => True
  end.

(** Besides the monitor: until SNAP_COOKIE is set the two variables are the
    inherited ones, and once both are set they hold the cookie snapd gave. *)
Definition cookie_extra (w : world) (q : cookie_phase) (s : state) : Prop :=
  match q with
  | NotFetched | Asked | Reported | Fetched =>
      st_env s !! "SNAP_COOKIE" = w_environ w !! "SNAP_COOKIE" /\
      st_env s !! "SNAP_CONTEXT" = w_environ w !! "SNAP_CONTEXT"
  | CookieSet v => st_env s !! "SNAP_COOKIE" = Some v
  | BothSet =>
      st_env s !! "SNAP_COOKIE" = w_cookie w /\
      st_env s !! "SNAP_CONTEXT" = w_cookie w
  end.

(** What a phase says about the trace read so far. *)
Definition cookie_sound (w : world) (hook : bool)
    (tr : list event) (q : cookie_phase) : Prop :=
  match q with
  | NotFetched => no_cookie_set tr /\ ~ In (Call sc_cookie_get_from_snapd) tr
  | Asked | Reported | Fetched =>
      hook = false /\ no_cookie_set tr /\ In (Call sc_cookie_get_from_snapd) tr
  | CookieSet v =>
      hook = false /\ w_cookie w = Some v /\ In (Setenv "SNAP_COOKIE" v) tr /\
      In (Call sc_cookie_get_from_snapd) tr
  | BothSet =>
      hook = false /\
      exists v, w_cookie w = Some v /\
                In (Setenv "SNAP_COOKIE" v) tr /\ In (Setenv "SNAP_CONTEXT" v) tr /\
                In (Call sc_cookie_get_from_snapd) tr
  end.

(** A world that differs in the answer of snapd only. *)
Definition with_cookie (w : world) (cookie : option string) (err : bool) : world :=
  mk_world (w_args w) (w_environ w) (w_creds w) (w_at_secure w)
    (HAVE_SECCOMP w) (CAPS_OVER_SETUID w)
    (verify_security_tag w) (sc_is_hook_security_tag w)
    cookie err (w_apparmor w)
    (sc_should_use_normal_mode w) (sc_feature_enabled w)
    (w_returns w) (w_retval w) (w_refused w)
    (w_var_lib_mode w) (w_chmod_ok w) (w_chown_ok w)
    (w_glob_err w) (w_glob_pathv w) (w_execv_ok w).

(** The launch of [user_launch] when snapd cannot be reached. *)
Definition snapd_down_launch : world := with_cookie user_launch None true.

(** The launch of a hook of snap "foo". *)
Definition hook_launch : world :=
  mk_world
    (Some (mk_args false false "snap.foo.hook.configure" "/snap/foo/hooks/configure" None))
    (<["SNAP_COOKIE" := "hook-cookie"]> host_env)
    (mk_creds 1000 0 0 1000 0 0) true
    true false
    (fun _ _ => true) (fun _ => true)
    (Some "tok") false
    confined
    (fun _ _ => true) (fun _ => false)
    (fun _ => true)
    (fun c => match c with
              | sc_join_preserved_ns | sc_join_preserved_per_user_ns => ESRCH
              | sc_apply_seccomp_profile_for_security_tag => 1
              | _ => 0
              end)
    (fun _ => false)
    (Some mode_0755) true true
    GLOB_NOMATCH []
    true.

(** ** The fix-ups of /var/lib and of the udev tags *)

(** All nine permission bits (rwxrwxrwx) of a file mode are set. *)
Definition all_permission_bits (st_mode : Z) : Prop :=
  forall i, 0 <= i < 9 -> Z.testbit st_mode i = true.

(** The pattern [sc_maybe_fixup_udev] searches for. *)
Definition nvidia_tags : string := "/run/udev/tags/snap_*/*nvidia*".

(** ** The ids of the process through a launch *)

(** How far the ids of the process are from the inherited ones. *)
Inductive id_phase :=
  | Inherited    (* no seteuid has succeeded *)
  | Lowered      (* seteuid(real_uid) has succeeded *)
  | GroupGiven   (* ... and then setgid(real_gid) *)
  | AllGiven.    (* ... and then setuid(real_uid) *)

(** The ids the launcher may ask for: as effective gid the invoker's real
    gid, or 0 when the inherited saved gid is 0; as effective uid the
    invoker's real uid; with [setgid] and [setuid] the invoker's real ids. *)
Definition id_target (w : world) (e : event) : bool :=
  match e with
  | Setegid g _ => (g =? rgid (w_creds w)) || ((g =? 0) && (sgid (w_creds w) =? 0))
  | Seteuid u _ => u =? ruid (w_creds w)
  | Setgid g _ => g =? rgid (w_creds w)
  | Setuid u _ => u =? ruid (w_creds w)
  | _ => true
  end.

(** The launcher started with effective uid 0 on behalf of user 0 and
    group 0. *)
Definition root_invoker (w : world) : bool :=
  (euid (w_creds w) =? 0) && (ruid (w_creds w) =? 0) && (rgid (w_creds w) =? 0).
Arguments root_invoker w /.

(** The monitor accepts a call that changes ids only to these ids, and the
    calls of the permanent drop only in their order, after the temporary
    drop, and for a root invoker. *)
Definition id_step (w : world) (q : id_phase) (e : event) : option id_phase :=
  match e with
  | Setegid _ _ => if id_target w e then Some q else None
  | Seteuid _ ok =>
      match q with
      | Inherited => if id_target w e then Some (if ok then Lowered else q) else None
      | _ => None
      end
  | Setgid _ ok =>
      match q with
      | Lowered =>
          if id_target w e && root_invoker w
          then Some (if ok then GroupGiven else q) else None
      | _ => None
      end
  | Setuid _ ok =>
      match q with
      | GroupGiven =>
          if id_target w e && root_invoker w
          then Some (if ok then AllGiven else q) else None
      | _ => None
      end
  | _ => Some q
  end.

(** The ids of the process in each phase. *)
Definition id_extra (w : world) (q : id_phase) (s : state) : Prop :=
  ruid (st_creds s) = ruid (w_creds w) /\
  rgid (st_creds s) = rgid (w_creds w) /\
  match q with
  | Inherited =>
      euid (st_creds s) = euid (w_creds w) /\
      suid (st_creds s) = suid (w_creds w) /\
      sgid (st_creds s) = sgid (w_creds w) /\
      (egid (st_creds s) = egid (w_creds w) \/
       egid (st_creds s) = rgid (w_creds w) \/
       egid (st_creds s) = 0 /\ sgid (w_creds w) = 0)
  | Lowered =>
      euid (st_creds s) = ruid (w_creds w) /\
      suid (st_creds s) = suid (w_creds w) /\
      sgid (st_creds s) = sgid (w_creds w) /\
      egid (st_creds s) = rgid (w_creds w)
  | GroupGiven =>
      euid (st_creds s) = ruid (w_creds w) /\
      suid (st_creds s) = suid (w_creds w) /\
      sgid (st_creds s) = rgid (w_creds w) /\
      egid (st_creds s) = rgid (w_creds w) /\
      root_invoker w = true
  | AllGiven =>
      euid (st_creds s) = ruid (w_creds w) /\
      suid (st_creds s) = ruid (w_creds w) /\
      sgid (st_creds s) = rgid (w_creds w) /\
      egid (st_creds s) = rgid (w_creds w) /\
      root_invoker w = true
  end.

(** The phase in which the application is handed the process, by who
    launched it. *)
Definition id_end (w : world) (q : id_phase) (o : result Z) : Prop :=
  match o with
  | Stop (Replaced _) =>
      match q with
      | Inherited => (euid (w_creds w) =? 0) = false
      | Lowered =>
          (euid (w_creds w) =? 0) = true /\
          (ruid (w_creds w) =? 0) = false /\ (rgid (w_creds w) =? 0) = false
      | GroupGiven => False
      | AllGiven =>
          (euid (w_creds w) =? 0) = true /\
          (ruid (w_creds w) =? 0) = true /\ (rgid (w_creds w) =? 0) = true
      end
  | _ => True
  end.

(** One of the user ids, or of the group ids, of a credential set. *)
Definition held_uid (c : creds) (u : uid_t) : Prop := u = ruid c \/ u = euid c \/ u = suid c.
Definition held_gid (c : creds) (g : gid_t) : Prop := g = rgid c \/ g = egid c \/ g = sgid c.

(** ** Invokers with one id of root *)

(** Exactly one of the invoker's real uid and real gid is 0. *)
Definition mixed_ids (c : creds) : Prop :=
  (ruid c = 0 /\ rgid c <> 0) \/ (ruid c <> 0 /\ rgid c = 0).

(** What [main] does once the reads that follow the temporary drop have
    passed. *)
Definition past_drop_check (e : event) : bool :=
  match e with
  | Call setup_user_data => true
  | Execv _ _ | Perror _ | Setgid _ _ | Setuid _ _ => true
  | Setenv name _ => cookie_variable name
  | _ => policy_event e
  end.

(** The monitor of the ids, rejecting these events besides. *)
Definition guarded_step (w : world) (q : id_phase) (e : event) : option id_phase :=
  if past_drop_check e then None else id_step w q e.

(** The run has died. *)
Definition has_died {Q} (q : Q) (o : result Z) : Prop :=
  exists msg, o = Stop (Died msg).

(** User 1000, whose group is 0, runs the set-uid and set-gid root
    launcher. *)
Definition group_root_launch : world :=
  example_world (mk_creds 1000 0 0 0 0 0) false false host_env true confined.

(** ** Launches that set up no execution environment *)

(** The collaborators [enter_non_classic_execution_environment] calls. *)
Definition setup_call (c : collaborator) : bool :=
  match c with
  | sc_instance_name_validate | sc_snap_name_validate
  | sc_cookie_get_from_snapd | sc_init_apparmor_support
  | setup_user_data | sc_maybe_aa_change_onexec
  | sc_apply_seccomp_profile_for_security_tag | sc_apply_global_seccomp_profile => false
  | _ => true
  end.

(** What the process does in [enter_non_classic_execution_environment]
    only: the calls above, the locks, the namespaces, the fix-ups, and the
    reset of PATH and of the temporary directories. *)
Definition setup_event (e : event) : bool :=
  match e with
  | Call c => setup_call c
  | Unlock _ | Unshare _ | Stat _ | Chmod _ _ | Chown _ _ _ | Glob _ | Unlink _
  | Getpid => true
  | Setenv name _ => negb (cookie_variable name)
  | _ => false
  end.

(** The environment is the inherited one, the cookie variables apart. *)
Definition inherited_env (w : world) (env : gmap string string) : Prop :=
  forall name, cookie_variable name = false -> env !! name = w_environ w !! name.

(** The monitor of a launch that sets up no execution environment. *)
Definition bare_step (q : unit) (e : event) : option unit :=
  if setup_event e then None else Some q.

Definition bare_extra (w : world) (q : unit) (s : state) : Prop :=
  inherited_env w (st_env s).

(** The launcher that did not start with effective uid 0: whether it has
    lowered its effective gid. *)
Inductive plain_phase := GroupKept | GroupLowered.

(** The condition of lines 158-162. *)
Definition early_group_drop (c : creds) : bool := (egid c =? 0) && negb (rgid c =? 0).
Arguments early_group_drop c /.

(** The monitor accepts no such event and no change of ids but one
    successful setegid(real_gid). *)
Definition plain_step (w : world) (q : plain_phase) (e : event) : option plain_phase :=
  if setup_event e then None else
  match e with
  | Setegid g ok =>
      match q with
      | GroupKept =>
          if g =? rgid (w_creds w) then Some (if ok then GroupLowered else q) else None
      | GroupLowered => None
      end
  | Seteuid _ _ | Setgid _ _ | Setuid _ _ => None
  | _ => Some q
  end.

Definition plain_extra (w : world) (q : plain_phase) (s : state) : Prop :=
  inherited_env w (st_env s) /\
  ruid (st_creds s) = ruid (w_creds w) /\
  euid (st_creds s) = euid (w_creds w) /\
  suid (st_creds s) = suid (w_creds w) /\
  rgid (st_creds s) = rgid (w_creds w) /\
  sgid (st_creds s) = sgid (w_creds w) /\
  match q with
  | GroupKept => egid (st_creds s) = egid (w_creds w)
  | GroupLowered =>
      egid (st_creds s) = rgid (w_creds w) /\ early_group_drop (w_creds w) = true
  end.

Definition plain_end (w : world) (q : plain_phase) (o : result Z) : Prop :=
  match o with
  | Stop (Replaced _) =>
      match q with
      | GroupKept => early_group_drop (w_creds w) = false
      | GroupLowered => True
      end
  | _ => True
  end.

(** The calls that change a user id or the saved ids. *)
Definition uid_change (e : event) : bool :=
  match e with
  | Seteuid _ _ | Setgid _ _ | Setuid _ _ => true
  | _ => false
  end.

(** ** How a run ends *)

(** The three calls that close a run: the version line, the hand-off, and
    the report of a failed hand-off. *)
Definition closing_event (e : event) : bool :=
  match e with
  | Printf _ | Execv _ _ | Perror _ => true
  | _ => false
  end.

(** The executable named on the command line. *)
Definition requested (w : world) (path : string) : Prop :=
  match w_args w with
  | Some args => sc_args_executable args = path
  | None => False
  end.

Inductive exit_phase :=
  | Fresh                                   (* nothing has been done *)
  | Busy                                    (* no closing call so far *)
  | VersionPrinted                          (* printf was the first call *)
  | ExecTried (path : string) (ok : bool)   (* execv has just been called *)
  | ExecReported (path : string).           (* ... has failed, and perror called *)

(** The monitor accepts the version line only as the first event, one
    execv, one perror directly after a failed execv, and nothing after a
    version line, a successful execv or the perror. *)
Definition exit_step (q : exit_phase) (e : event) : option exit_phase :=
  match q with
  | Fresh =>
      match e with
      | Printf _ => Some VersionPrinted
      | Execv _ _ | Perror _ => None
      | _ => Some Busy
      end
  | Busy =>
      match e with
      | Execv path ok => Some (ExecTried path ok)
      | Printf _ | Perror _ => None
      | _ => Some Busy
      end
  | ExecTried path false =>
      match e with
      | Perror _ => Some (ExecReported path)
      | _ => None
      end
  | _ => None
  end.

Definition exit_extra (w : world) (q : exit_phase) (s : state) : Prop :=
  match q with
  | VersionPrinted => version_query w = true
  | ExecTried path _ | ExecReported path => requested w path
  | _ => True
  end.

(** How the run may end in each phase. *)
Definition exit_end (q : exit_phase) (o : result Z) : Prop :=
  match o with
  | Ret code =>
      (code = 0 /\ q = VersionPrinted) \/ (code = 1 /\ exists path, q = ExecReported path)
  | Stop (Replaced path) => q = ExecTried path true
  | Stop (Died _) => q = Fresh \/ q = Busy
  end.

(** What a phase says about the trace read so far. *)
Definition exit_sound (tr : list event) (q : exit_phase) : Prop :=
  match q with
  | Fresh => tr = []
  | Busy => Forall (fun e => closing_event e = false) tr
  | VersionPrinted => exists s, tr = [Printf s]
  | ExecTried path ok =>
      exists pre, tr = pre ++ [Execv path ok] /\
                  Forall (fun e => closing_event e = false) pre
  | ExecReported path =>
      exists pre msg, tr = pre ++ [Execv path false; Perror msg] /\
                      Forall (fun e => closing_event e = false) pre
  end.

(** ** The variables the launcher writes *)

Definition launcher_variable (name : string) : bool :=
  String.eqb name "PATH" || String.eqb name "TMPDIR" || String.eqb name "TEMPDIR"
  || cookie_variable name.

(** Every other variable has the inherited value, or is unset as it was. *)
Definition env_frame (w : world) (env : gmap string string) : Prop :=
  forall name, launcher_variable name = false -> env !! name = w_environ w !! name.

Definition frame_step (q : unit) (e : event) : option unit :=
  match e with
  | Setenv name _ => if launcher_variable name then Some q else None
  | _ => Some q
  end.

Definition frame_extra (w : world) (q : unit) (s : state) : Prop :=
  env_frame w (st_env s).

(** ** The checks before the launch *)

(** A world that differs in the answer of [verify_security_tag] only. *)
Definition with_tag_check (w : world) (check : string -> string -> bool) : world :=
  mk_world (w_args w) (w_environ w) (w_creds w) (w_at_secure w)
    (HAVE_SECCOMP w) (CAPS_OVER_SETUID w)
    check (sc_is_hook_security_tag w)
    (w_cookie w) (w_cookie_err w) (w_apparmor w)
    (sc_should_use_normal_mode w) (sc_feature_enabled w)
    (w_returns w) (w_retval w) (w_refused w)
    (w_var_lib_mode w) (w_chmod_ok w) (w_chown_ok w)
    (w_glob_err w) (w_glob_pathv w) (w_execv_ok w).

(** The launch of [user_launch] with a security tag that does not belong
    to the snap. *)
Definition mistagged_launch : world := with_tag_check user_launch (fun _ _ => false).

(** User 1000 runs a launcher that is not set-uid, without the override of
    the tests. *)
Definition plain_user_launch : world :=
  example_world (mk_creds 1000 1000 1000 1000 1000 1000) false false host_env false confined.

(** What [main] does once it has checked that it runs as root. *)
Definition past_root_check (e : event) : bool :=
  match e with
  | Call sc_instance_name_validate | Call sc_snap_name_validate => false
  | Call _ | ErrorMsg => true
  | _ => launch_work e
  end.

Definition gate_step (q : unit) (e : event) : option unit :=
  if past_root_check e then None else Some q.

(** Up to the check the environment and the effective uid are the
    inherited ones. *)
Definition gate_extra (w : world) (q : unit) (s : state) : Prop :=
  st_env s = w_environ w /\ euid (st_creds s) = euid (w_creds w).

(** ** The global lock *)

(** The initialisation shared by all snaps. *)
Definition global_op (e : event) : bool :=
  match e with
  | Call sc_ensure_shared_snap_mount | Call sc_initialize_mount_ns => true
  | _ => false
  end.

(** Whether the global lock is held after a trace: taken by
    [sc_lock_global], released by [sc_unlock(global_lock_fd)]. *)
Definition global_lock_update (held : bool) (e : event) : bool :=
  match e with
  | Call sc_lock_global => true
  | Unlock global_lock_fd => false
  | _ => held
  end.

Definition global_lock_held (tr : list event) : bool :=
  fold_left global_lock_update tr false.

(** Where a run is with respect to the global lock.  While the lock is
    held the monitor remembers which of the two operations are done. *)
Inductive global_phase :=
  | GlobalFree
  | GlobalHeld (shared initialized : bool)
  | GlobalDone.

(** The monitor rejects a global operation made without the lock, the
    initialisation of the namespace directory before the snap mount
    directory is shared, a release before both are done, a second
    acquisition, and the per-snap lock taken before the release. *)
Definition global_step (q : global_phase) (e : event) : option global_phase :=
  match q with
  | GlobalFree =>
      match e with
      | Call sc_lock_global => Some (GlobalHeld false false)
      | Unlock _ | Call sc_lock_snap => None
      | _ => if global_op e then None else Some q
      end
  | GlobalHeld shared initialized =>
      match e with
      | Call sc_lock_global | Call sc_lock_snap | Unlock snap_lock_fd => None
      | Call sc_ensure_shared_snap_mount => Some (GlobalHeld true initialized)
      | Call sc_initialize_mount_ns =>
          if shared then Some (GlobalHeld shared true) else None
      | Unlock global_lock_fd =>
          if shared && initialized then Some GlobalDone else None
      | _ => Some q
      end
  | GlobalDone =>
      match e with
      | Call sc_lock_global | Unlock global_lock_fd => None
      | _ => if global_op e then None else Some q
      end
  end.

(** What a phase says about the trace read so far. *)
Definition global_sound (tr : list event) (q : global_phase) : Prop :=
  match q with
  | GlobalFree => global_lock_held tr = false /\ snap_lock_held tr = false
  | GlobalHeld shared initialized =>
      global_lock_held tr = true /\ snap_lock_held tr = false /\
      (shared = true -> In (Call sc_ensure_shared_snap_mount) tr) /\
      (initialized = true -> In (Call sc_initialize_mount_ns) tr)
  | GlobalDone =>
      global_lock_held tr = false /\
      In (Call sc_ensure_shared_snap_mount) tr /\
      In (Call sc_initialize_mount_ns) tr
  end.

(** ** The fix-ups within a launch *)

(** The calls of [sc_maybe_fixup_permissions] and [sc_maybe_fixup_udev]. *)
Definition fixup_event (e : event) : bool :=
  match e with
  | Stat _ | Chmod _ _ | Chown _ _ _ | Glob _ | Unlink _ => true
  | _ => false
  end.

(** What they are applied to: /var/lib is examined, made 0755 only when
    the mode read has all nine permission bits, and given to root; the
    search is for the nvidia tags. *)
Definition fixup_target (w : world) (e : event) : bool :=
  match e with
  | Stat path => String.eqb path "/var/lib"
  | Chmod path mode =>
      String.eqb path "/var/lib" && (mode =? mode_0755) &&
      match w_var_lib_mode w with
      | Some st_mode => Z.land st_mode mode_0777 =? mode_0777
      | None => false
      end
  | Chown path u g => String.eqb path "/var/lib" && (u =? 0) && (g =? 0)
  | Glob pattern => String.eqb pattern nvidia_tags
  | _ => true
  end.

(** What the launcher does with the snap's namespace after the fix-ups. *)
Definition after_fixups (e : event) : bool :=
  match e with
  | Call sc_join_preserved_per_user_ns | Call sc_setup_user_mounts
  | Call sc_preserve_populated_per_user_mount_ns
  | Call sc_cgroup_freezer_join | Unlock snap_lock_fd => true
  | _ => false
  end.

(** Where a run is with respect to the fix-ups. *)
Inductive fixup_phase :=
  | FixOutside   (* the per-snap lock is not taken yet *)
  | FixLocked    (* it is held; the join has not been attempted *)
  | FixOpen      (* it is held and the join has been attempted *)
  | FixClosed.   (* one of the later operations has been made *)

(** The monitor accepts a fix-up only with the lock held, after the join
    attempt, before the later operations, and applied to its target. *)
Definition fixup_step (w : world) (q : fixup_phase) (e : event) : option fixup_phase :=
  if fixup_event e then
    match q with
    | FixOpen => if fixup_target w e then Some q else None
    | _ => None
    end
  else if after_fixups e then Some FixClosed
  else
    match q, e with
    | FixOutside, Call sc_lock_snap => Some FixLocked
    | FixOutside, Call sc_join_preserved_ns => None
    | FixLocked, Call sc_join_preserved_ns => Some FixOpen
    | FixLocked, Call sc_lock_snap | FixOpen, Call sc_lock_snap => None
    | _, _ => Some q
    end.

Definition fixup_sound (tr : list event) (q : fixup_phase) : Prop :=
  match q with
  | FixOutside =>
      snap_lock_held tr = false /\ Forall (fun e => after_fixups e = false) tr
  | FixLocked =>
      snap_lock_held tr = true /\ Forall (fun e => after_fixups e = false) tr
  | FixOpen =>
      snap_lock_held tr = true /\ In (Call sc_join_preserved_ns) tr /\
      Forall (fun e => after_fixups e = false) tr
  | FixClosed => True
  end.

(** ** Calls made on the result of another *)

(** The seccomp filters: the global profile is due when the profile of the
    security tag has been applied. *)
Inductive filter_phase := FilterIdle | FilterDue.

Definition tag_profile_applied (w : world) : bool :=
  w_returns w sc_apply_seccomp_profile_for_security_tag &&
  negb (w_retval w sc_apply_seccomp_profile_for_security_tag =? 0).
Arguments tag_profile_applied w /.

(** The monitor accepts the profile of the tag only in a build with
    seccomp, the global profile only when due, and nothing else when it is
    due. *)
Definition filter_step (w : world) (q : filter_phase) (e : event) : option filter_phase :=
  match q with
  | FilterDue =>
      match e with
      | Call sc_apply_global_seccomp_profile => Some FilterIdle
      | _ => None
      end
  | FilterIdle =>
      match e with
      | Call sc_apply_seccomp_profile_for_security_tag =>
          if HAVE_SECCOMP w
          then Some (if tag_profile_applied w then FilterDue else FilterIdle)
          else None
      | Call sc_apply_global_seccomp_profile => None
      | _ => Some q
      end
  end.

(** No run ends with the global profile due. *)
Definition filter_end (q : filter_phase) (o : result Z) : Prop := q = FilterIdle.

Definition filter_sound (w : world) (tr : list event) (q : filter_phase) : Prop :=
  match q with
  | FilterIdle => True
  | FilterDue =>
      tag_profile_applied w = true /\
      exists pre, tr = pre ++ [Call sc_apply_seccomp_profile_for_security_tag]
  end.

(** The device control group: its setup is due when udev has been
    initialised, and the cleanup of udev once that is settled. *)
Inductive udev_phase := UdevIdle | UdevDue | UdevOpen.

Definition udev_step (w : world) (q : udev_phase) (e : event) : option udev_phase :=
  match q with
  | UdevIdle =>
      match e with
      | Call snappy_udev_init =>
          Some (if w_returns w snappy_udev_init
                then if w_retval w snappy_udev_init =? 0 then UdevDue else UdevOpen
                else UdevIdle)
      | Call setup_devices_cgroup | Call snappy_udev_cleanup => None
      | _ => Some q
      end
  | UdevDue =>
      match e with
      | Call setup_devices_cgroup =>
          Some (if w_returns w setup_devices_cgroup then UdevOpen else UdevIdle)
      | _ => None
      end
  | UdevOpen =>
      match e with
      | Call snappy_udev_cleanup => Some UdevIdle
      | _ => None
      end
  end.

Definition udev_end (q : udev_phase) (o : result Z) : Prop := q = UdevIdle.

Definition udev_sound (w : world) (tr : list event) (q : udev_phase) : Prop :=
  match q with
  | UdevDue =>
      w_retval w snappy_udev_init = 0 /\ exists pre, tr = pre ++ [Call snappy_udev_init]
  | _ => True
  end.

(** ** The effective gid at the freezer group *)

(** The effective gid after a trace: the one given by the last successful
    [setegid] or [setgid], or else the initial one. *)
Definition egid_update (g : gid_t) (e : event) : gid_t :=
  match e with
  | Setegid g' true | Setgid g' true => g'
  | _ => g
  end.

Definition egid_after (g0 : gid_t) (tr : list event) : gid_t :=
  fold_left egid_update tr g0.

(** With an inherited saved gid of 0, the freezer group is joined with
    effective gid 0. *)
Definition freezer_as_group_root (w : world) (tr : list event) : Prop :=
  forall pre post, tr = pre ++ Call sc_cgroup_freezer_join :: post ->
    sgid (w_creds w) = 0 -> egid_after (egid (w_creds w)) pre = 0.

Definition any_step (q : unit) (e : event) : option unit := Some q.

Definition freezer_extra (w : world) (q : unit) (s : state) : Prop :=
  egid (st_creds s) = egid_after (egid (w_creds w)) (st_trace s) /\
  freezer_as_group_root w (st_trace s).

(** ** What precedes the hand-off *)

(** How much of the preparation of the hand-off is done. *)
Inductive ready_phase :=
  | NotReady      (* nothing of it *)
  | DataReady     (* setup_user_data has been called *)
  | ProfileReady  (* ... and sc_maybe_aa_change_onexec *)
  | FilterReady.  (* ... and sc_apply_seccomp_profile_for_security_tag *)

(** The monitor accepts the three calls in this order only, and execv only
    after the AppArmor transition and, in a build with seccomp, the seccomp
    profile of the tag. *)
Definition ready_step (w : world) (q : ready_phase) (e : event) : option ready_phase :=
  match e with
  | Call setup_user_data =>
      match q with NotReady => Some DataReady | _ => None end
  | Call sc_maybe_aa_change_onexec =>
      match q with DataReady => Some ProfileReady | _ => None end
  | Call sc_apply_seccomp_profile_for_security_tag =>
      match q with ProfileReady => Some FilterReady | _ => None end
  | Execv _ _ =>
      match q with
      | FilterReady => Some q
      | ProfileReady => if HAVE_SECCOMP w then None else Some q
      | _ => None
      end
  | _ => Some q
  end.

Definition ready_sound (tr : list event) (q : ready_phase) : Prop :=
  match q with
  | NotReady => True
  | DataReady => In (Call setup_user_data) tr
  | ProfileReady =>
      In (Call setup_user_data) tr /\ In (Call sc_maybe_aa_change_onexec) tr
  | FilterReady =>
      In (Call setup_user_data) tr /\ In (Call sc_maybe_aa_change_onexec) tr /\
      In (Call sc_apply_seccomp_profile_for_security_tag) tr
  end.

(** ** The order in which the execution environment is entered *)

Inductive order_phase :=
  | NotEntered      (* nothing of the execution environment is set up *)
  | Reassociated    (* the process is in the mount namespace of pid 1 *)
  | Classified      (* ... and the distribution has been classified *)
  | HelperForked.   (* ... and the helper process made *)

(** The monitor accepts the set-up only after the re-association with the
    mount namespace of pid 1, and an operation on the snap's namespaces only
    after the classification of the distribution and the fork of the
    helper, made in this order. *)
Definition order_step (q : order_phase) (e : event) : option order_phase :=
  match q with
  | NotEntered =>
      match e with
      | Call sc_reassociate_with_pid1_mount_ns => Some Reassociated
      | _ => if setup_event e then None else Some q
      end
  | Reassociated =>
      match e with
      | Call sc_classify_distro => Some Classified
      | Call sc_fork_helper => None
      | _ => if namespace_op e then None else Some q
      end
  | Classified =>
      match e with
      | Call sc_fork_helper => Some HelperForked
      | _ => if namespace_op e then None else Some q
      end
  | HelperForked => Some q
  end.

Definition order_sound (tr : list event) (q : order_phase) : Prop :=
  match q with
  | NotEntered => Forall (fun e => setup_event e = false) tr
  | Reassociated => In (Call sc_reassociate_with_pid1_mount_ns) tr
  | Classified =>
      In (Call sc_reassociate_with_pid1_mount_ns) tr /\
      In (Call sc_classify_distro) tr
  | HelperForked =>
      In (Call sc_reassociate_with_pid1_mount_ns) tr /\
      In (Call sc_classify_distro) tr /\ In (Call sc_fork_helper) tr
  end.

(** ** The drops and their verification, in order *)

(** Where a run is with respect to the two drops of [main]. *)
Inductive seq_phase :=
  | SeqInherited   (* seteuid has not been called *)
  | SeqDropped     (* seteuid(real_uid) has just succeeded *)
  | SeqEuidRead    (* ... and geteuid has been read (line 215) *)
  | SeqEgidRead    (* ... and getegid has been read (line 216) *)
  | SeqChecked     (* the reads are passed *)
  | SeqGroup       (* setgid(real_gid) has just succeeded *)
  | SeqAll         (* ... and then setuid(real_uid) *)
  | SeqHandOff     (* execv has been called *)
  | SeqFailed      (* setegid or seteuid has been refused *)
  | SeqRefused.    (* setgid or setuid has been refused *)

(** The monitor accepts: seteuid once, with the invoker's real uid; after
    it geteuid exactly when the real gid is not 0, and nothing more if the
    real uid is 0; then getegid exactly when the real uid is not 0, and
    nothing more if the real gid is 0; then the set-up of the user data.
    It accepts setgid only after that, with the real gid and for a root
    invoker; after it only setuid, with the real uid; after that only
    execv; and nothing after a call that was refused. *)
Definition seq_step (w : world) (q : seq_phase) (e : event) : option seq_phase :=
  match q with
  | SeqInherited =>
      match e with
      | Setegid _ ok => Some (if ok then SeqInherited else SeqFailed)
      | Seteuid u ok =>
          if u =? ruid (w_creds w)
          then Some (if ok then SeqDropped else SeqFailed) else None
      | Setgid _ _ | Setuid _ _ => None
      | _ => Some SeqInherited
      end
  | SeqDropped =>
      match e with
      | Geteuid => if rgid (w_creds w) =? 0 then None else Some SeqEuidRead
      | Getegid =>
          if (rgid (w_creds w) =? 0) && negb (ruid (w_creds w) =? 0)
          then Some SeqEgidRead else None
      | Call setup_user_data =>
          if (rgid (w_creds w) =? 0) && (ruid (w_creds w) =? 0)
          then Some SeqChecked else None
      | _ => None
      end
  | SeqEuidRead =>
      match e with
      | Getegid => if ruid (w_creds w) =? 0 then None else Some SeqEgidRead
      | _ => None
      end
  | SeqEgidRead =>
      match e with
      | Call setup_user_data => if rgid (w_creds w) =? 0 then None else Some SeqChecked
      | _ => None
      end
  | SeqChecked =>
      match e with
      | Setgid g ok =>
          if (g =? rgid (w_creds w)) && root_invoker w
          then Some (if ok then SeqGroup else SeqRefused) else None
      | Setegid _ _ | Seteuid _ _ | Setuid _ _ => None
      | _ => Some SeqChecked
      end
  | SeqGroup =>
      match e with
      | Setuid u ok =>
          if u =? ruid (w_creds w)
          then Some (if ok then SeqAll else SeqRefused) else None
      | _ => None
      end
  | SeqAll =>
      match e with
      | Execv _ _ => Some SeqHandOff
      | _ => None
      end
  | SeqHandOff =>
      match e with
      | Perror _ => Some SeqHandOff
      | _ => None
      end
  | SeqFailed | SeqRefused => None
  end.

(** The temporary drop has been made in a trace: setegid(real_gid)
    directly followed by seteuid(real_uid), both successful. *)
Definition drop_made (w : world) (tr : list event) : Prop :=
  exists pre post,
    tr = pre ++ Setegid (rgid (w_creds w)) true
             :: Seteuid (ruid (w_creds w)) true :: post.

(** The ids of the process in each phase, and the temporary drop in the
    trace once it is made. *)
Definition seq_extra (w : world) (q : seq_phase) (s : state) : Prop :=
  match q with
  | SeqInherited =>
      ruid (st_creds s) = ruid (w_creds w) /\
      rgid (st_creds s) = rgid (w_creds w) /\
      euid (st_creds s) = euid (w_creds w)
  | SeqDropped | SeqEuidRead | SeqEgidRead | SeqChecked =>
      ruid (st_creds s) = ruid (w_creds w) /\
      rgid (st_creds s) = rgid (w_creds w) /\
      euid (st_creds s) = ruid (w_creds w) /\
      egid (st_creds s) = rgid (w_creds w) /\
      drop_made w (st_trace s)
  | SeqGroup =>
      ruid (st_creds s) = ruid (w_creds w) /\
      rgid (st_creds s) = rgid (w_creds w) /\
      euid (st_creds s) = ruid (w_creds w) /\
      egid (st_creds s) = rgid (w_creds w) /\
      sgid (st_creds s) = rgid (w_creds w) /\
      drop_made w (st_trace s)
  | SeqAll | SeqHandOff =>
      ruid (st_creds s) = ruid (w_creds w) /\
      rgid (st_creds s) = rgid (w_creds w) /\
      euid (st_creds s) = ruid (w_creds w) /\
      suid (st_creds s) = ruid (w_creds w) /\
      egid (st_creds s) = rgid (w_creds w) /\
      sgid (st_creds s) = rgid (w_creds w) /\
      drop_made w (st_trace s)
  | SeqFailed => True
  | SeqRefused => drop_made w (st_trace s)
  end.

(** How a run may end in each phase: not directly after a drop; after a
    read of line 215 or 216 only by dying, the id the read compares being
    0; after a refused call only by dying; and by a hand-off before the
    temporary drop only if the launcher did not start with effective uid
    0, after it without the permanent drop only if the invoker is not
    root. *)
Definition seq_end (w : world) (q : seq_phase) (o : result Z) : Prop :=
  match q with
  | SeqInherited =>
      match o with
      | Stop (Replaced _) => (euid (w_creds w) =? 0) = false
      | _ => True
      end
  | SeqDropped | SeqGroup | SeqAll => False
  | SeqEuidRead =>
      (exists msg, o = Stop (Died msg)) /\ (ruid (w_creds w) =? 0) = true
  | SeqEgidRead =>
      (exists msg, o = Stop (Died msg)) /\ (rgid (w_creds w) =? 0) = true
  | SeqChecked =>
      match o with
      | Stop (Replaced _) => root_invoker w = false
      | _ => True
      end
  | SeqHandOff => True
  | SeqFailed | SeqRefused => exists msg, o = Stop (Died msg)
  end.

Definition seteuid_call (e : event) : bool :=
  match e with
  | Seteuid _ _ => true
  | _ => false
  end.

(** What a phase says about the trace read so far. *)
Definition seq_sound (w : world) (tr : list event) (q : seq_phase) : Prop :=
  match q with
  | SeqInherited =>
      Forall (fun e => permanent_id_call e = false) tr /\
      Forall (fun e => seteuid_call e = false) tr
  | SeqDropped | SeqEuidRead | SeqEgidRead | SeqChecked =>
      Forall (fun e => permanent_id_call e = false) tr
  | SeqGroup =>
      root_invoker w = true /\
      exists pre, tr = pre ++ [Setgid (rgid (w_creds w)) true] /\
                  Forall (fun e => permanent_id_call e = false) pre
  | SeqAll | SeqHandOff =>
      In (Setgid (rgid (w_creds w)) true) tr /\
      In (Setuid (ruid (w_creds w)) true) tr
  | SeqFailed | SeqRefused => True
  end.

(** The temporary drop has been made. *)
Definition seq_late (q : seq_phase) : bool :=
  match q with
  | SeqInherited | SeqFailed => false
  | _ => true
  end.

(** The reads of lines 215-216: geteuid when the real gid is not 0, then
    getegid when the real uid is not 0. *)
Definition drop_reads (c : creds) : list event :=
  (if rgid c =? 0 then [] else [Geteuid]) ++
  (if ruid c =? 0 then [] else [Getegid]).

(** ** Rules for reasoning about runs *)

Section Rules.

Context {A B : Type}.

Lemma holds_ret (a : A) s (Q : result A -> state -> Prop) :
  Q (Ret a) s -> holds (ret a) s Q.
Proof. exact (fun H => H). Qed.

Lemma holds_die msg s (Q : result A -> state -> Prop) :
  Q (Stop (Died msg)) s -> holds (die msg) s Q.
Proof. exact (fun H => H). Qed.

Lemma holds_bind (m : M A) (k : A -> M B) s (Q : result B -> state -> Prop) :
  holds m s (fun o s' => match o with
                         | Ret a => holds (k a) s' Q
                         | Stop t => Q (Stop t) s'
                         end) ->
  holds (bind m k) s Q.
Proof.
  unfold holds, bind. destruct (m s) as [[a|t] s']; simpl; auto.
Qed.

(** Sequencing through an intermediate assertion: what follows is proved
    once, for every state the first part can leave. *)
Lemma holds_cut (I : A -> state -> Prop) (m : M A) (k : A -> M B) s
    (Q : result B -> state -> Prop) :
  holds m s (fun o s' => match o with
                         | Ret a => I a s'
                         | Stop t => Q (Stop t) s'
                         end) ->
  (forall a s', I a s' -> holds (k a) s' Q) ->
  holds (bind m k) s Q.
Proof.
  intros Hm Hk. apply holds_bind. unfold holds in *.
  destruct (m s) as [[a|t] s']; simpl in *; auto.
Qed.

Lemma holds_weaken (m : M A) s (Q Q' : result A -> state -> Prop) :
  holds m s Q -> (forall o s', Q o s' -> Q' o s') -> holds m s Q'.
Proof. unfold holds. auto. Qed.

End Rules.

Lemma holds_emit e s (Q : result unit -> state -> Prop) :
  Q (Ret tt) (after s e) -> holds (emit e) s Q.
Proof. exact (fun H => H). Qed.

Lemma holds_get_creds s (Q : result creds -> state -> Prop) :
  Q (Ret (st_creds s)) s -> holds get_creds s Q.
Proof. exact (fun H => H). Qed.

Lemma holds_put_creds c s (Q : result unit -> state -> Prop) :
  Q (Ret tt) (mk_state c (st_env s) (st_trace s)) -> holds (put_creds c) s Q.
Proof. exact (fun H => H). Qed.

Lemma holds_get_env s (Q : result (gmap string string) -> state -> Prop) :
  Q (Ret (st_env s)) s -> holds get_env s Q.
Proof. exact (fun H => H). Qed.

Lemma holds_put_env e s (Q : result unit -> state -> Prop) :
  Q (Ret tt) (mk_state (st_creds s) e (st_trace s)) -> holds (put_env e) s Q.
Proof. exact (fun H => H). Qed.

Lemma holds_replaced path s (Q : result Z -> state -> Prop) :
  Q (Stop (Replaced path)) s -> holds (fun s => (Stop (Replaced path), s)) s Q.
Proof. exact (fun H => H). Qed.

Global Opaque bind ret die emit get_creds put_creds get_env put_env.

(** *** The credential calls *)

Lemma kernel_setegid_Some c g c' : kernel_setegid c g = Some c' -> c' = with_egid c g.
Proof. unfold kernel_setegid. destruct (_ || _); congruence. Qed.

Lemma kernel_seteuid_Some c u c' : kernel_seteuid c u = Some c' -> c' = with_euid c u.
Proof. unfold kernel_seteuid. destruct (_ || _); congruence. Qed.

Lemma kernel_setgid_Some c g c' :
  kernel_setgid c g = Some c' ->
  c' = if privileged c then with_all_gids c g else with_egid c g.
Proof.
  unfold kernel_setgid. destruct (privileged c); [congruence|].
  destruct (_ || _); congruence.
Qed.

Lemma kernel_setuid_Some c u c' :
  kernel_setuid c u = Some c' ->
  c' = if privileged c then with_all_uids c u else with_euid c u.
Proof.
  unfold kernel_setuid. destruct (privileged c); [congruence|].
  destruct (_ || _); congruence.
Qed.

Section CredentialCalls.

Variable w : world.

Lemma holds_change_ids rule at_ ev s (Q : result Z -> state -> Prop) :
  (forall c', w_refused w at_ = false -> rule (st_creds s) = Some c' ->
     Q (Ret 0) (mk_state c' (st_env (after s (ev true))) (st_trace (after s (ev true))))) ->
  (w_refused w at_ = true \/ rule (st_creds s) = None ->
     Q (Ret (-1)) (after s (ev false))) ->
  holds (change_ids w rule at_ ev) s Q.
Proof.
  intros Hok Hfail. unfold change_ids.
  apply holds_bind, holds_get_creds. cbv beta iota.
  destruct (w_refused w at_) eqn:Href.
  - apply holds_bind, holds_emit, holds_ret. apply Hfail. auto.
  - destruct (rule (st_creds s)) as [c'|] eqn:Hrule.
    + apply holds_bind, holds_emit. cbv beta iota.
      apply holds_bind, holds_put_creds, holds_ret. now apply Hok.
    + apply holds_bind, holds_emit, holds_ret. apply Hfail. auto.
Qed.

Lemma holds_setegid at_ g s (Q : result Z -> state -> Prop) :
  (w_refused w at_ = false ->
     Q (Ret 0) (mk_state (with_egid (st_creds s) g)
                  (st_env (after s (Setegid g true)))
                  (st_trace (after s (Setegid g true))))) ->
  (w_refused w at_ = true \/ kernel_setegid (st_creds s) g = None ->
     Q (Ret (-1)) (after s (Setegid g false))) ->
  holds (setegid w at_ g) s Q.
Proof.
  intros Hok Hfail. apply holds_change_ids; [|exact Hfail].
  intros c' Href Hc. rewrite (kernel_setegid_Some _ _ _ Hc). auto.
Qed.

Lemma holds_seteuid at_ u s (Q : result Z -> state -> Prop) :
  (w_refused w at_ = false ->
     Q (Ret 0) (mk_state (with_euid (st_creds s) u)
                  (st_env (after s (Seteuid u true)))
                  (st_trace (after s (Seteuid u true))))) ->
  (w_refused w at_ = true \/ kernel_seteuid (st_creds s) u = None ->
     Q (Ret (-1)) (after s (Seteuid u false))) ->
  holds (seteuid w at_ u) s Q.
Proof.
  intros Hok Hfail. apply holds_change_ids; [|exact Hfail].
  intros c' Href Hc. rewrite (kernel_seteuid_Some _ _ _ Hc). auto.
Qed.

Lemma holds_setgid at_ g s (Q : result Z -> state -> Prop) :
  (w_refused w at_ = false ->
     Q (Ret 0) (mk_state (if privileged (st_creds s)
                          then with_all_gids (st_creds s) g
                          else with_egid (st_creds s) g)
                  (st_env (after s (Setgid g true)))
                  (st_trace (after s (Setgid g true))))) ->
  (w_refused w at_ = true \/ kernel_setgid (st_creds s) g = None ->
     Q (Ret (-1)) (after s (Setgid g false))) ->
  holds (setgid w at_ g) s Q.
Proof.
  intros Hok Hfail. apply holds_change_ids; [|exact Hfail].
  intros c' Href Hc. rewrite (kernel_setgid_Some _ _ _ Hc). auto.
Qed.

Lemma holds_setuid at_ u s (Q : result Z -> state -> Prop) :
  (w_refused w at_ = false ->
     Q (Ret 0) (mk_state (if privileged (st_creds s)
                          then with_all_uids (st_creds s) u
                          else with_euid (st_creds s) u)
                  (st_env (after s (Setuid u true)))
                  (st_trace (after s (Setuid u true))))) ->
  (w_refused w at_ = true \/ kernel_setuid (st_creds s) u = None ->
     Q (Ret (-1)) (after s (Setuid u false))) ->
  holds (setuid w at_ u) s Q.
Proof.
  intros Hok Hfail. apply holds_change_ids; [|exact Hfail].
  intros c' Href Hc. rewrite (kernel_setuid_Some _ _ _ Hc). auto.
Qed.

End CredentialCalls.

(** One step of symbolic execution: the rule of the statement at the head,
    a case split on the condition it branches on, or the definition of the
    operation it calls. *)
Ltac wp_head m :=
  lazymatch m with
  | ?f _ _ _ _ _ _ => wp_head f
  | ?f _ _ _ _ _ => wp_head f
  | ?f _ _ _ _ => wp_head f
  | ?f _ _ _ => wp_head f
  | ?f _ _ => wp_head f
  | ?f _ => wp_head f
  | ?f => f
  end.

Ltac wp_step :=
  lazymatch goal with
  | |- holds (bind _ _) _ _ => apply holds_bind
  | |- holds (ret _) _ _ => apply holds_ret
  | |- holds (die _) _ _ => apply holds_die
  | |- holds (emit _) _ _ => apply holds_emit
  | |- holds get_creds _ _ => apply holds_get_creds
  | |- holds (put_creds _) _ _ => apply holds_put_creds
  | |- holds get_env _ _ => apply holds_get_env
  | |- holds (put_env _) _ _ => apply holds_put_env
  | |- holds (fun s => (Stop (Replaced _), s)) _ _ => apply holds_replaced
  | |- holds (setegid _ _ _) _ _ => apply holds_setegid; intros ?
  | |- holds (seteuid _ _ _) _ _ => apply holds_seteuid; intros ?
  | |- holds (setgid _ _ _) _ _ => apply holds_setgid; intros ?
  | |- holds (setuid _ _ _) _ _ => apply holds_setuid; intros ?
  | |- holds (if ?b then _ else _) _ _ => destruct b eqn:?
  | |- holds (match ?x with _ => _ end) _ _ => destruct x eqn:?
  | |- holds ?m _ _ => let f := wp_head m in unfold f at 1
  end; cbv beta iota zeta.

Ltac wp := repeat wp_step.

(** ** Monitors *)

Section MonitorFacts.

Context {Q : Type}.
Variable step : Q -> event -> option Q.
Variable q0 : Q.

Lemma monitor_snoc tr e : monitor step q0 (tr ++ [e]) = feed step (monitor step q0 tr) e.
Proof. unfold monitor. now rewrite fold_left_app. Qed.

Lemma feed_None tr : fold_left (feed step) tr None = None.
Proof. induction tr; simpl; auto. Qed.

Lemma monitor_app pre suf :
  monitor step q0 (pre ++ suf) = fold_left (feed step) suf (monitor step q0 pre).
Proof. unfold monitor. now rewrite fold_left_app. Qed.

(** An accepted trace is accepted event by event. *)
Lemma monitor_split pre e post q :
  monitor step q0 (pre ++ e :: post) = Some q ->
  exists q1 q2, monitor step q0 pre = Some q1 /\ step q1 e = Some q2 /\
                fold_left (feed step) post (Some q2) = Some q.
Proof.
  rewrite monitor_app. simpl.
  destruct (monitor step q0 pre) as [q1|]; simpl.
  - destruct (step q1 e) as [q2|] eqn:E; [eauto | now rewrite feed_None].
  - now rewrite feed_None.
Qed.

Lemma tracked_after q q' s e :
  tracked step q0 q s -> step q e = Some q' -> tracked step q0 q' (after s e).
Proof.
  unfold tracked, after. simpl. intros H E. now rewrite monitor_snoc, H.
Qed.

Lemma tracked_creds q s c :
  tracked step q0 q s -> tracked step q0 q (mk_state c (st_env s) (st_trace s)).
Proof. exact (fun H => H). Qed.

Lemma tracked_env q s e :
  tracked step q0 q s -> tracked step q0 q (mk_state (st_creds s) e (st_trace s)).
Proof. exact (fun H => H). Qed.

Lemma kept_ended {A} (extra : Q -> state -> Prop) (good : Q -> result A -> Prop)
    q o s :
  kept step q0 extra q s -> good q o -> ended step q0 extra good o s.
Proof. unfold ended. eauto. Qed.

(** A monitor that ignores [unlink] is where it was after the loop of
    [sc_maybe_fixup_udev]. *)
Lemma unlink_each_kept (extra : Q -> state -> Prop) (E : stop -> state -> Prop)
    q paths s :
  (forall p, step q (Unlink p) = Some q) ->
  (forall p s, extra q s -> extra q (after s (Unlink p))) ->
  kept step q0 extra q s ->
  holds (unlink_each paths) s
    (fun o s' => match o with
                 | Ret _ => kept step q0 extra q s'
                 | Stop t => E t s'
                 end).
Proof.
  intros Hq Hx. revert s. induction paths as [|p paths IH]; intros s [H H']; simpl.
  - apply holds_ret. split; assumption.
  - apply holds_bind. unfold unlink. apply holds_emit. cbv beta iota.
    apply IH. split; [eapply tracked_after; eauto | auto].
Qed.

End MonitorFacts.

(** Rewrites with the equations the case splits have left in the context. *)
Ltac use_cases :=
  repeat match goal with
         | H : ?x = _ |- context [?x] => rewrite H
         end.

(** Puts the equation of a case split in the form [condition = true] or
    [condition = false] over the initial credentials, and closes the case
    when the context contradicts it. *)
Ltac tidy E :=
  try match goal with
      | H : true = false |- _ => discriminate H
      | H : false = true |- _ => discriminate H
      end;
  try (exfalso; clear - E; cbn in E; discriminate E);
  cbn [after initial_state st_creds st_env st_trace ruid euid suid rgid egid sgid
       with_egid with_euid] in E;
  rewrite ?negb_true_iff, ?negb_false_iff in E;
  repeat match goal with
         | H : ?x = _ |- _ =>
             lazymatch x with true => fail | false => fail | _ => idtac end;
             lazymatch H with E => fail | _ => idtac end;
             lazymatch type of E with context [x] => rewrite H in E end
         end;
  cbn [negb andb orb] in E;
  try discriminate E.

(** Closes a goal that says where the monitor is after the events executed
    so far. *)
Ltac track :=
  lazymatch goal with
  | |- tracked _ _ _ (after _ _) =>
      eapply tracked_after;
      [ track
      | cbn; use_cases; rewrite ?Z.eqb_refl, ?String.eqb_refl; cbn; reflexivity ]
  | |- tracked _ _ _ (mk_state _ (st_env ?s) (st_trace ?s)) =>
      apply tracked_creds; track
  | |- tracked _ _ _ (mk_state (st_creds ?s) _ (st_trace ?s)) =>
      apply tracked_env; track
  | |- tracked _ _ _ _ => eassumption
  end.

(** The statements that are executed as a unit: conditionals and the
    blocks of the program. *)
Ltac compound m :=
  lazymatch m with
  | (if _ then _ else _) => idtac
  | (match _ with _ => _ end) => idtac
  | sc_maybe_fixup_permissions _ => idtac
  | sc_maybe_fixup_udev _ => idtac
  | unlink_each _ => idtac
  | set_tmpdirs _ => idtac
  | temporary_drop _ _ _ => idtac
  | check_temporary_drop _ _ => idtac
  | permanent_drop _ _ _ => idtac
  | check_permanent_drop _ _ => idtac
  end.

(** The statements whose branches are followed separately to the end: the
    launch modes (no environment, classic, non-classic) and the launches by
    root and by another user. *)
Ltac forked m :=
  lazymatch m with
  | (if _ then enter_classic_execution_environment else _) => idtac
  | (if _ then bind (if _ then enter_classic_execution_environment else _) _
     else _) => idtac
  | (if _ then bind (debug "joining preserved per-user mount namespace") _
     else _) => idtac
  end.

(** Symbolic execution that joins the branches of every compound statement
    in one monitor state.  [extra] is what is known of the state besides the
    monitor and [xt] proves it; [fork] says which other statements are
    followed branch by branch; [fin] proves that the monitor's state fits
    the way a run ends. *)
Ltac walk_step step q0 extra fork fin xt :=
  lazymatch goal with
  | |- holds (bind ?m _) _ _ =>
      tryif first [ forked m | fork m ] then apply holds_bind
      else tryif compound m
      then eapply (holds_cut (fun _ => kept step q0 extra _))
      else apply holds_bind
  | |- holds (if ?b then _ else _) _ _ =>
      let E := fresh "E" in
      destruct b eqn:E; [ tidy E | tidy E ]
  | |- holds (match ?x with _ => _ end) _ _ =>
      let E := fresh "E" in
      destruct x eqn:E; [ tidy E | tidy E ]
  | |- holds (unlink_each _) _ _ =>
      eapply (unlink_each_kept step q0 extra (fun t s' => _ (Stop t) s'));
      [ intros ?; reflexivity | intros ? ? ?; xt | split; [ track | xt ] ]
  | |- holds (set_tmpdirs _) _ _ => unfold set_tmpdirs
  | |- holds _ _ _ => wp_step
  | |- forall _ _, kept _ _ _ _ _ -> _ =>
      let Hx := fresh "Hx" in
      intros ? ? [? Hx];
      let h := wp_head extra in
      unfold h in Hx; cbv beta iota in Hx;
      lazymatch type of Hx with
      | _ /\ _ => decompose [and] Hx; clear Hx
      | _ => idtac
      end
  | |- kept _ _ _ _ _ => split; [ track | xt ]
  | |- ended _ _ _ _ _ _ => eapply kept_ended; [ split; [ track | xt ] | fin ]
  end.

Ltac walk step q0 extra fork fin xt := repeat walk_step step q0 extra fork fin xt.

(** The common case: nothing is known besides the monitor. *)
Ltac no_fork m := fail.
Ltac plain_walk step q0 fin :=
  let Q := type of q0 in
  walk step q0 (@nothing Q) no_fork fin ltac:(exact I).

(** *** Shared helpers *)

(** A case for each event (and each collaborator called). *)
Ltac each_event e :=
  let c := fresh "c" in
  destruct e as [| | | | | | | | | | | | | | | |c| [|] | | | | | | | |];
  try destruct c.

(** From a rule of [holds] to the equation of a run. *)
Lemma holds_run {A} (m : M A) s (Q : result A -> state -> Prop) o s' :
  holds m s Q -> m s = (o, s') -> Q o s'.
Proof. unfold holds. intros H E. now rewrite E in H. Qed.

(** Where a list with one more element at the end can be cut. *)
Lemma snoc_split {A} (tr a b : list A) (e x : A) :
  tr ++ [e] = a ++ x :: b ->
  (b = [] /\ tr = a /\ e = x) \/ (exists b', b = b' ++ [e] /\ tr = a ++ x :: b').
Proof.
  destruct b as [|y b] using rev_ind.
  - intros H. apply app_inj_tail in H. left. tauto.
  - clear IHb. intros H. right. exists b.
    change (a ++ x :: b ++ [y]) with (a ++ (x :: b) ++ [y]) in H.
    rewrite app_assoc in H. apply app_inj_tail in H. destruct H as [-> ->]. auto.
Qed.


(** ** The verification after the permanent drop *)

(** The reads after the permanent drop change nothing and only read. *)
Lemma check_permanent_drop_reads ru rg s :
  holds (check_permanent_drop ru rg) s
    (fun o s' => st_creds s' = st_creds s /\
                 exists reads, st_trace s' = st_trace s ++ reads /\
                               Forall (fun e => id_read e = true) reads).
Proof.
  unfold check_permanent_drop.
  wp; (split; [reflexivity|]); cbn [st_trace after]; rewrite <- ?app_assoc;
    eexists; (split; [try reflexivity; symmetry; apply app_nil_r|]);
    repeat constructor.
Qed.

Lemma check_permanent_drop_dies ru rg s :
  ru <> 0 -> rg <> 0 ->
  holds (check_permanent_drop ru rg) s
    (fun o _ => (exists msg, o = Stop (Died msg)) <-> still_privileged (st_creds s)).
Proof.
  intros Hru Hrg. apply Z.eqb_neq in Hru, Hrg.
  unfold check_permanent_drop, still_privileged. rewrite Hru, Hrg. cbn [negb].
  wp; cbn in *;
    repeat match goal with
           | H : (_ =? 0) = true |- _ => apply Z.eqb_eq in H
           | H : (_ =? 0) = false |- _ => apply Z.eqb_neq in H
           end;
    try (split; [eauto | eauto]; fail).
  split; [intros [msg Hm]; discriminate Hm | tauto].
Qed.



(** The launch by user 1000: the temporary drop leaves effective uid 1000,
    so the permanent-drop step finds an effective uid other than 0 and
    calls neither setgid nor setuid; the application is executed with the
    saved uid and gid still 0. *)
Example user_launch_skips_permanent_drop :
  outcome user_launch = Stop (Replaced "/snap/foo/bin/app") /\
  final_creds user_launch = mk_creds 1000 1000 0 1000 1000 0 /\
  Forall (fun e => permanent_id_call e = false) (trace user_launch).
Proof.
  split; [reflexivity|]. split; [reflexivity|].
  vm_compute. repeat constructor.
Qed.

(** ** Policy between the temporary and the permanent drop *)

Lemma drop_pairs_nil w : drop_pairs w [].
Proof. intros [|x a] u ok b H; discriminate H. Qed.

Lemma drop_pairs_snoc w tr e :
  drop_pairs w tr -> (forall u ok, e <> Seteuid u ok) -> drop_pairs w (tr ++ [e]).
Proof.
  intros H Hne a u ok b Heq.
  destruct (snoc_split _ _ _ _ _ Heq) as [(_ & _ & ->) | (b' & _ & ->)].
  - now destruct (Hne u ok).
  - eapply H. reflexivity.
Qed.

Lemma drop_pairs_drop w tr u ok :
  drop_pairs w tr ->
  drop_pairs w ((tr ++ [Setegid (rgid (w_creds w)) true]) ++ [Seteuid u ok]).
Proof.
  intros H a u' ok' b Heq.
  destruct (snoc_split _ _ _ _ _ Heq) as [(_ & <- & _) | (b' & _ & Heq')].
  - eauto.
  - destruct (snoc_split _ _ _ _ _ Heq') as [(_ & _ & Hx) | (b'' & _ & ->)].
    + discriminate Hx.
    + eapply H. reflexivity.
Qed.

Ltac drop_xt :=
  repeat match goal with H : drop_extra _ _ _ |- _ => destruct H end;
  split;
  [ cbn [st_trace after];
    repeat first [ assumption | apply drop_pairs_nil | apply drop_pairs_drop
                 | apply drop_pairs_snoc; [ | intros ? ?; discriminate ] ]
  | cbn [after initial_state st_creds st_env st_trace
         ruid euid suid rgid egid sgid with_egid with_euid];
    first [ exact I | assumption | reflexivity ] ].

Lemma main_drop w :
  holds (main w) (initial_state w)
    (fun o s' => ended (drop_step w) Elevated (drop_extra w) (fun _ _ => True) o s').
Proof.
  assert (H : kept (drop_step w) Elevated (drop_extra w) Elevated (initial_state w)).
  { split; [reflexivity|]. split; [apply drop_pairs_nil | reflexivity]. }
  destruct H as [H Hx]. unfold main.
  destruct (w_args w) as [args|];
    walk (drop_step w) Elevated (drop_extra w) no_fork ltac:(exact I) drop_xt.
Qed.

Lemma drop_step_sound w tr q e q' :
  drop_sound w tr q -> drop_step w q e = Some q' -> drop_sound w (tr ++ [e]) q'.
Proof.
  intros Hs Hstep.
  assert (Hin : forall x, In x tr -> In x (tr ++ [e])) by (intros; apply in_or_app; auto).
  assert (Hlast : In e (tr ++ [e])) by (apply in_or_app; right; left; reflexivity).
  assert (Hall : permanent_id_call e = false ->
                 Forall (fun e => permanent_id_call e = false) tr ->
                 Forall (fun e => permanent_id_call e = false) (tr ++ [e])).
  { intros He Htr. apply Forall_app. split; [exact Htr | repeat constructor; exact He]. }
  destruct q; simpl in Hs, Hstep.
  - each_event e; simpl in Hstep;
      repeat match type of Hstep with
             | context [if ?b then _ else _] => destruct b eqn:?
             end;
      inversion Hstep; subst; simpl; auto.
    all: split; [auto|].
    all: try (intros Hroot;
              match goal with H : (euid _ =? 0) = false |- _ =>
                rewrite Hroot in H; discriminate H
              end).
    rewrite Z.eqb_eq in *. subst. exact Hlast.
  - destruct Hs as [Hperm Hdrop].
    each_event e; simpl in Hstep; inversion Hstep; subst; simpl; auto.
  - destruct Hs as [Hperm Hdrop].
    each_event e; simpl in Hstep; inversion Hstep; subst; simpl; auto.
  - each_event e; simpl in Hstep; inversion Hstep; subst; simpl; auto.
Qed.

Lemma drop_monitor_sound w tr q :
  monitor (drop_step w) Elevated tr = Some q -> drop_sound w tr q.
Proof.
  revert q. induction tr as [|e tr IH] using rev_ind; intros q.
  - simpl. intros [= <-]. constructor.
  - rewrite monitor_snoc.
    destruct (monitor (drop_step w) Elevated tr) as [q1|]; [|discriminate].
    simpl. intros Hstep. eapply drop_step_sound; eauto.
Qed.

(** Once a policy is applied the monitor accepts no [setegid] or [seteuid]. *)
Lemma drop_applied_quiet w post : forall q qf,
  fold_left (feed (drop_step w)) post (Some q) = Some qf ->
  q = Applied \/ q = Final ->
  Forall (fun e => effective_id_call e = false) post.
Proof.
  induction post as [|e post IH]; intros q qf Hfold Hq; [constructor|].
  change (fold_left (feed (drop_step w)) post (drop_step w q e) = Some qf) in Hfold.
  destruct (drop_step w q e) as [q'|] eqn:Hstep;
    [| now rewrite feed_None in Hfold].
  assert ((q' = Applied \/ q' = Final) /\ effective_id_call e = false) as [Hq' He].
  { destruct Hq as [-> | ->]; each_event e; simpl in Hstep;
      try discriminate Hstep; inversion Hstep; auto. }
  constructor; eauto.
Qed.

(** C2 (amended): in every run, whenever the AppArmor transition or a
    seccomp filter is applied, no setgid or setuid has been called before,
    no setegid or seteuid is called afterwards, and, if the launcher
    started with effective uid 0, the temporary drop -- a successful
    setegid(real_gid) directly followed by a successful seteuid(real_uid) --
    has been made before. *)
Theorem policy_between_drops (w : world) (pre post : list event) (e : event) :
  trace w = pre ++ e :: post -> policy_event e = true ->
  Forall (fun e' => permanent_id_call e' = false) pre /\
  Forall (fun e' => effective_id_call e' = false) post /\
  (euid (w_creds w) = 0 -> temporarily_dropped w pre).
Proof.
  intros Htr Hpol.
  destruct (main_drop w) as (qf & [Hq [Hpairs _]] & _).
  unfold tracked in Hq. fold (run w) in Hq, Hpairs. fold (trace w) in Hq, Hpairs.
  rewrite Htr in Hq.
  destruct (monitor_split _ _ _ _ _ _ Hq) as (q1 & q2 & Hpre & Hstep & Hpost).
  pose proof (drop_monitor_sound _ _ _ Hpre) as Hsound.
  assert (Hq2 : q2 = Applied \/ q2 = Final).
  { destruct q1; each_event e; try discriminate Hpol; simpl in Hstep;
      try discriminate Hstep;
      repeat match type of Hstep with
             | context [if ?b then _ else _] => destruct b
             end; inversion Hstep; auto. }
  refine (conj _ (conj _ _)).
  - destruct q1; simpl in Hsound; try tauto.
    exfalso. each_event e; discriminate.
  - eapply drop_applied_quiet; eauto.
  - intros Hroot.
    assert (Hin : In (Seteuid (ruid (w_creds w)) true) pre).
    { destruct q1; simpl in Hsound.
      - exfalso. each_event e; try discriminate Hpol; simpl in Hstep;
          rewrite Hroot in Hstep; discriminate Hstep.
      - tauto.
      - destruct Hsound as [_ H]. auto.
      - exfalso. each_event e; discriminate. }
    destruct (in_split _ _ Hin) as (a & b & ->).
    rewrite <- app_assoc in Htr. simpl in Htr.
    destruct (Hpairs _ _ _ _ Htr) as [a' ->].
    exists a', b. now rewrite <- app_assoc.
Qed.

Lemma policy_between_drops_witness :
  temporarily_dropped user_launch (firstn 49 (trace user_launch)).
Proof.
  destruct (policy_between_drops user_launch
              (firstn 49 (trace user_launch))
              (skipn 50 (trace user_launch))
              (Call sc_maybe_aa_change_onexec)) as (_ & _ & H).
  - vm_compute. reflexivity.
  - reflexivity.
  - apply H. reflexivity.
Defined.

(** C2 as stated fails for a test run: the launcher is not set-uid,
    SNAP_CONFINE_NO_ROOT is set, and the policy is applied without any
    temporary drop. *)
Lemma policy_without_temporary_drop : ~ policy_after_temporary_drop test_launch.
Proof.
  intros H.
  destruct (H (firstn 11 (trace test_launch))
              (Call sc_maybe_aa_change_onexec)
              (skipn 12 (trace test_launch))) as [(a & b & Heq) _].
  - vm_compute. reflexivity.
  - reflexivity.
  - assert (Hin : In (Seteuid (ruid (w_creds test_launch)) true)
                     (firstn 11 (trace test_launch))).
    { rewrite Heq. apply in_or_app. right. right. left. reflexivity. }
    vm_compute in Hin.
    repeat (destruct Hin as [Hin|Hin]; [discriminate Hin|]). exact Hin.
Qed.

(** ** The temporary drop and its verification *)

Lemma temporary_drop_ids w ru rg s :
  holds (temporary_drop w ru rg) s
    (fun o s' => o = Ret tt -> egid (st_creds s') = rg /\ euid (st_creds s') = ru).
Proof.
  unfold temporary_drop. wp; cbn; try discriminate. auto.
Qed.

Lemma check_temporary_drop_dies ru rg s :
  ru <> 0 -> rg <> 0 ->
  holds (check_temporary_drop ru rg) s
    (fun o _ => (exists msg, o = Stop (Died msg)) <->
                (euid (st_creds s) = 0 \/ egid (st_creds s) = 0)).
Proof.
  intros Hru Hrg. apply Z.eqb_neq in Hru, Hrg.
  unfold check_temporary_drop. rewrite Hru, Hrg. cbn [negb].
  wp; cbn in *;
    repeat match goal with
           | H : (_ =? 0) = true |- _ => apply Z.eqb_eq in H
           | H : (_ =? 0) = false |- _ => apply Z.eqb_neq in H
           end.
  - split; eauto.
  - split; eauto.
  - split; [intros [msg Hm]; discriminate Hm | tauto].
Qed.

(** C3 as stated fails: in the launch by user 1000 the effective gid is
    raised to 0 for the freezer group and lowered again, and neither call
    is followed by a read of the ids. *)
Lemma id_change_without_read : ~ every_change_verified (trace user_launch).
Proof.
  intros H.
  destruct (H (firstn 31 (trace user_launch)) (Setegid 0 true)
              (skipn 32 (trace user_launch))) as (e' & post' & Heq & Hread).
  - vm_compute. reflexivity.
  - reflexivity.
  - vm_compute in Heq. injection Heq as <- _.
    destruct Hread as [Hr | Hr]; discriminate Hr.
Qed.

(** ** The per-snap lock covers the namespace work *)

Lemma snap_lock_held_snoc tr e :
  snap_lock_held (tr ++ [e]) = lock_update (snap_lock_held tr) e.
Proof. unfold snap_lock_held. now rewrite fold_left_app. Qed.

Lemma lock_step_sound tr q e q' :
  phase_sound tr q -> lock_step q e = Some q' -> phase_sound (tr ++ [e]) q'.
Proof.
  intros Hs Hstep.
  assert (Hin : forall x, In x tr -> In x (tr ++ [e])) by (intros; apply in_or_app; auto).
  assert (Hlast : In e (tr ++ [e])) by (apply in_or_app; right; left; reflexivity).
  destruct q as [|j c|]; simpl in Hs.
  - each_event e; simpl in Hstep; inversion Hstep; subst; simpl;
      rewrite snap_lock_held_snoc, Hs; simpl; auto; repeat split; discriminate.
  - destruct Hs as (Hh & Hj & Hc).
    each_event e; destruct j, c; simpl in Hstep; inversion Hstep; subst; simpl;
      rewrite snap_lock_held_snoc, Hh; simpl; auto 6.
  - destruct Hs as (Hh & Hj & Hc).
    each_event e; simpl in Hstep; inversion Hstep; subst; simpl;
      rewrite snap_lock_held_snoc, Hh; simpl; auto.
Qed.

Lemma lock_monitor_sound tr q :
  monitor lock_step NotLocked tr = Some q -> phase_sound tr q.
Proof.
  revert q. induction tr as [|e tr IH] using rev_ind; intros q.
  - simpl. intros [= <-]. reflexivity.
  - rewrite monitor_snoc.
    destruct (monitor lock_step NotLocked tr) as [q1|]; [|discriminate].
    simpl. intros Hstep. eapply lock_step_sound; eauto.
Qed.

(** A namespace operation is only accepted while the lock is held. *)
Lemma lock_step_namespace_op q e q' :
  lock_step q e = Some q' -> namespace_op e = true -> exists j c, q = Locked j c.
Proof.
  destruct q as [|j c|]; [| eauto |]; each_event e; simpl; discriminate.
Qed.

(** The lock is only released from the state in which the join has been
    attempted and the freezer group joined. *)
Lemma lock_step_release q q' :
  lock_step q (Unlock snap_lock_fd) = Some q' -> q = Locked true true /\ q' = Released.
Proof.
  destruct q as [|[|] [|]|]; simpl; intros [= <-] || discriminate; auto.
Qed.

(** Once the lock is released the monitor accepts no namespace operation. *)
Lemma lock_released_quiet post : forall q,
  fold_left (feed lock_step) post (Some Released) = Some q ->
  Forall (fun e => namespace_op e = false) post.
Proof.
  induction post as [|e post IH]; intros q Hall; [constructor|].
  change (fold_left (feed lock_step) post (lock_step Released e) = Some q) in Hall.
  destruct (lock_step Released e) as [q1|] eqn:Hstep;
    [| now rewrite feed_None in Hall].
  assert (q1 = Released /\ namespace_op e = false) as [-> Hop].
  { each_event e; simpl in *; try discriminate; inversion Hstep; auto. }
  constructor; eauto.
Qed.

Lemma main_lock w :
  holds (main w) (initial_state w)
    (fun o s' => ended lock_step NotLocked nothing (fun _ _ => True) o s').
Proof.
  assert (H : tracked lock_step NotLocked NotLocked (initial_state w)) by reflexivity.
  revert H. generalize (initial_state w). intros s H. unfold main.
  destruct (w_args w) as [args|]; plain_walk lock_step NotLocked ltac:(exact I).
Qed.

(** C4: in every run, an operation on the snap's namespaces or freezer
    group (join, unshare, populate, preserve, per-user join, per-user mount
    setup, per-user preserve, freezer-group join) is made only while the
    per-snap lock is held, so the lock is taken before the join attempt; and
    the lock is released only after the join attempt and the freezer-group
    association, with no such operation after the release. *)
Theorem snap_lock_covers_namespace_work (w : world) (pre post : list event) (e : event) :
  trace w = pre ++ e :: post ->
  (namespace_op e = true -> snap_lock_held pre = true) /\
  (e = Unlock snap_lock_fd ->
     In (Call sc_join_preserved_ns) pre /\
     In (Call sc_cgroup_freezer_join) pre /\
     Forall (fun e' => namespace_op e' = false) post).
Proof.
  intros Htr.
  destruct (main_lock w) as (q & [Hq _] & _).
  unfold tracked in Hq. fold (run w) in Hq. fold (trace w) in Hq.
  rewrite Htr in Hq.
  destruct (monitor_split _ _ _ _ _ _ Hq) as (q1 & q2 & Hpre & Hstep & Hpost).
  pose proof (lock_monitor_sound _ _ Hpre) as Hsound.
  split.
  - intros Hop.
    destruct (lock_step_namespace_op _ _ _ Hstep Hop) as (j & c & ->).
    apply Hsound.
  - intros ->.
    destruct (lock_step_release _ _ Hstep) as [-> ->].
    destruct Hsound as (_ & Hj & Hc).
    repeat split; auto.
    eapply lock_released_quiet; eauto.
Qed.

Lemma snap_lock_covers_namespace_work_witness :
  snap_lock_held (firstn 21 (trace user_launch)) = true.
Proof.
  destruct (snap_lock_covers_namespace_work user_launch
              (firstn 21 (trace user_launch))
              (skipn 22 (trace user_launch))
              (Call sc_join_preserved_ns)) as [H _].
  - vm_compute. reflexivity.
  - apply H. reflexivity.
Defined.

(** ** Join, or construct and preserve *)

Lemma build_step_sound w ru tr q e q' :
  build_sound w ru tr q -> build_step w ru q e = Some q' ->
  build_sound w ru (tr ++ [e]) q'.
Proof.
  intros Hs Hstep.
  destruct q; simpl in Hs, Hstep;
    repeat match type of Hs with _ /\ _ => destruct Hs as [? Hs] end;
    try destruct Hs as [p ->];
    each_event e; simpl in Hstep; try discriminate;
    repeat match type of Hstep with
           | context [if ?b then _ else _] => destruct b eqn:?
           end;
    inversion Hstep; subst; simpl; auto;
    repeat split; auto; try (eexists; reflexivity);
    try (exists p; rewrite <- app_assoc; reflexivity).
Qed.

Lemma build_monitor_sound w ru tr q :
  monitor (build_step w ru) BeforeJoin tr = Some q -> build_sound w ru tr q.
Proof.
  revert q. induction tr as [|e tr IH] using rev_ind; intros q.
  - simpl. intros [= <-]. exact I.
  - rewrite monitor_snoc.
    destruct (monitor (build_step w ru) BeforeJoin tr) as [q1|]; [|discriminate].
    simpl. intros Hstep. eapply build_step_sound; eauto.
Qed.

Ltac build_fin :=
  cbn; first [ exact I | eexists; reflexivity ].

Lemma main_build w :
  holds (main w) (initial_state w)
    (fun o s' => ended (build_step w (ruid (w_creds w))) BeforeJoin nothing
                   build_end o s').
Proof.
  assert (H : tracked (build_step w (ruid (w_creds w))) BeforeJoin BeforeJoin
                (initial_state w)) by reflexivity.
  unfold main.
  destruct (w_args w) as [args|];
    plain_walk (build_step w (ruid (w_creds w))) BeforeJoin build_fin.
Qed.

(** What the monitor has accepted when a run is split at one event. *)
Lemma build_split w pre e post :
  trace w = pre ++ e :: post ->
  exists q1 q2 qf,
    build_sound w (ruid (w_creds w)) pre q1 /\
    monitor (build_step w (ruid (w_creds w))) BeforeJoin pre = Some q1 /\
    build_step w (ruid (w_creds w)) q1 e = Some q2 /\
    fold_left (feed (build_step w (ruid (w_creds w)))) post (Some q2) = Some qf /\
    build_end qf (outcome w).
Proof.
  intros Htr.
  destruct (main_build w) as (qf & [Hq _] & Hend).
  unfold tracked in Hq. fold (run w) in Hq, Hend. fold (trace w) in Hq.
  fold (outcome w) in Hend. rewrite Htr in Hq.
  destruct (monitor_split _ _ _ _ _ _ Hq) as (q1 & q2 & Hpre & Hstep & Hpost).
  exists q1, q2, qf. repeat split; auto.
  now apply build_monitor_sound.
Qed.

(** In a phase in which something is pending, the run goes on. *)
Lemma build_pending_next w ru q post qf (o : result Z) :
  fold_left (feed (build_step w ru)) post (Some q) = Some qf ->
  build_end qf o -> (build_end q o -> False) ->
  exists e' post' q',
    post = e' :: post' /\ build_step w ru q e' = Some q' /\
    fold_left (feed (build_step w ru)) post' (Some q') = Some qf.
Proof.
  intros Hfold Hend Hpending.
  destruct post as [|e' post'].
  - simpl in Hfold. injection Hfold as <-. contradiction.
  - change (fold_left (feed (build_step w ru)) post' (build_step w ru q e') = Some qf)
      in Hfold.
    destruct (build_step w ru q e') as [q'|] eqn:Hstep;
      [eauto 6 | now rewrite feed_None in Hfold].
Qed.

(** After a failed step nothing follows. *)
Lemma build_halted_last w ru post qf :
  fold_left (feed (build_step w ru)) post (Some Halted) = Some qf ->
  post = [] /\ qf = Halted.
Proof.
  destruct post as [|e' post']; simpl.
  - intros [= <-]. auto.
  - now rewrite feed_None.
Qed.

(** Once the per-snap namespace is settled it is not built again. *)
Definition snap_settled (q : build_phase) : bool :=
  match q with
  | BeforeJoin | SnapJoinMissed | SnapUnshared | SnapPopulated => false
  | _ => true
  end.

Lemma build_no_rebuild w ru post : forall q qf,
  fold_left (feed (build_step w ru)) post (Some q) = Some qf ->
  snap_settled q = true ->
  ~ In (Call sc_populate_mount_ns) post /\
  ~ In (Call sc_preserve_populated_mount_ns) post.
Proof.
  induction post as [|e post IH]; intros q qf Hfold Hq; [simpl; tauto|].
  change (fold_left (feed (build_step w ru)) post (build_step w ru q e) = Some qf)
    in Hfold.
  destruct (build_step w ru q e) as [q'|] eqn:Hstep;
    [| now rewrite feed_None in Hfold].
  assert (snap_settled q' = true /\ e <> Call sc_populate_mount_ns /\
          e <> Call sc_preserve_populated_mount_ns) as (Hq' & Hne1 & Hne2).
  { destruct q; try discriminate Hq; each_event e; simpl in Hstep;
      try discriminate Hstep;
      repeat match type of Hstep with
             | context [if ?b then _ else _] => destruct b
             end;
      inversion Hstep; subst; repeat split; try reflexivity; discriminate. }
  destruct (IH _ _ Hfold Hq') as [H1 H2].
  split; intros [Heq|Hin]; auto.
Qed.

(** C5: in every run, the fresh per-snap namespace path (unshare, then
    sc_populate_mount_ns, then sc_preserve_populated_mount_ns) is entered
    exactly when sc_join_preserved_ns returns ESRCH: after a join that
    returns ESRCH the next event is the unshare, and after a join that
    returns anything else no unshare follows and the namespace is neither
    populated nor preserved; populate only follows the missed join and a
    successful unshare, preserve only follows a populate that returned; each
    step that succeeds is followed by the next; and an unshare that fails
    or a populate or preserve that does not return is the last event of a
    run that died. *)
Theorem fresh_namespace_iff_join_missed (w : world) (pre post : list event) (e : event) :
  trace w = pre ++ e :: post ->
  (e = Call sc_join_preserved_ns -> w_returns w sc_join_preserved_ns = true ->
     if w_retval w sc_join_preserved_ns =? ESRCH
     then exists ok post', post = Unshare ok :: post'
     else (forall ok post', post <> Unshare ok :: post') /\
          ~ In (Call sc_populate_mount_ns) post /\
          ~ In (Call sc_preserve_populated_mount_ns) post) /\
  (e = Call sc_populate_mount_ns ->
     w_retval w sc_join_preserved_ns = ESRCH /\
     exists pre', pre = pre' ++ [Call sc_join_preserved_ns; Unshare true]) /\
  (e = Call sc_preserve_populated_mount_ns ->
     w_returns w sc_populate_mount_ns = true /\
     exists pre', pre = pre' ++ [Call sc_join_preserved_ns; Unshare true;
                                 Call sc_populate_mount_ns]) /\
  (e = Unshare true -> (exists pre', pre = pre' ++ [Call sc_join_preserved_ns]) ->
     exists post', post = Call sc_populate_mount_ns :: post') /\
  (e = Call sc_populate_mount_ns -> w_returns w sc_populate_mount_ns = true ->
     exists post', post = Call sc_preserve_populated_mount_ns :: post') /\
  (e = Unshare false \/
   (e = Call sc_populate_mount_ns /\ w_returns w sc_populate_mount_ns = false) \/
   (e = Call sc_preserve_populated_mount_ns /\
    w_returns w sc_preserve_populated_mount_ns = false) ->
     post = [] /\ exists msg, outcome w = Stop (Died msg)).
Proof.
  intros Htr.
  destruct (build_split w pre e post Htr)
    as (q1 & q2 & qf & Hsound & Hpre & Hstep & Hpost & Hend).
  set (ru := ruid (w_creds w)) in *.
  refine (conj _ (conj _ (conj _ (conj _ (conj _ _))))).
  - (* after the join *)
    intros -> Hret.
    destruct q1; simpl in Hstep; try discriminate Hstep.
    rewrite Hret in Hstep.
    destruct (w_retval w sc_join_preserved_ns =? ESRCH); injection Hstep as <-.
    + destruct (build_pending_next _ _ _ _ _ _ Hpost Hend)
        as (e' & post' & q' & -> & Hnext & _); [intros []|].
      each_event e'; simpl in Hnext; try discriminate Hnext; eauto.
    + split; [| eapply build_no_rebuild; eauto].
      intros ok post' ->.
      change (fold_left (feed (build_step w ru)) post'
                (build_step w ru BetweenNs (Unshare ok)) = Some qf) in Hpost.
      simpl in Hpost. now rewrite feed_None in Hpost.
  - intros ->.
    destruct q1; simpl in Hstep; try discriminate Hstep.
    destruct Hsound as [H Hp]. split; [now apply Z.eqb_eq | exact Hp].
  - intros ->.
    destruct q1; simpl in Hstep; try discriminate Hstep.
    exact Hsound.
  - (* a successful unshare after the per-snap join *)
    intros -> [pre' ->].
    rewrite monitor_snoc in Hpre.
    destruct (monitor (build_step w ru) BeforeJoin pre') as [q0|]; [|discriminate].
    simpl in Hpre.
    destruct q0; simpl in Hpre; try discriminate Hpre.
    destruct q1; simpl in Hstep; try discriminate Hstep;
      try (destruct (w_returns w sc_join_preserved_ns);
           destruct (w_retval w sc_join_preserved_ns =? ESRCH); discriminate Hpre).
    injection Hstep as <-.
    destruct (build_pending_next _ _ _ _ _ _ Hpost Hend)
      as (e' & post' & q' & -> & Hnext & _); [intros []|].
    each_event e'; simpl in Hnext; try discriminate Hnext; eauto.
  - (* a populate that returned *)
    intros -> Hret.
    destruct q1; simpl in Hstep; try discriminate Hstep.
    rewrite Hret in Hstep. injection Hstep as <-.
    destruct (build_pending_next _ _ _ _ _ _ Hpost Hend)
      as (e' & post' & q' & -> & Hnext & _); [intros []|].
    each_event e'; simpl in Hnext; try discriminate Hnext; eauto.
  - (* failures *)
    assert (q2 = Halted ->
            post = [] /\ exists msg, outcome w = Stop (Died msg)) as Hhalt.
    { intros ->. destruct (build_halted_last _ _ _ _ Hpost) as [-> ->]. auto. }
    intros [-> | [[-> Hret] | [-> Hret]]];
      destruct q1; simpl in Hstep; try discriminate Hstep;
      rewrite ?Hret in Hstep; injection Hstep as <-; [ | | apply Hhalt; reflexivity ..].
    all: try (apply Hhalt; reflexivity).
Qed.

Lemma fresh_namespace_iff_join_missed_witness :
  w_retval user_launch sc_join_preserved_ns = ESRCH /\
  exists pre', firstn 23 (trace user_launch)
               = pre' ++ [Call sc_join_preserved_ns; Unshare true].
Proof.
  destruct (fresh_namespace_iff_join_missed user_launch
              (firstn 23 (trace user_launch))
              (skipn 24 (trace user_launch))
              (Call sc_populate_mount_ns)) as (_ & H & _).
  - vm_compute. reflexivity.
  - apply H. reflexivity.
Defined.

(** ** The per-user namespace *)

(** Once the per-user mounts are set up without the feature, or the
    per-user namespace is settled, it is not published. *)
Definition user_settled (q : build_phase) : bool :=
  match q with
  | UserEphemeral | AfterNs | Halted => true
  | _ => false
  end.

Lemma build_no_user_preserve w ru post : forall q qf,
  fold_left (feed (build_step w ru)) post (Some q) = Some qf ->
  user_settled q = true ->
  ~ In (Call sc_preserve_populated_per_user_mount_ns) post.
Proof.
  induction post as [|e post IH]; intros q qf Hfold Hq; [simpl; tauto|].
  change (fold_left (feed (build_step w ru)) post (build_step w ru q e) = Some qf)
    in Hfold.
  destruct (build_step w ru q e) as [q'|] eqn:Hstep;
    [| now rewrite feed_None in Hfold].
  assert (user_settled q' = true /\
          e <> Call sc_preserve_populated_per_user_mount_ns) as (Hq' & Hne).
  { destruct q; try discriminate Hq; each_event e; simpl in Hstep;
      try discriminate Hstep; inversion Hstep; subst;
      split; try reflexivity; discriminate. }
  pose proof (IH _ _ Hfold Hq') as H1.
  intros [Heq|Hin]; auto.
Qed.

(** C6: in every run, the per-user join, mount setup and preservation
    happen only when the real uid is not 0; after a per-user join that
    returns ESRCH the mount namespace is unshared and, if that succeeds,
    the user mounts are set up; the user mounts are only set up right after
    that join and unshare; after a mount setup that returns,
    sc_preserve_populated_per_user_mount_ns is the next event when the
    SC_PER_USER_MOUNT_NAMESPACE feature is enabled, and when it is disabled
    the run goes on with something else and never calls it; and it is only
    called with the feature enabled, right after the join, the unshare and
    the mount setup. *)
Theorem per_user_namespace_path (w : world) (pre post : list event) (e : event) :
  trace w = pre ++ e :: post ->
  (e = Call sc_join_preserved_per_user_ns \/ e = Call sc_setup_user_mounts \/
   e = Call sc_preserve_populated_per_user_mount_ns -> ruid (w_creds w) <> 0) /\
  (e = Call sc_join_preserved_per_user_ns ->
   w_returns w sc_join_preserved_per_user_ns = true ->
   w_retval w sc_join_preserved_per_user_ns = ESRCH ->
     exists ok post', post = Unshare ok :: post' /\
       (ok = true -> exists post'', post' = Call sc_setup_user_mounts :: post'')) /\
  (e = Call sc_setup_user_mounts ->
     w_retval w sc_join_preserved_per_user_ns = ESRCH /\
     exists pre', pre = pre' ++ [Call sc_join_preserved_per_user_ns; Unshare true]) /\
  (e = Call sc_setup_user_mounts -> w_returns w sc_setup_user_mounts = true ->
     if sc_feature_enabled w SC_PER_USER_MOUNT_NAMESPACE
     then exists post', post = Call sc_preserve_populated_per_user_mount_ns :: post'
     else ~ In (Call sc_preserve_populated_per_user_mount_ns) post /\
          exists e' post', post = e' :: post' /\ construction_op e' = false) /\
  (e = Call sc_preserve_populated_per_user_mount_ns ->
     sc_feature_enabled w SC_PER_USER_MOUNT_NAMESPACE = true /\
     exists pre', pre = pre' ++ [Call sc_join_preserved_per_user_ns; Unshare true;
                                 Call sc_setup_user_mounts]).
Proof.
  intros Htr.
  destruct (build_split w pre e post Htr)
    as (q1 & q2 & qf & Hsound & Hpre & Hstep & Hpost & Hend).
  set (ru := ruid (w_creds w)) in *.
  refine (conj _ (conj _ (conj _ (conj _ _)))).
  - (* only for a real uid other than 0 *)
    intros [-> | [-> | ->]];
      destruct q1; simpl in Hstep; try discriminate Hstep; apply Z.eqb_neq.
    + destruct (ru =? 0); [discriminate Hstep | reflexivity].
    + apply Hsound.
    + apply Hsound.
  - (* after a join that missed *)
    intros -> Hret Hval.
    destruct q1; simpl in Hstep; try discriminate Hstep.
    destruct (ru =? 0); [discriminate Hstep|].
    rewrite Hret, Hval, Z.eqb_refl in Hstep. injection Hstep as <-.
    destruct (build_pending_next _ _ _ _ _ _ Hpost Hend)
      as (e' & post' & q' & -> & Hnext & Hpost'); [intros []|].
    each_event e'; simpl in Hnext; try discriminate Hnext.
    exists ok, post'. split; [reflexivity|]. intros ->.
    injection Hnext as <-.
    destruct (build_pending_next _ _ _ _ _ _ Hpost' Hend)
      as (e'' & post'' & q'' & -> & Hnext' & _); [intros []|].
    each_event e''; simpl in Hnext'; try discriminate Hnext'; eauto.
  - intros ->.
    destruct q1; simpl in Hstep; try discriminate Hstep.
    destruct Hsound as (_ & H & Hp). split; [now apply Z.eqb_eq | exact Hp].
  - (* after the mount setup *)
    intros -> Hret.
    destruct q1; simpl in Hstep; try discriminate Hstep.
    rewrite Hret in Hstep.
    destruct (sc_feature_enabled w SC_PER_USER_MOUNT_NAMESPACE);
      injection Hstep as <-.
    + destruct (build_pending_next _ _ _ _ _ _ Hpost Hend)
        as (e' & post' & q' & -> & Hnext & _); [intros []|].
      each_event e'; simpl in Hnext; try discriminate Hnext; eauto.
    + split; [eapply build_no_user_preserve; eauto|].
      destruct (build_pending_next _ _ _ _ _ _ Hpost Hend)
        as (e' & post' & q' & -> & Hnext & _); [intros []|].
      exists e', post'. split; [reflexivity|].
      simpl in Hnext. destruct (construction_op e'); [discriminate|reflexivity].
  - intros ->.
    destruct q1; simpl in Hstep; try discriminate Hstep.
    destruct Hsound as (_ & H & Hp). auto.
Qed.

Lemma per_user_namespace_path_witness :
  ~ In (Call sc_preserve_populated_per_user_mount_ns) (skipn 30 (trace user_launch)) /\
  exists e' post', skipn 30 (trace user_launch) = e' :: post' /\
                   construction_op e' = false.
Proof.
  destruct (per_user_namespace_path user_launch
              (firstn 29 (trace user_launch))
              (skipn 30 (trace user_launch))
              (Call sc_setup_user_mounts)) as (_ & _ & _ & H & _).
  - vm_compute. reflexivity.
  - apply H; reflexivity.
Defined.

(** ** Refusing to run unconfined with elevated permissions *)

Lemma quiet_monitor tr q :
  monitor quiet_step tt tr = Some q -> Forall (fun e => launch_work e = false) tr.
Proof.
  revert q. induction tr as [|e tr IH] using rev_ind; intros q; [constructor|].
  rewrite monitor_snoc.
  destruct (monitor quiet_step tt tr) as [q1|]; [|discriminate].
  simpl. unfold quiet_step. destruct (launch_work e) eqn:He; [discriminate|].
  intros _. apply Forall_app. split; [eauto | repeat constructor; exact He].
Qed.

Ltac fork_all m := idtac.

Ltac died_fin := cbn; eexists; reflexivity.

Lemma main_refuses w :
  version_query w = false -> elevated_unconfined w ->
  holds (main w) (initial_state w)
    (fun o s' => ended quiet_step tt nothing died o s').
Proof.
  unfold version_query. intros Hv (Hconf & Hmode & Hru & Heu).
  assert (Hmode' : aa_mode_eqb (aa_mode (w_apparmor w)) SC_AA_NOT_APPLICABLE = false)
    by (destruct (aa_mode (w_apparmor w)); try reflexivity; contradiction).
  apply Z.eqb_neq in Hru. apply Z.eqb_eq in Heu. clear Hmode.
  assert (H : tracked quiet_step tt tt (initial_state w)) by reflexivity.
  unfold main.
  destruct (w_args w) as [args|]; cbn in Hv;
    walk quiet_step tt (@nothing unit) fork_all died_fin ltac:(exact I).
Qed.

(** C7 (amended): for every invocation that is not a version query, if
    AppArmor applies and the process is not confined by it, the real uid is
    not 0 and the effective uid is 0, the run dies and has taken no lock,
    touched no namespace or control group, applied no policy and executed
    nothing.  (A version query prints the version and returns 0.) *)
Theorem unconfined_launch_is_refused (w : world) :
  version_query w = false -> elevated_unconfined w -> refused w.
Proof.
  intros Hv Hu.
  destruct (main_refuses w Hv Hu) as (q & [Hq _] & Hdied).
  split; [exact Hdied|].
  eapply quiet_monitor. exact Hq.
Qed.

Lemma unconfined_launch_is_refused_witness : refused unconfined_launch.
Proof.
  apply unconfined_launch_is_refused.
  - reflexivity.
  - repeat split; [discriminate | discriminate].
Defined.

(** C7 as stated fails for a version query: it returns 0. *)
Lemma version_query_is_not_refused : ~ unconfined_is_refused version_launch.
Proof.
  intros H.
  destruct H as [[msg Hmsg] _].
  - repeat split; [discriminate | discriminate].
  - vm_compute in Hmsg. discriminate Hmsg.
Qed.

(** ** A launch without SNAP_INSTANCE_NAME *)

Lemma main_nameless w :
  version_query w = false -> w_environ w !! "SNAP_INSTANCE_NAME" = None ->
  holds (main w) (initial_state w)
    (fun o s' =>
       (exists msg, o = Stop (Died msg)) /\
       (st_trace s' = [] \/ st_trace s' = [Getenv "SNAP_INSTANCE_NAME"]) /\
       st_creds s' = w_creds w /\ st_env s' = w_environ w).
Proof.
  unfold version_query. intros Hv Henv. unfold main.
  destruct (w_args w) as [args|]; cbn in Hv.
  - rewrite Hv. apply holds_bind. unfold getenv.
    apply holds_bind, holds_emit. cbv beta iota.
    apply holds_bind, holds_get_env, holds_ret. cbv beta iota.
    change (st_env (after (initial_state w) (Getenv "SNAP_INSTANCE_NAME")))
      with (w_environ w).
    rewrite Henv. apply holds_die. eauto 6.
  - apply holds_die. eauto 6.
Qed.

(** C8: if the invocation is not a version query and SNAP_INSTANCE_NAME is
    not in the environment, the run dies, with a non-zero exit status,
    having done nothing but (at most) read that variable: no lock is taken,
    no namespace touched, and the ids and the environment are unchanged. *)
Theorem missing_instance_name_is_fatal (w : world) :
  version_query w = false -> w_environ w !! "SNAP_INSTANCE_NAME" = None ->
  (exists msg, outcome w = Stop (Died msg)) /\
  (exists status, exit_status (outcome w) = Some status /\ status <> 0) /\
  (trace w = [] \/ trace w = [Getenv "SNAP_INSTANCE_NAME"]) /\
  Forall (fun e => launch_work e = false /\ id_change e = false) (trace w) /\
  final_creds w = w_creds w /\ final_env w = w_environ w.
Proof.
  intros Hv Henv.
  destruct (main_nameless w Hv Henv) as ([msg Hmsg] & Htr & Hc & He).
  fold (run w) in Hmsg, Htr, Hc, He.
  fold (outcome w) in Hmsg. fold (trace w) in Htr.
  fold (final_creds w) in Hc. fold (final_env w) in He.
  repeat split; auto.
  - eauto.
  - exists 1. rewrite Hmsg. split; [reflexivity | discriminate].
  - destruct Htr as [-> | ->]; repeat constructor.
Qed.

Lemma missing_instance_name_is_fatal_witness :
  exists status, exit_status (outcome nameless_launch) = Some status /\ status <> 0.
Proof.
  destruct (missing_instance_name_is_fatal nameless_launch) as (_ & H & _).
  - reflexivity.
  - vm_compute. reflexivity.
  - exact H.
Defined.

(** ** The environment is reset *)

(** Looks a variable up in an environment built by [setenv]. *)
Ltac env_lookup :=
  cbn [st_env st_creds st_trace after];
  repeat (rewrite lookup_insert_ne by discriminate);
  rewrite ?lookup_insert_eq;
  first [ reflexivity | assumption ].

Ltac env_xt :=
  repeat match goal with
         | H : env_extra _ _ _ |- _ => hnf in H
         | H : env_kept _ _ |- _ => hnf in H
         | H : isolated_env _ |- _ => destruct H as (? & ? & ?)
         end;
  cbn [env_extra env_kept after initial_state st_creds st_env st_trace
       ruid euid suid rgid egid sgid with_egid with_euid];
  first [ exact I | assumption | reflexivity
        | repeat split; env_lookup ].

Ltac env_fin :=
  cbn; first [ intros _; reflexivity | intros [? Hd]; discriminate Hd ].

Lemma main_env w :
  classic_launch w = false -> euid (w_creds w) = 0 ->
  holds (main w) (initial_state w)
    (fun o s' => ended env_step Outside (env_extra w) env_end o s').
Proof.
  unfold classic_launch. intros Hclassic Heu. apply Z.eqb_eq in Heu.
  assert (H : tracked env_step Outside Outside (initial_state w)) by reflexivity.
  assert (Hx : euid (st_creds (initial_state w)) = euid (w_creds w)) by reflexivity.
  unfold main.
  destruct (w_args w) as [args|]; cbn in Hclassic;
    walk env_step Outside (env_extra w) no_fork env_fin env_xt.
Qed.

(** Without the two hypotheses the walk is the same, except that nothing
    is claimed about how the run ends. *)
Lemma main_env_any w :
  holds (main w) (initial_state w)
    (fun o s' => ended env_step Outside env_kept (fun _ _ => True) o s').
Proof.
  assert (H : tracked env_step Outside Outside (initial_state w)) by reflexivity.
  unfold main.
  destruct (w_args w) as [args|];
    walk env_step Outside env_kept no_fork ltac:(exact I) env_xt.
Qed.

Lemma env_step_sound tr q e q' :
  env_sound tr q -> env_step q e = Some q' -> env_sound (tr ++ [e]) q'.
Proof.
  intros Hs Hstep.
  assert (Hsnoc : forall v, e <> Setenv "TEMPDIR" v ->
                            (forall v, ~ In (Setenv "TEMPDIR" v) tr) ->
                            ~ In (Setenv "TEMPDIR" v) (tr ++ [e])).
  { intros v Hne Htr Hin. apply in_app_or in Hin.
    destruct Hin as [Hin | [Heq | []]]; [exact (Htr v Hin) | now apply Hne]. }
  destruct q; each_event e; simpl in Hstep;
    repeat match type of Hstep with
           | context [if ?b then _ else _] => destruct b eqn:?
           end;
    inversion Hstep; subst; simpl in *; auto;
    intros v; apply Hsnoc; auto; try discriminate;
    intros Heq; injection Heq as Hname _; subst;
    match goal with
    | H : String.eqb _ _ = false |- _ => rewrite String.eqb_refl in H; discriminate H
    end.
Qed.

Lemma env_monitor_sound tr q :
  monitor env_step Outside tr = Some q -> env_sound tr q.
Proof.
  revert q. induction tr as [|e tr IH] using rev_ind; intros q.
  - simpl. intros [= <-] v [].
  - rewrite monitor_snoc.
    destruct (monitor env_step Outside tr) as [q1|]; [|discriminate].
    simpl. intros Hstep. eapply env_step_sound; eauto.
Qed.

(** C9: a non-classic launch by a launcher with effective uid 0 that hands
    off to the application does so with PATH equal to the fixed core-snap
    value and TMPDIR and TEMPDIR equal to "/tmp"; and in every run, once
    the last of these variables has been set, the environment at the end
    of the run has these three values, whatever the inherited ones were. *)
Theorem environment_is_reset (w : world) :
  (forall path, outcome w = Stop (Replaced path) ->
     classic_launch w = false -> euid (w_creds w) = 0 ->
     isolated_env (final_env w)) /\
  (forall v, In (Setenv "TEMPDIR" v) (trace w) -> isolated_env (final_env w)).
Proof.
  split.
  - intros path Hout Hclassic Heu.
    destruct (main_env w Hclassic Heu) as (q & [_ Hx] & Hend).
    fold (run w) in Hx, Hend. fold (outcome w) in Hend.
    rewrite (Hend (ex_intro _ path Hout)) in Hx. exact Hx.
  - intros v Hin.
    destruct (main_env_any w) as (q & [Hq Hx] & _).
    fold (run w) in Hq, Hx. unfold tracked in Hq. fold (trace w) in Hq.
    pose proof (env_monitor_sound _ _ Hq) as Hsound.
    destruct q; simpl in Hsound; try (now destruct (Hsound v Hin)).
    exact Hx.
Qed.

Lemma environment_is_reset_witness : isolated_env (final_env user_launch).
Proof.
  destruct (environment_is_reset user_launch) as [H _].
  apply (H "/snap/foo/bin/app"); reflexivity.
Defined.
(** ** The cookie is passed on, except to hooks *)

Ltac cookie_fork m :=
  lazymatch m with
  | (if negb (sc_is_hook_security_tag _ _) then _ else _) => idtac
  | (if _ then emit ErrorMsg else _) => idtac
  | (match _ with Some _ => _ | None => ret tt end) => idtac
  end.

Ltac cookie_xt :=
  repeat match goal with
         | H : cookie_extra _ _ _ |- _ => hnf in H
         | H : _ /\ _ |- _ => destruct H
         end;
  cbn [cookie_extra after initial_state st_creds st_env st_trace];
  first [ exact I
        | assumption
        | split; assumption
        | split; env_lookup
        | env_lookup
        | split; cbn [st_env st_creds st_trace after];
          repeat (rewrite lookup_insert_ne by discriminate);
          rewrite ?lookup_insert_eq; symmetry; assumption ].

Ltac cookie_fin :=
  cbn;
  first [ exact I | assumption | reflexivity
        | apply negb_false_iff; assumption ].

Lemma main_cookie w :
  holds (main w) (initial_state w)
    (fun o s' => ended (cookie_step w (hook_invocation w)) NotFetched
                   (cookie_extra w) (cookie_end w (hook_invocation w)) o s').
Proof.
  assert (H : tracked (cookie_step w (hook_invocation w)) NotFetched NotFetched
                (initial_state w)) by reflexivity.
  assert (Hx1 : st_env (initial_state w) !! "SNAP_COOKIE" = w_environ w !! "SNAP_COOKIE")
    by reflexivity.
  assert (Hx2 : st_env (initial_state w) !! "SNAP_CONTEXT" = w_environ w !! "SNAP_CONTEXT")
    by reflexivity.
  unfold main. unfold hook_invocation in *.
  destruct (w_args w) as [args|].
  - walk (cookie_step w (sc_is_hook_security_tag w (sc_args_security_tag args)))
         NotFetched (cookie_extra w) cookie_fork cookie_fin cookie_xt.
  - walk (cookie_step w false) NotFetched (cookie_extra w) cookie_fork
         cookie_fin cookie_xt.
Qed.

Lemma no_cookie_set_snoc tr e :
  no_cookie_set tr ->
  (forall name v, e = Setenv name v -> cookie_variable name = false) ->
  no_cookie_set (tr ++ [e]).
Proof.
  intros Htr He name v Hin. apply in_app_or in Hin.
  destruct Hin as [Hin | [Heq | []]]; [eapply Htr; eauto | eapply He; eauto].
Qed.

Lemma not_asked_snoc tr e :
  ~ In (Call sc_cookie_get_from_snapd) tr ->
  e <> Call sc_cookie_get_from_snapd ->
  ~ In (Call sc_cookie_get_from_snapd) (tr ++ [e]).
Proof.
  intros Htr He Hin. apply in_app_or in Hin.
  destruct Hin as [Hin | [Heq | []]]; [auto | now apply He].
Qed.

Ltac cookie_cases Hstep :=
  repeat match type of Hstep with
         | context [if ?b then _ else _] => destruct b eqn:?
         | context [match w_cookie ?w with _ => _ end] => destruct (w_cookie w) eqn:?
         end;
  try discriminate Hstep;
  repeat match goal with
         | H : String.eqb _ _ = true |- _ => apply String.eqb_eq in H; subst
         | H : _ && _ = true |- _ => apply andb_true_iff in H; destruct H
         | H : _ || _ = false |- _ => apply orb_false_iff in H; destruct H
         end.

Lemma cookie_step_sound w hook tr q e q' :
  cookie_sound w hook tr q -> cookie_step w hook q e = Some q' ->
  cookie_sound w hook (tr ++ [e]) q'.
Proof.
  intros Hs Hstep.
  assert (Hin : forall x, In x tr -> In x (tr ++ [e])) by (intros; apply in_or_app; auto).
  assert (Hlast : In e (tr ++ [e])) by (apply in_or_app; right; left; reflexivity).
  destruct q; simpl in Hs;
    repeat match type of Hs with
           | _ /\ _ => let H := fresh "Hs" in destruct Hs as [H Hs]
           | exists _, _ => let v := fresh "v" in destruct Hs as [v Hs]
           end;
    each_event e; simpl in Hstep; try discriminate Hstep;
    cookie_cases Hstep;
    inversion Hstep; subst; simpl;
    repeat split; auto;
    try (apply no_cookie_set_snoc; [assumption|];
         intros ? ? [=]; subst; unfold cookie_variable;
         repeat match goal with H : String.eqb _ _ = false |- _ => rewrite H end;
         auto; fail);
    try (apply not_asked_snoc; [assumption | discriminate]);
    eauto 8.
Qed.

Lemma cookie_monitor_sound w hook tr q :
  monitor (cookie_step w hook) NotFetched tr = Some q -> cookie_sound w hook tr q.
Proof.
  revert q. induction tr as [|e tr IH] using rev_ind; intros q.
  - simpl. intros [= <-]. split; [intros name v [] | intros []].
  - rewrite monitor_snoc.
    destruct (monitor (cookie_step w hook) NotFetched tr) as [q1|]; [|discriminate].
    simpl. intros Hstep. eapply cookie_step_sound; eauto.
Qed.

(** What is accepted from a phase is accepted event by event. *)
Lemma accepted_cons {Q} (step : Q -> event -> option Q) q e post qf :
  fold_left (feed step) (e :: post) (Some q) = Some qf ->
  exists q', step q e = Some q' /\ fold_left (feed step) post (Some q') = Some qf.
Proof.
  simpl. destruct (step q e) as [q'|] eqn:Hstep; [eauto | now rewrite feed_None].
Qed.

(** What the final phase of a run that hands off says. *)
Lemma cookie_handoff w hook tr q path (env : gmap string string) :
  cookie_sound w hook tr q -> cookie_end w hook q (Stop (Replaced path)) ->
  (q = NotFetched -> env !! "SNAP_COOKIE" = w_environ w !! "SNAP_COOKIE" /\
                     env !! "SNAP_CONTEXT" = w_environ w !! "SNAP_CONTEXT") ->
  (q = Fetched -> env !! "SNAP_COOKIE" = w_environ w !! "SNAP_COOKIE" /\
                  env !! "SNAP_CONTEXT" = w_environ w !! "SNAP_CONTEXT") ->
  (q = BothSet -> env !! "SNAP_COOKIE" = w_cookie w /\
                  env !! "SNAP_CONTEXT" = w_cookie w) ->
  match (if hook then None else w_cookie w) with
  | Some v =>
      In (Call sc_cookie_get_from_snapd) tr /\
      In (Setenv "SNAP_COOKIE" v) tr /\ In (Setenv "SNAP_CONTEXT" v) tr /\
      env !! "SNAP_COOKIE" = Some v /\ env !! "SNAP_CONTEXT" = Some v
  | None =>
      (hook = false -> In (Call sc_cookie_get_from_snapd) tr) /\
      no_cookie_set tr /\
      env !! "SNAP_COOKIE" = w_environ w !! "SNAP_COOKIE" /\
      env !! "SNAP_CONTEXT" = w_environ w !! "SNAP_CONTEXT"
  end.
Proof.
  intros Hs He Hn Hf Hb.
  destruct q; simpl in Hs, He; try contradiction.
  - (* before the request: a hook *)
    subst hook. destruct Hs as [Hs _]. destruct (Hn eq_refl) as [H1 H2].
    repeat split; auto. discriminate.
  - (* after the request, no cookie *)
    destruct Hs as (-> & Hs & Hin). rewrite He.
    destruct (Hf eq_refl) as [H1 H2]. repeat split; auto.
  - (* both variables set *)
    destruct Hs as (-> & v & Hv & H1 & H2 & Hin). rewrite Hv.
    destruct (Hb eq_refl) as [H3 H4]. rewrite Hv in H3, H4. repeat split; auto.
Qed.

(** C10: in every run, snapd is asked for the cookie only when the
    security tag is not a hook's; the run goes on after the request, the
    next event being the error message exactly when the request gave an
    error, and goes on after the message; SNAP_COOKIE and SNAP_CONTEXT are
    only ever set to the cookie snapd gave, for a tag that is not a hook's.
    When the launcher hands off: if the tag is not a hook's and snapd gave
    a cookie, snapd has been asked, both variables have been set and they
    hold the cookie in the environment handed to the application;
    otherwise neither has been set and both are what they were at the
    start, and snapd has been asked unless the tag is a hook's.  For a
    hook snapd is never asked, and the two variables are at the end what
    they were at the start. *)
Theorem cookie_is_passed_on (w : world) :
  (forall pre e post, trace w = pre ++ e :: post ->
     (e = Call sc_cookie_get_from_snapd ->
        hook_invocation w = false /\
        exists e' post', post = e' :: post' /\
                         (e' = ErrorMsg <-> w_cookie_err w = true)) /\
     (e = ErrorMsg -> w_cookie_err w = true /\ post <> []) /\
     (forall name v, e = Setenv name v -> cookie_variable name = true ->
        hook_invocation w = false /\ w_cookie w = Some v) /\
     (forall path ok, e = Execv path ok ->
        if hook_invocation w then no_cookie_set pre
        else match w_cookie w with
             | Some v => In (Setenv "SNAP_COOKIE" v) pre /\
                         In (Setenv "SNAP_CONTEXT" v) pre
             | None => no_cookie_set pre
             end)) /\
  (forall path, outcome w = Stop (Replaced path) ->
     match (if hook_invocation w then None else w_cookie w) with
     | Some v =>
         In (Call sc_cookie_get_from_snapd) (trace w) /\
         In (Setenv "SNAP_COOKIE" v) (trace w) /\
         In (Setenv "SNAP_CONTEXT" v) (trace w) /\
         final_env w !! "SNAP_COOKIE" = Some v /\
         final_env w !! "SNAP_CONTEXT" = Some v
     | None =>
         (hook_invocation w = false ->
          In (Call sc_cookie_get_from_snapd) (trace w)) /\
         no_cookie_set (trace w) /\
         final_env w !! "SNAP_COOKIE" = w_environ w !! "SNAP_COOKIE" /\
         final_env w !! "SNAP_CONTEXT" = w_environ w !! "SNAP_CONTEXT"
     end) /\
  (hook_invocation w = true ->
     ~ In (Call sc_cookie_get_from_snapd) (trace w) /\
     no_cookie_set (trace w) /\
     final_env w !! "SNAP_COOKIE" = w_environ w !! "SNAP_COOKIE" /\
     final_env w !! "SNAP_CONTEXT" = w_environ w !! "SNAP_CONTEXT").
Proof.
  destruct (main_cookie w) as (qf & [Hq Hx] & Hend).
  fold (run w) in Hq, Hx, Hend. unfold tracked in Hq. fold (trace w) in Hq.
  fold (outcome w) in Hend. fold (final_env w) in Hx.
  pose proof (cookie_monitor_sound _ _ _ _ Hq) as Hfinal.
  remember (hook_invocation w) as hook eqn:Hdef.
  refine (conj _ (conj _ _)).
  - intros pre e post Htr. rewrite Htr in Hq.
    destruct (monitor_split _ _ _ _ _ _ Hq) as (q1 & q2 & Hpre & Hstep & Hpost).
    pose proof (cookie_monitor_sound _ _ _ _ Hpre) as Hsound.
    refine (conj _ (conj _ (conj _ _))).
    + intros ->.
      destruct q1; simpl in Hstep; try discriminate Hstep;
        try (destruct (w_cookie_err w); discriminate Hstep).
      destruct hook; [discriminate Hstep|]. injection Hstep as <-.
      split; [reflexivity|].
      destruct post as [|e' post'].
      { simpl in Hpost. injection Hpost as <-. destruct Hend. }
      exists e', post'. split; [reflexivity|].
      destruct (accepted_cons _ _ _ _ _ Hpost) as (q3 & Hnext & _).
      clear Hpost. simpl in Hnext.
      destruct (w_cookie_err w).
      * split; [reflexivity|]. intros _.
        each_event e'; try discriminate Hnext; reflexivity.
      * split; [|discriminate]. intros ->. discriminate Hnext.
    + intros ->.
      destruct q1; simpl in Hstep; try discriminate Hstep.
      destruct (w_cookie_err w); [|discriminate Hstep].
      injection Hstep as <-. split; [reflexivity|].
      intros ->. simpl in Hpost. injection Hpost as <-. exact Hend.
    + intros name v -> Hvar.
      destruct q1; simpl in Hstep, Hsound;
        cookie_cases Hstep;
        try (split; [apply Hsound | reflexivity]; fail);
        try (destruct Hsound as (? & ? & ? & ?); split; assumption);
        try congruence;
        unfold cookie_variable in Hvar;
        repeat match goal with
               | H : String.eqb _ _ = false |- _ => rewrite H in Hvar
               end;
        try discriminate Hvar.
    + intros path ok ->.
      destruct q1; simpl in Hstep, Hsound;
        cookie_cases Hstep;
        repeat match type of Hsound with
               | _ /\ _ => let H := fresh "Hs" in destruct Hsound as [H Hsound]
               | exists _, _ => let v := fresh "v" in destruct Hsound as [v Hsound]
               end;
        subst;
        repeat match goal with
               | H : hook_invocation _ = _ |- _ => rewrite H
               | H : w_cookie _ = _ |- _ => rewrite H
               end;
        try assumption; try discriminate; auto.
  - intros path Hout. rewrite Hout in Hend.
    apply (cookie_handoff w hook (trace w) qf path (final_env w) Hfinal Hend);
      intros ->; exact Hx.
  - intros Hh.
    destruct qf; simpl in Hfinal, Hx;
      try (destruct Hfinal as [Hf _]; rewrite Hf in Hh; discriminate Hh).
    destruct Hfinal as [H1 H2]. destruct Hx as [H3 H4]. auto.
Qed.

Lemma cookie_is_passed_on_witness :
  final_env user_launch !! "SNAP_COOKIE" = Some "tok" /\
  final_env user_launch !! "SNAP_CONTEXT" = Some "tok".
Proof.
  destruct (cookie_is_passed_on user_launch) as (_ & H & _).
  specialize (H "/snap/foo/bin/app" eq_refl).
  destruct H as (_ & _ & _ & H1 & H2). split; assumption.
Defined.

(** A hook: snapd is not asked, and the cookie the hook inherited is the
    one it hands on. *)
Example hook_keeps_its_cookie :
  outcome hook_launch = Stop (Replaced "/snap/foo/hooks/configure") /\
  ~ In (Call sc_cookie_get_from_snapd) (trace hook_launch) /\
  final_env hook_launch !! "SNAP_COOKIE" = Some "hook-cookie".
Proof.
  split; [vm_compute; reflexivity|]. split; [|vm_compute; reflexivity].
  vm_compute. intuition discriminate.
Qed.

(** snapd cannot be reached: the error is printed, the launcher goes on and
    hands off without the two variables. *)
Example cookie_failure_is_not_fatal :
  outcome snapd_down_launch = Stop (Replaced "/snap/foo/bin/app") /\
  nth_error (trace snapd_down_launch) 7 = Some (Call sc_cookie_get_from_snapd) /\
  nth_error (trace snapd_down_launch) 8 = Some ErrorMsg /\
  final_env snapd_down_launch !! "SNAP_COOKIE" = None /\
  final_env snapd_down_launch !! "SNAP_CONTEXT" = None.
Proof. vm_compute. repeat split; reflexivity. Qed.

(** ** The fix-ups of /var/lib and of the udev tags *)

Lemma mode_0777_bits m :
  (Z.land m mode_0777 =? mode_0777) = true <-> all_permission_bits m.
Proof.
  unfold all_permission_bits. change mode_0777 with (Z.ones 9).
  rewrite Z.eqb_eq. split.
  - intros H i Hi.
    assert (Hb : Z.testbit (Z.land m (Z.ones 9)) i = true).
    { rewrite H. apply Z.ones_spec_low. lia. }
    rewrite Z.land_spec in Hb. now apply andb_true_iff in Hb.
  - intros H. apply Z.bits_inj'. intros i Hi. rewrite Z.land_spec.
    destruct (Z.lt_ge_cases i 9) as [Hlt | Hge].
    + rewrite H by lia. rewrite Z.ones_spec_low by lia. reflexivity.
    + rewrite Z.ones_spec_high by lia. apply andb_false_r.
Qed.

(** States a property of the result and the final state of a run as a
    [holds]. *)
Ltac as_run m s :=
  pattern (fst (m s)), (snd (m s));
  lazymatch goal with |- ?Q _ _ => change (holds m s Q) end.

(** X1: [sc_maybe_fixup_permissions] changes neither the ids nor the
    environment.  If /var/lib cannot be examined it dies having called only
    stat.  If the mode read lacks one of the nine permission bits it returns
    having called only stat, whatever the other bits of the mode.  If all
    nine are set it calls chmod(0755) and, only if that succeeds,
    chown(0, 0); a failure of either is fatal. *)
Theorem fixup_permissions_behaviour (w : world) (s : state) :
  let o := fst (sc_maybe_fixup_permissions w s) in
  let s' := snd (sc_maybe_fixup_permissions w s) in
  st_creds s' = st_creds s /\ st_env s' = st_env s /\
  match w_var_lib_mode w with
  | None =>
      o = Stop (Died "cannot stat /var/lib") /\
      st_trace s' = st_trace s ++ [Stat "/var/lib"]
  | Some st_mode =>
      (~ all_permission_bits st_mode ->
         o = Ret tt /\ st_trace s' = st_trace s ++ [Stat "/var/lib"]) /\
      (all_permission_bits st_mode ->
         if w_chmod_ok w then
           st_trace s' = st_trace s ++ [Stat "/var/lib"; Chmod "/var/lib" mode_0755;
                                        Chown "/var/lib" 0 0] /\
           o = (if w_chown_ok w then Ret tt else Stop (Died "cannot chown /var/lib"))
         else
           st_trace s' = st_trace s ++ [Stat "/var/lib"; Chmod "/var/lib" mode_0755] /\
           o = Stop (Died "cannot chmod /var/lib"))
  end.
Proof.
  cbv zeta. as_run (sc_maybe_fixup_permissions w) s.
  unfold sc_maybe_fixup_permissions, stat, chmod, chown.
  wp;
    repeat match goal with
           | H : context [if ?b then _ else _] |- _ => destruct b eqn:?
           end;
    try match goal with H : negb _ = _ |- _ => cbn in H; discriminate H end;
    try match goal with
        | H : (Z.land _ _ =? _) = true |- _ => apply mode_0777_bits in H
        | H : (Z.land ?m _ =? _) = false |- _ =>
            assert (~ all_permission_bits m)
              by (intros Hb; apply mode_0777_bits in Hb; congruence);
            clear H
        end;
    cbn [after st_creds st_env st_trace]; rewrite <- ?app_assoc; cbn [app];
    repeat split; auto; try contradiction.
Qed.

(** The loop unlinks every path, in order, and nothing stops it. *)
Lemma unlink_each_trace paths s :
  holds (unlink_each paths) s
    (fun o s' => o = Ret tt /\ st_creds s' = st_creds s /\ st_env s' = st_env s /\
                 st_trace s' = st_trace s ++ map Unlink paths).
Proof.
  revert s. induction paths as [|p paths IH]; intros s; simpl.
  - apply holds_ret. rewrite app_nil_r. auto.
  - apply holds_bind. unfold unlink. apply holds_emit. cbv beta iota.
    eapply holds_weaken; [apply IH|].
    cbn [after st_creds st_env st_trace]. intros o s' (-> & -> & -> & ->).
    rewrite <- app_assoc. auto.
Qed.

(** X2: [sc_maybe_fixup_udev] changes neither the ids nor the
    environment.  After the search it unlinks every path matched, each
    once and in the order of the result, when glob returns 0, and then
    returns whatever unlink answers; it unlinks nothing and returns when
    glob returns GLOB_NOMATCH; it unlinks nothing and dies, with the
    pattern and the value glob returned in its message, when glob returns
    any other value. *)
Theorem fixup_udev_behaviour (w : world) (s : state) :
  let o := fst (sc_maybe_fixup_udev w s) in
  let s' := snd (sc_maybe_fixup_udev w s) in
  st_creds s' = st_creds s /\ st_env s' = st_env s /\
  exists unlinked,
    st_trace s' = st_trace s ++ Glob nvidia_tags :: map Unlink unlinked /\
    (w_glob_err w = 0 -> o = Ret tt /\ unlinked = w_glob_pathv w) /\
    (w_glob_err w = GLOB_NOMATCH -> o = Ret tt /\ unlinked = []) /\
    (w_glob_err w <> 0 -> w_glob_err w <> GLOB_NOMATCH ->
       o = Stop (Died ("cannot search using glob pattern " ++ nvidia_tags ++ ": "
                       ++ decimal (w_glob_err w))%string) /\
       unlinked = []).
Proof.
  cbv zeta. as_run (sc_maybe_fixup_udev w) s.
  unfold sc_maybe_fixup_udev, glob. cbv zeta.
  apply holds_bind, holds_bind, holds_emit, holds_ret. cbv beta iota. cbn [fst snd].
  destruct (w_glob_err w =? GLOB_NOMATCH) eqn:Hno.
  - apply holds_ret. apply Z.eqb_eq in Hno. cbn [after st_creds st_env st_trace].
    refine (conj eq_refl (conj eq_refl _)). exists [].
    repeat split; auto; unfold GLOB_NOMATCH in *; congruence.
  - apply Z.eqb_neq in Hno.
    destruct (w_glob_err w =? 0) eqn:Hz; cbn [negb].
    + apply Z.eqb_eq in Hz.
      eapply holds_weaken; [apply unlink_each_trace|].
      cbn [after st_creds st_env st_trace]. intros o s' (-> & -> & -> & ->).
      refine (conj eq_refl (conj eq_refl _)). exists (w_glob_pathv w).
      rewrite <- app_assoc. repeat split; auto; unfold GLOB_NOMATCH in *; congruence.
    + apply Z.eqb_neq in Hz. apply holds_die. cbn [after st_creds st_env st_trace].
      refine (conj eq_refl (conj eq_refl _)). exists [].
      repeat split; auto; unfold GLOB_NOMATCH in *; congruence.
Qed.

(** ** The ids of the process through a launch *)

(** Splits the condition of a conjunction that holds. *)
Ltac split_andb :=
  match goal with
  | E : _ && _ = true |- _ =>
      apply andb_true_iff in E;
      let E1 := fresh "E" in let E2 := fresh "E" in destruct E as [E1 E2];
      rewrite ?negb_true_iff in E1, E2
  end.

(** As [track], for monitors whose conditions are disjunctions. *)
Ltac track_or :=
  idtac;
  lazymatch goal with
  | |- tracked _ _ _ (after _ _) =>
      eapply tracked_after;
      [ track_or
      | cbn; use_cases; rewrite ?Z.eqb_refl, ?String.eqb_refl, ?orb_true_r; cbn;
        reflexivity ]
  | |- tracked _ _ _ (mk_state _ (st_env ?s) (st_trace ?s)) =>
      apply tracked_creds; track_or
  | |- tracked _ _ _ (mk_state (st_creds ?s) _ (st_trace ?s)) =>
      apply tracked_env; track_or
  | |- tracked _ _ _ _ => eassumption
  end.

(** The end of a block or of the run, with the tactics that say where the
    monitor is, what holds of the state and how the run may end. *)
Ltac arrive trk xt fin :=
  lazymatch goal with
  | |- kept _ _ _ _ _ => split; [ trk | xt ]
  | |- ended _ _ _ _ _ _ => eapply kept_ended; [ split; [ trk | xt ] | fin ]
  end.

(** The reads of lines 215-216 are followed case by case. *)
Ltac id_fork m :=
  lazymatch m with
  | check_temporary_drop _ _ => idtac
  | (if negb (_ =? 0) then _ else ret false) => idtac
  end.

(** One of the equations on the ids, or the disjunct of the effective gid
    that holds. *)
Ltac id_atom :=
  first [ assumption | reflexivity
        | left; assumption
        | right; left; first [ assumption | reflexivity ]
        | right; right; split; [ reflexivity | apply Z.eqb_eq; assumption ]
        | right; right; assumption ].

(** The ids after the events executed since the last block. *)
Ltac id_xt :=
  repeat match goal with
         | H : id_extra _ _ _ |- _ => unfold id_extra in H; decompose [and] H; clear H
         end;
  unfold id_extra;
  try (unfold privileged);
  cbn [after initial_state st_creds st_env st_trace ruid euid suid rgid egid sgid
       with_egid with_euid with_all_gids with_all_uids];
  repeat progress
    (use_cases;
     cbn [after initial_state st_creds st_env st_trace ruid euid suid rgid egid sgid
          with_egid with_euid with_all_gids with_all_uids]);
  repeat split;
  first [ id_atom | unfold root_invoker; use_cases; reflexivity ].

(** How the launch was started, from the cases followed. *)
Ltac id_fin := cbn; first [ exact I | repeat split; assumption ].

Lemma main_ids w :
  holds (main w) (initial_state w)
    (fun o s' => ended (id_step w) Inherited (id_extra w) (id_end w) o s').
Proof.
  assert (H : tracked (id_step w) Inherited Inherited (initial_state w)) by reflexivity.
  assert (Hx : id_extra w Inherited (initial_state w)).
  { unfold id_extra. cbn. auto 8. }
  unfold id_extra in Hx. decompose [and] Hx. clear Hx.
  unfold main.
  destruct (w_args w) as [args|];
    repeat first [ walk_step (id_step w) Inherited (id_extra w) id_fork id_fin id_xt
                 | split_andb
                 | arrive track_or id_xt id_fin ].
Qed.


Section MonitorInduction.

Context {Q : Type}.
Variable step : Q -> event -> option Q.
Variable q0 : Q.

(** What every accepted event satisfies holds of every event of an
    accepted trace. *)
Lemma monitor_accepts_all (P : event -> Prop) :
  (forall q e q', step q e = Some q' -> P e) ->
  forall tr q, monitor step q0 tr = Some q -> Forall P tr.
Proof.
  intros HP tr. induction tr as [|e tr IH] using rev_ind; intros q; [constructor|].
  rewrite monitor_snoc.
  destruct (monitor step q0 tr) as [q1|] eqn:Hq1; [|discriminate].
  simpl. intros Hstep. apply Forall_app. split; [eauto|].
  repeat constructor. eauto.
Qed.

(** What holds of the empty trace and is kept by every accepted event
    holds of every accepted trace. *)
Lemma monitor_invariant (sound : list event -> Q -> Prop) :
  sound [] q0 ->
  (forall tr q e q', sound tr q -> step q e = Some q' -> sound (tr ++ [e]) q') ->
  forall tr q, monitor step q0 tr = Some q -> sound tr q.
Proof.
  intros H0 Hstep tr. induction tr as [|e tr IH] using rev_ind; intros q.
  - simpl. intros [= <-]. exact H0.
  - rewrite monitor_snoc.
    destruct (monitor step q0 tr) as [q1|] eqn:Hq1; [|discriminate].
    simpl. eauto.
Qed.

End MonitorInduction.

Lemma id_step_target w q e q' : id_step w q e = Some q' -> id_target w e = true.
Proof.
  destruct e; try reflexivity; destruct q; cbn [id_step];
    try discriminate;
    destruct (id_target w _); try reflexivity; cbn; discriminate.
Qed.


(** X10: in every run, each call that changes ids asks for an id of the
    invoker: setegid for the real gid, or for 0 when the inherited saved gid
    is 0 (the raise around the freezer group); seteuid for the real uid;
    setgid for the real gid and setuid for the real uid. *)
Theorem only_real_ids_are_requested (w : world) :
  Forall (fun e => id_target w e = true) (trace w).
Proof.
  destruct (main_ids w) as (q & [Hq _] & _).
  unfold tracked in Hq. fold (run w) in Hq. fold (trace w) in Hq.
  eapply monitor_accepts_all; [|exact Hq].
  intros q1 e q2. apply id_step_target.
Qed.




(** X11: however a run ends, the real uid and the real gid of the process
    are the inherited ones, and each of its effective and saved ids is an
    id of the same kind that the process held when it started. *)
Theorem no_id_is_acquired (w : world) :
  ruid (final_creds w) = ruid (w_creds w) /\
  rgid (final_creds w) = rgid (w_creds w) /\
  held_uid (w_creds w) (euid (final_creds w)) /\
  held_uid (w_creds w) (suid (final_creds w)) /\
  held_gid (w_creds w) (egid (final_creds w)) /\
  held_gid (w_creds w) (sgid (final_creds w)).
Proof.
  destruct (main_ids w) as (q & [_ Hx] & _).
  fold (run w) in Hx. unfold id_extra in Hx. fold (final_creds w) in Hx.
  destruct Hx as (Hru & Hrg & Hx). unfold held_uid, held_gid.
  destruct q; decompose [and] Hx; clear Hx; lia.
Qed.


(** ** Invokers with one id of root *)

(** As [walk], with the conditions that are conjunctions split and the
    monitors whose conditions are disjunctions followed. *)
Ltac walk_on step q0 extra fork fin xt :=
  repeat first [ walk_step step q0 extra fork fin xt
               | split_andb
               | arrive track_or xt fin ].

(** The run has died. *)
Ltac dead_fin := cbn; eexists; reflexivity.

Lemma main_mixed w (b : bool) :
  version_query w = false ->
  (euid (w_creds w) =? 0) = true ->
  (ruid (w_creds w) =? 0) = b -> (rgid (w_creds w) =? 0) = negb b ->
  holds (main w) (initial_state w)
    (fun o s' => ended (guarded_step w) Inherited (id_extra w) has_died o s').
Proof.
  unfold version_query. intros Hv Heu Hru Hrg.
  assert (H : tracked (guarded_step w) Inherited Inherited (initial_state w)) by reflexivity.
  assert (Hx : id_extra w Inherited (initial_state w)).
  { unfold id_extra. cbn. auto 8. }
  unfold id_extra in Hx. decompose [and] Hx. clear Hx.
  unfold main.
  destruct b; cbn [negb] in Hrg;
    (destruct (w_args w) as [args|]; cbn in Hv;
     walk_on (guarded_step w) Inherited (id_extra w) id_fork dead_fin id_xt).
Qed.

Lemma guarded_step_quiet w q e q' :
  guarded_step w q e = Some q' -> past_drop_check e = false.
Proof. unfold guarded_step. destruct (past_drop_check e); [discriminate | reflexivity]. Qed.

(** X14: if the launcher started with effective uid 0 and exactly one of
    the invoker's real uid and real gid is 0, every run that is not a
    version query dies, at the latest at the reads that follow the temporary
    drop (lines 215-216, whose guards test the other id): the user data
    directory is not set up, no policy is applied, no cookie variable is
    set, setgid and setuid are not called and nothing is executed. *)
Theorem mixed_invoker_ids_are_fatal (w : world) :
  version_query w = false -> euid (w_creds w) = 0 -> mixed_ids (w_creds w) ->
  (exists msg, outcome w = Stop (Died msg)) /\
  Forall (fun e => past_drop_check e = false) (trace w).
Proof.
  intros Hv Heu Hmixed. apply Z.eqb_eq in Heu.
  assert (Hb : exists b, (ruid (w_creds w) =? 0) = b /\ (rgid (w_creds w) =? 0) = negb b).
  { destruct Hmixed as [[Hu Hg] | [Hu Hg]].
    - exists true. split; [now apply Z.eqb_eq | now apply Z.eqb_neq].
    - exists false. split; [now apply Z.eqb_neq | now apply Z.eqb_eq]. }
  destruct Hb as (b & Hru & Hrg).
  destruct (main_mixed w b Hv Heu Hru Hrg) as (q & [Hq _] & Hdied).
  unfold tracked in Hq. fold (run w) in Hq, Hdied. fold (trace w) in Hq.
  split; [exact Hdied|].
  eapply monitor_accepts_all; [|exact Hq].
  intros q1 e q2. apply guarded_step_quiet.
Qed.

Lemma mixed_invoker_ids_are_fatal_witness :
  exists msg, outcome group_root_launch = Stop (Died msg).
Proof.
  destruct (mixed_invoker_ids_are_fatal group_root_launch) as [H _].
  - reflexivity.
  - reflexivity.
  - right. split; [discriminate | reflexivity].
  - exact H.
Defined.

(** ** Launches that set up no execution environment *)

Lemma inherited_env_cookie w env name v :
  cookie_variable name = true -> inherited_env w env ->
  inherited_env w (<[name := v]> env).
Proof.
  intros Hc H n Hn. rewrite lookup_insert_ne; [auto|].
  intros <-. congruence.
Qed.

(** The environment after the events executed since the last block. *)
Ltac bare_xt :=
  repeat match goal with
         | H : bare_extra _ _ _ |- _ => unfold bare_extra in H
         end;
  unfold bare_extra; cbn [after initial_state st_creds st_env st_trace];
  repeat (apply inherited_env_cookie; [ reflexivity | ]);
  first [ assumption | intros ? ?; reflexivity ].

Lemma main_classic w :
  classic_launch w = true ->
  holds (main w) (initial_state w)
    (fun o s' => ended bare_step tt (bare_extra w) (fun _ _ => True) o s').
Proof.
  unfold classic_launch. intros Hclassic.
  assert (H : tracked bare_step tt tt (initial_state w)) by reflexivity.
  assert (Hx : bare_extra w tt (initial_state w)) by (intros ? ?; reflexivity).
  unfold main.
  destruct (w_args w) as [args|]; cbn in Hclassic;
    walk_on bare_step tt (bare_extra w) no_fork ltac:(exact I) bare_xt.
Qed.

(** The early drop of the effective gid is followed case by case. *)
Ltac plain_fork m :=
  lazymatch m with
  | (if (_ =? 0) && negb (_ =? 0) then _ else _) => idtac
  end.

(** The environment and the ids after these events. *)
Ltac plain_xt :=
  repeat match goal with
         | H : plain_extra _ _ _ |- _ => unfold plain_extra in H; decompose [and] H; clear H
         end;
  unfold plain_extra;
  cbn [after initial_state st_creds st_env st_trace ruid euid suid rgid egid sgid
       with_egid];
  split;
  [ repeat (apply inherited_env_cookie; [ reflexivity | ]);
    first [ assumption | intros ? ?; reflexivity ]
  | repeat split;
    first [ assumption | reflexivity | cbn; use_cases; reflexivity ] ].

(** Whether the effective gid had to be lowered, from the case followed. *)
Ltac plain_fin := cbn; first [ exact I | assumption | use_cases; reflexivity ].

Lemma main_plain w :
  (euid (w_creds w) =? 0) = false ->
  holds (main w) (initial_state w)
    (fun o s' => ended (plain_step w) GroupKept (plain_extra w) (plain_end w) o s').
Proof.
  intros Heu.
  assert (H : tracked (plain_step w) GroupKept GroupKept (initial_state w)) by reflexivity.
  assert (Hx : plain_extra w GroupKept (initial_state w)).
  { split; [intros ? ?; reflexivity | cbn; auto 8]. }
  unfold plain_extra in Hx. decompose [and] Hx. clear Hx.
  unfold main.
  destruct (w_args w) as [args|];
    walk_on (plain_step w) GroupKept (plain_extra w) plain_fork plain_fin plain_xt.
Qed.

Lemma bare_step_quiet q e q' : bare_step q e = Some q' -> setup_event e = false.
Proof. unfold bare_step. destruct (setup_event e); [discriminate | reflexivity]. Qed.

Lemma plain_step_quiet w q e q' :
  plain_step w q e = Some q' -> setup_event e = false /\ uid_change e = false.
Proof.
  unfold plain_step. destruct (setup_event e); [discriminate|].
  destruct e; try discriminate; auto.
Qed.

(** X16: a launch with classic confinement, and a launch by a launcher
    that did not start with effective uid 0, make none of the calls of
    [enter_non_classic_execution_environment] (no lock, no namespace or
    control group operation, no fix-up, no reset of PATH or of the temporary
    directories), and leave every environment variable but SNAP_COOKIE and
    SNAP_CONTEXT as inherited. *)
Theorem setup_only_for_privileged_strict_launch (w : world) :
  classic_launch w = true \/ euid (w_creds w) <> 0 ->
  Forall (fun e => setup_event e = false) (trace w) /\
  inherited_env w (final_env w).
Proof.
  intros [Hclassic | Heu].
  - destruct (main_classic w Hclassic) as (q & [Hq Hx] & _).
    unfold tracked in Hq. fold (run w) in Hq, Hx. fold (trace w) in Hq.
    split; [|exact Hx].
    eapply monitor_accepts_all; [|exact Hq]. intros q1 e q2. apply bare_step_quiet.
  - apply Z.eqb_neq in Heu.
    destruct (main_plain w Heu) as (q & [Hq Hx] & _).
    unfold tracked in Hq. fold (run w) in Hq, Hx. fold (trace w) in Hq.
    split; [|exact (proj1 Hx)].
    eapply monitor_accepts_all; [|exact Hq].
    intros q1 e q2 Hstep. exact (proj1 (plain_step_quiet _ _ _ _ Hstep)).
Qed.

Lemma setup_only_for_privileged_strict_launch_witness :
  final_env test_launch !! "PATH" = Some "/host/bin".
Proof.
  destruct (setup_only_for_privileged_strict_launch test_launch) as [_ H].
  - right. discriminate.
  - rewrite (H "PATH"); reflexivity.
Defined.




(** ** How a run ends *)

(** The phase fits the way the run ends. *)
Ltac exit_fin :=
  cbn;
  first [ reflexivity
        | left; reflexivity | right; reflexivity
        | left; split; reflexivity
        | right; split; [ reflexivity | eexists; reflexivity ] ].

Lemma main_exit w :
  holds (main w) (initial_state w)
    (fun o s' => ended exit_step Fresh (exit_extra w) exit_end o s').
Proof.
  assert (H : tracked exit_step Fresh Fresh (initial_state w)) by reflexivity.
  unfold main.
  destruct (w_args w) as [args|] eqn:Hargs;
    walk exit_step Fresh (exit_extra w) no_fork exit_fin
      ltac:(unfold exit_extra, requested, version_query; cbn; rewrite ?Hargs;
            first [ exact I | assumption | reflexivity ]).
Qed.

Lemma exit_step_sound tr q e q' :
  exit_sound tr q -> exit_step q e = Some q' -> exit_sound (tr ++ [e]) q'.
Proof.
  intros Hs Hstep.
  assert (Hall : closing_event e = false ->
                 Forall (fun e => closing_event e = false) tr ->
                 Forall (fun e => closing_event e = false) (tr ++ [e])).
  { intros He Htr. apply Forall_app. split; [exact Htr | repeat constructor; exact He]. }
  destruct q as [| | |path [|]|path]; simpl in Hs; try discriminate Hstep.
  - subst tr. destruct e; simpl in Hstep; inversion Hstep; subst; simpl;
      eauto; repeat constructor.
  - destruct e; simpl in Hstep; inversion Hstep; subst; simpl; eauto.
  - destruct Hs as (pre & -> & Hpre).
    destruct e; simpl in Hstep; inversion Hstep; subst; simpl.
    exists pre. eexists. rewrite <- app_assoc. split; [reflexivity | exact Hpre].
Qed.

Lemma exit_monitor_sound tr q :
  monitor exit_step Fresh tr = Some q -> exit_sound tr q.
Proof.
  apply (monitor_invariant exit_step Fresh exit_sound); [reflexivity|].
  intros. eapply exit_step_sound; eauto.
Qed.

Lemma main_version w :
  version_query w = true ->
  holds (main w) (initial_state w) (fun o s' => o = Ret 0).
Proof.
  unfold version_query, main. intros Hv.
  destruct (w_args w) as [args|]; [|discriminate Hv].
  rewrite Hv. wp. reflexivity.
Qed.

(** X7: how a run of [main] ends.  A version query returns 0.  [main]
    returns 0 only for a version query, having done nothing but print the
    version line; it returns 1 only when execv has failed, directly after
    the perror that reports it; the process image is replaced only by the
    executable named on the command line, execv being the last call; and a
    run that dies has neither printed the version nor called execv. *)
Theorem launcher_outcomes (w : world) :
  (version_query w = true -> outcome w = Ret 0) /\
  match outcome w with
  | Ret code =>
      (code = 0 /\ version_query w = true /\ exists s, trace w = [Printf s]) \/
      (code = 1 /\
       exists pre path msg,
         trace w = pre ++ [Execv path false; Perror msg] /\ requested w path /\
         Forall (fun e => closing_event e = false) pre)
  | Stop (Replaced path) =>
      requested w path /\
      exists pre, trace w = pre ++ [Execv path true] /\
                  Forall (fun e => closing_event e = false) pre
  | Stop (Died _) => Forall (fun e => closing_event e = false) (trace w)
  end.
Proof.
  split; [exact (main_version w)|].
  destruct (main_exit w) as (q & [Hq Hx] & Hend).
  unfold tracked in Hq. fold (run w) in Hq, Hx, Hend. fold (trace w) in Hq.
  fold (outcome w) in Hend.
  pose proof (exit_monitor_sound _ _ Hq) as Hsound.
  destruct (outcome w) as [code | [msg | path]]; cbn [exit_end] in Hend.
  - destruct Hend as [[-> ->] | [-> [path ->]]]; cbn in Hsound, Hx.
    + left. auto.
    + right. split; [reflexivity|].
      destruct Hsound as (pre & msg & Htr & Hpre). exists pre, path, msg. auto.
  - destruct Hend as [-> | ->]; cbn in Hsound.
    + rewrite Hsound. constructor.
    + exact Hsound.
  - subst q. cbn in Hsound, Hx. split; [exact Hx|]. exact Hsound.
Qed.

Lemma launcher_outcomes_witness : outcome version_launch = Ret 0.
Proof.
  destruct (launcher_outcomes version_launch) as [H _].
  apply H. reflexivity.
Defined.

(** ** The variables the launcher writes *)

Lemma env_frame_insert w env name v :
  launcher_variable name = true -> env_frame w env ->
  env_frame w (<[name := v]> env).
Proof.
  intros Hc H n Hn. rewrite lookup_insert_ne; [auto|].
  intros <-. congruence.
Qed.

(** The frame after a [setenv] of one of the launcher's variables. *)
Ltac frame_xt :=
  repeat match goal with
         | H : frame_extra _ _ _ |- _ => unfold frame_extra in H
         end;
  unfold frame_extra; cbn [after initial_state st_creds st_env st_trace];
  repeat (apply env_frame_insert; [ reflexivity | ]);
  first [ assumption | intros ? ?; reflexivity ].

Lemma main_frame w :
  holds (main w) (initial_state w)
    (fun o s' => ended frame_step tt (frame_extra w) (fun _ _ => True) o s').
Proof.
  assert (H : tracked frame_step tt tt (initial_state w)) by reflexivity.
  assert (Hx : frame_extra w tt (initial_state w)) by (intros ? ?; reflexivity).
  unfold main.
  destruct (w_args w) as [args|];
    walk frame_step tt (frame_extra w) no_fork ltac:(exact I) frame_xt.
Qed.

(** X17: in every run the launcher sets no environment variable but PATH,
    TMPDIR, TEMPDIR, SNAP_COOKIE and SNAP_CONTEXT, and at the end of the run
    every other variable has its inherited value (or is unset as it was). *)
Theorem only_launcher_variables_are_written (w : world) :
  (forall name v, In (Setenv name v) (trace w) -> launcher_variable name = true) /\
  (forall name, launcher_variable name = false ->
     final_env w !! name = w_environ w !! name).
Proof.
  destruct (main_frame w) as (q & [Hq Hx] & _).
  unfold tracked in Hq. fold (run w) in Hq, Hx. fold (trace w) in Hq.
  split; [|exact Hx].
  intros name v Hin.
  assert (Hall : Forall (fun e => forall n x, e = Setenv n x -> launcher_variable n = true)
                   (trace w)).
  { eapply monitor_accepts_all; [|exact Hq].
    intros q1 e q2 Hstep n x ->. simpl in Hstep.
    destruct (launcher_variable n); [reflexivity | discriminate]. }
  rewrite List.Forall_forall in Hall. exact (Hall _ Hin name v eq_refl).
Qed.

Lemma only_launcher_variables_are_written_witness :
  final_env user_launch !! "SNAP_INSTANCE_NAME" = Some "foo".
Proof.
  destruct (only_launcher_variables_are_written user_launch) as [_ H].
  rewrite (H "SNAP_INSTANCE_NAME"); reflexivity.
Defined.

(** ** The checks before the launch *)

Lemma main_mistagged w args instance :
  w_args w = Some args -> sc_args_is_version_query args = false ->
  w_environ w !! "SNAP_INSTANCE_NAME" = Some instance ->
  verify_security_tag w (sc_args_security_tag args) instance = false ->
  holds (main w) (initial_state w)
    (fun o s' =>
       (exists msg, o = Stop (Died msg)) /\
       st_trace s' = [Getenv "SNAP_INSTANCE_NAME"; Call sc_instance_name_validate] /\
       st_creds s' = w_creds w /\ st_env s' = w_environ w).
Proof.
  intros Hargs Hv Henv Htag. unfold main. rewrite Hargs, Hv.
  apply holds_bind. unfold getenv.
  apply holds_bind, holds_emit. cbv beta iota.
  apply holds_bind, holds_get_env, holds_ret. cbv beta iota.
  change (st_env (after (initial_state w) (Getenv "SNAP_INSTANCE_NAME")))
    with (w_environ w).
  rewrite Henv. apply holds_bind. unfold call.
  apply holds_bind, holds_emit. cbv beta iota.
  destruct (w_returns w sc_instance_name_validate).
  - apply holds_ret. cbv beta iota. rewrite Htag. apply holds_die. eauto 6.
  - apply holds_die. eauto 6.
Qed.

(** X8: if the invocation is not a version query, SNAP_INSTANCE_NAME is
    set, and [verify_security_tag] rejects the security tag for that
    instance, the run dies having only read the variable and validated the
    instance name: no id is read or changed and the environment is
    untouched. *)
Theorem rejected_security_tag_is_fatal (w : world) (args : sc_args) (instance : string) :
  w_args w = Some args -> sc_args_is_version_query args = false ->
  w_environ w !! "SNAP_INSTANCE_NAME" = Some instance ->
  verify_security_tag w (sc_args_security_tag args) instance = false ->
  (exists msg, outcome w = Stop (Died msg)) /\
  trace w = [Getenv "SNAP_INSTANCE_NAME"; Call sc_instance_name_validate] /\
  final_creds w = w_creds w /\ final_env w = w_environ w.
Proof.
  intros Hargs Hv Henv Htag.
  exact (main_mistagged w args instance Hargs Hv Henv Htag).
Qed.

Lemma rejected_security_tag_is_fatal_witness :
  trace mistagged_launch = [Getenv "SNAP_INSTANCE_NAME"; Call sc_instance_name_validate].
Proof.
  destruct (rejected_security_tag_is_fatal mistagged_launch
              (mk_args false false "snap.foo.app" "/snap/foo/bin/app" None) "foo")
    as (_ & H & _); [reflexivity | reflexivity | reflexivity | reflexivity | exact H].
Defined.

(** Every statement is followed branch by branch. *)
Ltac every_fork m := idtac.

(** [secure_getenv] finds nothing in secure-execution mode, or when the
    variable is not set. *)
Lemma holds_secure_getenv_unset w name s (Q : result (option string) -> state -> Prop) :
  w_at_secure w = true \/ st_env s !! name = None ->
  Q (Ret None) (after s (SecureGetenv name)) ->
  holds (secure_getenv w name) s Q.
Proof.
  intros Hno HQ. unfold secure_getenv.
  apply holds_bind, holds_emit. cbv beta iota.
  apply holds_bind, holds_get_env, holds_ret. cbv beta iota.
  cbn [after st_env].
  destruct Hno as [-> | ->]; [exact HQ|].
  destruct (w_at_secure w); exact HQ.
Qed.

Lemma main_gate w :
  version_query w = false -> CAPS_OVER_SETUID w = false ->
  (euid (w_creds w) =? 0) = false ->
  w_at_secure w = true \/ w_environ w !! "SNAP_CONFINE_NO_ROOT" = None ->
  holds (main w) (initial_state w)
    (fun o s' => ended gate_step tt (gate_extra w) has_died o s').
Proof.
  unfold version_query. intros Hv Hcaps Heu Hno.
  assert (H : tracked gate_step tt tt (initial_state w)) by reflexivity.
  unfold main.
  destruct (w_args w) as [args|]; cbn in Hv;
    repeat first
      [ lazymatch goal with
        | |- holds (secure_getenv _ _) _ _ =>
            apply holds_secure_getenv_unset;
            [ destruct Hno as [Hno | Hno];
              [ left; exact Hno | right; exact Hno ]
            | cbv beta iota ]
        end
      | walk_step gate_step tt (gate_extra w) every_fork dead_fin
          ltac:(split; reflexivity) ].
Qed.

Lemma gate_step_quiet q e q' : gate_step q e = Some q' -> past_root_check e = false.
Proof. unfold gate_step. destruct (past_root_check e); [discriminate | reflexivity]. Qed.

(** X9: in a build without CAPS_OVER_SETUID, a launcher whose effective
    uid is not 0 dies at the check of lines 166-168 when
    SNAP_CONFINE_NO_ROOT is not set, and also when it is set but the
    process is in secure-execution mode, where [secure_getenv] answers
    NULL.  The run has then asked snapd for no cookie, probed no AppArmor
    state and done none of the work of a launch; the environment and the
    effective uid are the inherited ones. *)
Theorem launcher_needs_root (w : world) :
  version_query w = false -> CAPS_OVER_SETUID w = false ->
  euid (w_creds w) <> 0 ->
  w_at_secure w = true \/ w_environ w !! "SNAP_CONFINE_NO_ROOT" = None ->
  (exists msg, outcome w = Stop (Died msg)) /\
  Forall (fun e => past_root_check e = false) (trace w) /\
  final_env w = w_environ w /\ euid (final_creds w) = euid (w_creds w).
Proof.
  intros Hv Hcaps Heu Hno. apply Z.eqb_neq in Heu.
  destruct (main_gate w Hv Hcaps Heu Hno) as (q & [Hq [Hx1 Hx2]] & Hdied).
  unfold tracked in Hq. fold (run w) in Hq, Hx1, Hx2, Hdied. fold (trace w) in Hq.
  refine (conj Hdied (conj _ (conj Hx1 Hx2))).
  eapply monitor_accepts_all; [|exact Hq]. intros q1 e q2. apply gate_step_quiet.
Qed.

Lemma launcher_needs_root_witness :
  exists msg, outcome plain_user_launch = Stop (Died msg).
Proof.
  destruct (launcher_needs_root plain_user_launch) as [H _].
  - reflexivity.
  - reflexivity.
  - discriminate.
  - right. reflexivity.
  - exact H.
Defined.

(** ** The global lock *)

Lemma global_lock_held_snoc tr e :
  global_lock_held (tr ++ [e]) = global_lock_update (global_lock_held tr) e.
Proof. unfold global_lock_held. now rewrite fold_left_app. Qed.

Lemma lock_held_snoc tr e :
  snap_lock_held (tr ++ [e]) = lock_update (snap_lock_held tr) e.
Proof. unfold snap_lock_held. now rewrite fold_left_app. Qed.

Lemma global_step_sound tr q e q' :
  global_sound tr q -> global_step q e = Some q' -> global_sound (tr ++ [e]) q'.
Proof.
  intros Hs Hstep.
  assert (Hin : forall x, In x tr -> In x (tr ++ [e])) by (intros; apply in_or_app; auto).
  assert (Hlast : In e (tr ++ [e])) by (apply in_or_app; right; left; reflexivity).
  destruct q as [|a b|]; simpl in Hs.
  - destruct Hs as (Hg & Hl).
    each_event e; simpl in Hstep; inversion Hstep; subst; simpl;
      rewrite global_lock_held_snoc, ?lock_held_snoc, Hg, ?Hl; simpl;
      repeat split; auto; discriminate.
  - destruct Hs as (Hg & Hl & Ha & Hb).
    each_event e; destruct a, b; simpl in Hstep; inversion Hstep; subst; simpl;
      rewrite global_lock_held_snoc, ?lock_held_snoc, Hg, ?Hl; simpl;
      repeat split; auto; discriminate.
  - destruct Hs as (Hg & Ha & Hb).
    each_event e; simpl in Hstep; inversion Hstep; subst; simpl;
      rewrite global_lock_held_snoc, Hg; simpl; auto.
Qed.

Lemma global_monitor_sound tr q :
  monitor global_step GlobalFree tr = Some q -> global_sound tr q.
Proof.
  apply (monitor_invariant global_step GlobalFree global_sound); [split; reflexivity|].
  intros. eapply global_step_sound; eauto.
Qed.

Lemma main_global w :
  holds (main w) (initial_state w)
    (fun o s' => ended global_step GlobalFree nothing (fun _ _ => True) o s').
Proof.
  assert (H : tracked global_step GlobalFree GlobalFree (initial_state w)) by reflexivity.
  unfold main.
  destruct (w_args w) as [args|]; plain_walk global_step GlobalFree ltac:(exact I).
Qed.

(** X4: in every run, at no point are the global lock and the per-snap
    lock held together; sc_lock_global is called only when neither lock is
    held; sc_ensure_shared_snap_mount and sc_initialize_mount_ns are called
    only while the global lock is held, the second only after the first;
    and the per-snap lock is taken only after both are done and the global
    lock is released. *)
Theorem global_lock_covers_initialisation (w : world) (pre post : list event) (e : event) :
  trace w = pre ++ e :: post ->
  (global_lock_held pre && snap_lock_held pre = false /\
   global_lock_held (pre ++ [e]) && snap_lock_held (pre ++ [e]) = false) /\
  (e = Call sc_lock_global ->
     global_lock_held pre = false /\ snap_lock_held pre = false) /\
  (global_op e = true -> global_lock_held pre = true /\ snap_lock_held pre = false) /\
  (e = Call sc_initialize_mount_ns -> In (Call sc_ensure_shared_snap_mount) pre) /\
  (e = Call sc_lock_snap ->
     global_lock_held pre = false /\
     In (Call sc_ensure_shared_snap_mount) pre /\
     In (Call sc_initialize_mount_ns) pre).
Proof.
  intros Htr.
  destruct (main_global w) as (q & [Hq _] & _).
  unfold tracked in Hq. fold (run w) in Hq. fold (trace w) in Hq.
  rewrite Htr in Hq.
  destruct (monitor_split _ _ _ _ _ _ Hq) as (q1 & q2 & Hpre & Hstep & _).
  pose proof (global_monitor_sound _ _ Hpre) as Hsound.
  pose proof (global_step_sound _ _ _ _ Hsound Hstep) as Hsound'.
  refine (conj _ (conj _ (conj _ (conj _ _)))).
  - split.
    + destruct q1 as [|a b|]; simpl in Hsound; decompose [and] Hsound;
        repeat match goal with H : _ = _ |- _ => rewrite H end; reflexivity.
    + destruct q2 as [|a b|]; simpl in Hsound'; decompose [and] Hsound';
        repeat match goal with H : _ = _ |- _ => rewrite H end; reflexivity.
  - intros ->. destruct q1 as [|a b|]; simpl in Hsound, Hstep;
      try discriminate Hstep. exact Hsound.
  - intros Hop. destruct q1 as [|a b|]; simpl in Hsound.
    + exfalso. each_event e; try discriminate Hop; discriminate Hstep.
    + tauto.
    + exfalso. each_event e; try discriminate Hop; discriminate Hstep.
  - intros ->. destruct q1 as [|a b|]; simpl in Hsound; try discriminate Hstep.
    destruct a; [tauto | discriminate Hstep].
  - intros ->. destruct q1 as [|a b|]; simpl in Hsound; try discriminate Hstep.
    exact Hsound.
Qed.

Lemma global_lock_covers_initialisation_witness :
  global_lock_held (firstn 13 (trace user_launch)) = true /\
  snap_lock_held (firstn 13 (trace user_launch)) = false.
Proof.
  destruct (global_lock_covers_initialisation user_launch
              (firstn 13 (trace user_launch))
              (skipn 14 (trace user_launch))
              (Call sc_initialize_mount_ns)) as (_ & _ & H & _).
  - vm_compute. reflexivity.
  - apply H. reflexivity.
Defined.

(** ** The fix-ups within a launch *)

Lemma fixup_step_sound w tr q e q' :
  fixup_sound tr q -> fixup_step w q e = Some q' -> fixup_sound (tr ++ [e]) q'.
Proof.
  intros Hs Hstep.
  assert (Hin : forall x, In x tr -> In x (tr ++ [e])) by (intros; apply in_or_app; auto).
  assert (Hlast : In e (tr ++ [e])) by (apply in_or_app; right; left; reflexivity).
  assert (Hall : after_fixups e = false ->
                 Forall (fun e => after_fixups e = false) tr ->
                 Forall (fun e => after_fixups e = false) (tr ++ [e])).
  { intros He Htr. apply Forall_app. split; [exact Htr | repeat constructor; exact He]. }
  unfold fixup_step in Hstep.
  destruct (fixup_event e) eqn:Hfix.
  - destruct q; try discriminate Hstep.
    destruct (fixup_target w e); inversion Hstep; subst.
    destruct Hs as (Hl & Hj & Ht). simpl. rewrite lock_held_snoc, Hl.
    destruct e; try discriminate Hfix; simpl; auto.
  - destruct (after_fixups e) eqn:Hafter; [inversion Hstep; exact I|].
    destruct q; simpl in Hs.
    + destruct Hs as (Hl & Ht).
      each_event e; try discriminate Hfix; try discriminate Hafter;
        inversion Hstep; subst; simpl; rewrite lock_held_snoc, Hl; simpl; auto.
    + destruct Hs as (Hl & Ht).
      each_event e; try discriminate Hfix; try discriminate Hafter;
        inversion Hstep; subst; simpl; rewrite lock_held_snoc, Hl; simpl; auto.
    + destruct Hs as (Hl & Hj & Ht).
      each_event e; try discriminate Hfix; try discriminate Hafter;
        inversion Hstep; subst; simpl; rewrite lock_held_snoc, Hl; simpl; auto.
    + inversion Hstep. exact I.
Qed.

Lemma fixup_monitor_sound w tr q :
  monitor (fixup_step w) FixOutside tr = Some q -> fixup_sound tr q.
Proof.
  apply (monitor_invariant (fixup_step w) FixOutside fixup_sound).
  - split; [reflexivity | constructor].
  - intros. eapply fixup_step_sound; eauto.
Qed.

Lemma main_fixups w :
  holds (main w) (initial_state w)
    (fun o s' => ended (fixup_step w) FixOutside nothing (fun _ _ => True) o s').
Proof.
  assert (H : tracked (fixup_step w) FixOutside FixOutside (initial_state w))
    by reflexivity.
  unfold main.
  destruct (w_args w) as [args|];
    plain_walk (fixup_step w) FixOutside ltac:(exact I).
Qed.

(** X3: in every run, each call of the two fix-ups (stat, chmod and chown
    of /var/lib; glob and unlink of the udev tags) is made while the
    per-snap lock is held, after the join of the preserved namespace has
    been attempted, and before the per-user namespace, the freezer group
    and the release of the lock; chmod is called only with mode 0755 and
    only when the mode read has all nine permission bits, chown only with
    owner 0 and group 0. *)
Theorem fixups_under_the_snap_lock (w : world) (pre post : list event) (e : event) :
  trace w = pre ++ e :: post -> fixup_event e = true ->
  snap_lock_held pre = true /\
  In (Call sc_join_preserved_ns) pre /\
  Forall (fun e' => after_fixups e' = false) pre /\
  fixup_target w e = true.
Proof.
  intros Htr Hfix.
  destruct (main_fixups w) as (q & [Hq _] & _).
  unfold tracked in Hq. fold (run w) in Hq. fold (trace w) in Hq.
  rewrite Htr in Hq.
  destruct (monitor_split _ _ _ _ _ _ Hq) as (q1 & q2 & Hpre & Hstep & _).
  pose proof (fixup_monitor_sound _ _ _ Hpre) as Hsound.
  unfold fixup_step in Hstep. rewrite Hfix in Hstep.
  destruct q1; try discriminate Hstep.
  destruct (fixup_target w e); [|discriminate Hstep].
  destruct Hsound as (Hl & Hj & Ht). auto.
Qed.

Lemma fixups_under_the_snap_lock_witness :
  snap_lock_held (firstn 25 (trace user_launch)) = true.
Proof.
  destruct (fixups_under_the_snap_lock user_launch
              (firstn 25 (trace user_launch))
              (skipn 26 (trace user_launch))
              (Stat "/var/lib")) as [H _].
  - vm_compute. reflexivity.
  - reflexivity.
  - exact H.
Defined.

(** ** Calls made on the result of another *)

Lemma main_filter w :
  holds (main w) (initial_state w)
    (fun o s' => ended (filter_step w) FilterIdle nothing filter_end o s').
Proof.
  assert (H : tracked (filter_step w) FilterIdle FilterIdle (initial_state w))
    by reflexivity.
  unfold main.
  destruct (w_args w) as [args|];
    plain_walk (filter_step w) FilterIdle ltac:(reflexivity).
Qed.

Lemma main_udev w :
  holds (main w) (initial_state w)
    (fun o s' => ended (udev_step w) UdevIdle nothing udev_end o s').
Proof.
  assert (H : tracked (udev_step w) UdevIdle UdevIdle (initial_state w))
    by reflexivity.
  unfold main.
  destruct (w_args w) as [args|];
    plain_walk (udev_step w) UdevIdle ltac:(reflexivity).
Qed.

Lemma filter_monitor_sound w tr q :
  monitor (filter_step w) FilterIdle tr = Some q -> filter_sound w tr q.
Proof.
  apply (monitor_invariant (filter_step w) FilterIdle (filter_sound w)); [exact I|].
  intros tr' q1 e q2 _ Hstep.
  destruct q1; each_event e; simpl in Hstep; try discriminate Hstep;
    try (inversion Hstep; subst; exact I).
  destruct (HAVE_SECCOMP w); [|discriminate Hstep].
  destruct (_ && _) eqn:Happlied; inversion Hstep; subst; simpl; eauto.
Qed.

Lemma udev_monitor_sound w tr q :
  monitor (udev_step w) UdevIdle tr = Some q -> udev_sound w tr q.
Proof.
  apply (monitor_invariant (udev_step w) UdevIdle (udev_sound w)); [exact I|].
  intros tr' q1 e q2 _ Hstep.
  destruct q1; each_event e; simpl in Hstep; try discriminate Hstep;
    try (inversion Hstep; subst; exact I).
  - destruct (w_returns w snappy_udev_init); [|inversion Hstep; exact I].
    destruct (_ =? 0) eqn:Hz; inversion Hstep; subst; simpl; [|exact I].
    apply Z.eqb_eq in Hz. eauto.
  - destruct (w_returns w setup_devices_cgroup); inversion Hstep; exact I.
Qed.

(** What the monitor accepts from a phase in which one call is due starts
    with that call. *)
Lemma due_next {Q} (step : Q -> event -> option Q) (q qf : Q) (c : collaborator)
    (post : list event) :
  (forall e q', step q e = Some q' -> e = Call c) ->
  fold_left (feed step) post (Some q) = Some qf -> qf <> q ->
  exists post', post = Call c :: post'.
Proof.
  intros Honly Hfold Hne. destruct post as [|e post'].
  - simpl in Hfold. congruence.
  - simpl in Hfold. destruct (step q e) as [q'|] eqn:Hstep.
    + rewrite (Honly _ _ Hstep). eauto.
    + now rewrite feed_None in Hfold.
Qed.

(** X18: the seccomp profile of the security tag is applied only in a
    build with seccomp; when that call returns a non-zero value the next
    call of the run is sc_apply_global_seccomp_profile; and the global
    profile is applied only so, directly after the profile of the tag. *)
Theorem global_seccomp_profile_follows (w : world) (pre post : list event) (e : event) :
  trace w = pre ++ e :: post ->
  (e = Call sc_apply_seccomp_profile_for_security_tag ->
     HAVE_SECCOMP w = true /\
     (tag_profile_applied w = true ->
        exists post', post = Call sc_apply_global_seccomp_profile :: post')) /\
  (e = Call sc_apply_global_seccomp_profile ->
     tag_profile_applied w = true /\
     exists pre', pre = pre' ++ [Call sc_apply_seccomp_profile_for_security_tag]).
Proof.
  intros Htr.
  destruct (main_filter w) as (q & [Hq _] & Hend).
  unfold tracked in Hq. fold (run w) in Hq. fold (trace w) in Hq.
  unfold filter_end in Hend. subst q. rewrite Htr in Hq.
  destruct (monitor_split _ _ _ _ _ _ Hq) as (q1 & q2 & Hpre & Hstep & Hpost).
  pose proof (filter_monitor_sound _ _ _ Hpre) as Hsound.
  split.
  - intros ->. destruct q1; simpl in Hstep; [|discriminate Hstep].
    destruct (HAVE_SECCOMP w); [|discriminate Hstep].
    split; [reflexivity|]. intros Happlied. simpl in Happlied.
    rewrite Happlied in Hstep. injection Hstep as <-.
    apply (due_next (filter_step w) FilterDue FilterIdle _ _); auto; try discriminate.
    intros e q'. each_event e; simpl; congruence.
  - intros ->. destruct q1; simpl in Hstep; [discriminate Hstep|].
    exact Hsound.
Qed.

Lemma global_seccomp_profile_follows_witness :
  exists post', skipn 51 (trace user_launch) = Call sc_apply_global_seccomp_profile :: post'.
Proof.
  destruct (global_seccomp_profile_follows user_launch
              (firstn 50 (trace user_launch))
              (skipn 51 (trace user_launch))
              (Call sc_apply_seccomp_profile_for_security_tag)) as [H _].
  - vm_compute. reflexivity.
  - destruct (H eq_refl) as [_ H']. apply H'. reflexivity.
Defined.

(** X5: when snappy_udev_init returns, the next call of the run is
    setup_devices_cgroup if it returned 0 and snappy_udev_cleanup
    otherwise; setup_devices_cgroup is called only so, directly after an
    initialisation that returned 0, and when it returns the next call is
    snappy_udev_cleanup. *)
Theorem device_cgroup_follows_udev (w : world) (pre post : list event) (e : event) :
  trace w = pre ++ e :: post ->
  (e = Call snappy_udev_init -> w_returns w snappy_udev_init = true ->
     exists post',
       post = Call (if w_retval w snappy_udev_init =? 0
                    then setup_devices_cgroup else snappy_udev_cleanup) :: post') /\
  (e = Call setup_devices_cgroup ->
     w_retval w snappy_udev_init = 0 /\
     (exists pre', pre = pre' ++ [Call snappy_udev_init]) /\
     (w_returns w setup_devices_cgroup = true ->
        exists post', post = Call snappy_udev_cleanup :: post')).
Proof.
  intros Htr.
  destruct (main_udev w) as (q & [Hq _] & Hend).
  unfold tracked in Hq. fold (run w) in Hq. fold (trace w) in Hq.
  unfold udev_end in Hend. subst q. rewrite Htr in Hq.
  destruct (monitor_split _ _ _ _ _ _ Hq) as (q1 & q2 & Hpre & Hstep & Hpost).
  pose proof (udev_monitor_sound _ _ _ Hpre) as Hsound.
  assert (Hdue : forall e q', udev_step w UdevDue e = Some q' -> e = Call setup_devices_cgroup).
  { intros e0 q'. each_event e0; simpl; congruence. }
  assert (Hopen : forall e q', udev_step w UdevOpen e = Some q' -> e = Call snappy_udev_cleanup).
  { intros e0 q'. each_event e0; simpl; congruence. }
  split.
  - intros -> Hret. destruct q1; simpl in Hstep; try discriminate Hstep.
    rewrite Hret in Hstep. destruct (_ =? 0); injection Hstep as <-.
    + apply (due_next (udev_step w) UdevDue UdevIdle _ _); auto; discriminate.
    + apply (due_next (udev_step w) UdevOpen UdevIdle _ _); auto; discriminate.
  - intros ->. destruct q1; simpl in Hstep; try discriminate Hstep.
    destruct Hsound as [Hz Hlast]. refine (conj Hz (conj Hlast _)).
    intros Hret. rewrite Hret in Hstep. injection Hstep as <-.
    apply (due_next (udev_step w) UdevOpen UdevIdle _ _); auto; discriminate.
Qed.

Lemma device_cgroup_follows_udev_witness :
  exists post', skipn 42 (trace user_launch) = Call setup_devices_cgroup :: post'.
Proof.
  destruct (device_cgroup_follows_udev user_launch
              (firstn 41 (trace user_launch))
              (skipn 42 (trace user_launch))
              (Call snappy_udev_init)) as [H _].
  - vm_compute. reflexivity.
  - apply H; reflexivity.
Defined.

(** ** The effective gid at the freezer group *)

Lemma egid_after_snoc g0 tr e :
  egid_after g0 (tr ++ [e]) = egid_update (egid_after g0 tr) e.
Proof. unfold egid_after. now rewrite fold_left_app. Qed.

Lemma freezer_as_group_root_nil w : freezer_as_group_root w [].
Proof. intros [|x pre] post H; discriminate H. Qed.

Lemma freezer_as_group_root_snoc w tr e :
  freezer_as_group_root w tr ->
  (e = Call sc_cgroup_freezer_join -> sgid (w_creds w) = 0 ->
   egid_after (egid (w_creds w)) tr = 0) ->
  freezer_as_group_root w (tr ++ [e]).
Proof.
  intros H He pre post Heq Hs.
  destruct (snoc_split _ _ _ _ _ Heq) as [(_ & <- & ->) | (post' & _ & ->)].
  - now apply He.
  - eapply H; eauto.
Qed.

(** The condition of line 364 does not hold: with a saved gid of 0 the
    effective gid is 0 already. *)
Lemma raise_not_needed g sg :
  negb (g =? 0) && (sg =? 0) = false -> sg = 0 -> g = 0.
Proof.
  intros H ->. rewrite Z.eqb_refl, andb_true_r in H.
  apply negb_false_iff in H. now apply Z.eqb_eq.
Qed.

(** The raise of the effective gid is followed case by case. *)
Ltac freezer_fork m :=
  lazymatch m with
  | (if negb (_ =? 0) && (_ =? 0) then _ else _) => idtac
  end.

(** The effective gid the trace tells, event by event. *)
Ltac egid_steps :=
  cbn [after initial_state st_creds st_env st_trace ruid euid suid rgid egid sgid
       with_egid with_euid with_all_gids with_all_uids];
  rewrite ?egid_after_snoc; cbn [egid_update].

(** The effective gid agrees with the trace, and is 0 where the freezer
    group is joined. *)
Ltac freezer_xt :=
  repeat match goal with
         | H : freezer_extra _ _ _ |- _ => destruct H
         end;
  split;
  [ repeat match goal with
           | |- context [if privileged ?c then _ else _] => destruct (privileged c)
           end;
    egid_steps; first [ assumption | reflexivity ]
  | cbn [after initial_state st_creds st_env st_trace];
    repeat first
      [ assumption
      | apply freezer_as_group_root_nil
      | apply freezer_as_group_root_snoc;
        [ | first [ intros Heq; discriminate Heq
                  | intros _ Hs; egid_steps;
                    first [ reflexivity
                          | eapply raise_not_needed; [ | exact Hs ];
                            match goal with
                            | E : negb _ && _ = false |- _ => exact E
                            end ] ] ] ] ].

Lemma main_freezer w :
  holds (main w) (initial_state w)
    (fun o s' => ended any_step tt (freezer_extra w) (fun _ _ => True) o s').
Proof.
  assert (H : tracked any_step tt tt (initial_state w)) by reflexivity.
  assert (Hx : freezer_extra w tt (initial_state w)).
  { split; [reflexivity | apply freezer_as_group_root_nil]. }
  unfold main.
  destruct (w_args w) as [args|];
    walk any_step tt (freezer_extra w) freezer_fork ltac:(exact I) freezer_xt.
Qed.

(** X6: the effective gid of the process at the end of a run is the one
    the trace tells (the value of the last successful setegid or setgid,
    or the inherited one), and whenever the launcher was started with a
    saved gid of 0, the effective gid is 0 when sc_cgroup_freezer_join is
    called: it is raised before the call if it was not 0 (lines 364-370). *)
Theorem freezer_joined_as_group_root (w : world) :
  egid (final_creds w) = egid_after (egid (w_creds w)) (trace w) /\
  forall pre post, trace w = pre ++ Call sc_cgroup_freezer_join :: post ->
    sgid (w_creds w) = 0 -> egid_after (egid (w_creds w)) pre = 0.
Proof.
  destruct (main_freezer w) as (q & [_ Hx] & _).
  fold (run w) in Hx. exact Hx.
Qed.

Lemma freezer_joined_as_group_root_witness :
  egid_after 0 (firstn 33 (trace user_launch)) = 0.
Proof.
  destruct (freezer_joined_as_group_root user_launch) as [_ H].
  apply (H (firstn 33 (trace user_launch)) (skipn 34 (trace user_launch))).
  - vm_compute. reflexivity.
  - reflexivity.
Defined.

(** ** What precedes the hand-off *)

(** The seccomp block is followed case by case. *)
Ltac ready_fork m :=
  lazymatch m with
  | (if HAVE_SECCOMP _ then _ else _) => idtac
  end.

Lemma main_ready w :
  holds (main w) (initial_state w)
    (fun o s' => ended (ready_step w) NotReady nothing (fun _ _ => True) o s').
Proof.
  assert (H : tracked (ready_step w) NotReady NotReady (initial_state w)) by reflexivity.
  unfold main.
  destruct (w_args w) as [args|];
    walk (ready_step w) NotReady (@nothing ready_phase) ready_fork
      ltac:(exact I) ltac:(exact I).
Qed.

Lemma ready_monitor_sound w tr q :
  monitor (ready_step w) NotReady tr = Some q -> ready_sound tr q.
Proof.
  apply (monitor_invariant (ready_step w) NotReady ready_sound); [exact I|].
  intros tr' q1 e q2 Hs Hstep.
  assert (Hin : forall x, In x tr' -> In x (tr' ++ [e])) by (intros; apply in_or_app; auto).
  assert (Hlast : In e (tr' ++ [e])) by (apply in_or_app; right; left; reflexivity).
  destruct q1; simpl in Hs; each_event e; simpl in Hstep;
    try discriminate Hstep;
    try (destruct (HAVE_SECCOMP w); try discriminate Hstep);
    inversion Hstep; subst; simpl; intuition.
Qed.

(** X19: in every run, execv is called only after setup_user_data and
    sc_maybe_aa_change_onexec have been called and, in a build with seccomp,
    after sc_apply_seccomp_profile_for_security_tag: the application is
    never executed before its confinement has been requested. *)
Theorem handoff_only_when_confined (w : world) (pre post : list event)
    (path : string) (ok : bool) :
  trace w = pre ++ Execv path ok :: post ->
  In (Call setup_user_data) pre /\
  In (Call sc_maybe_aa_change_onexec) pre /\
  (HAVE_SECCOMP w = true -> In (Call sc_apply_seccomp_profile_for_security_tag) pre).
Proof.
  intros Htr.
  destruct (main_ready w) as (q & [Hq _] & _).
  unfold tracked in Hq. fold (run w) in Hq. fold (trace w) in Hq.
  rewrite Htr in Hq.
  destruct (monitor_split _ _ _ _ _ _ Hq) as (q1 & q2 & Hpre & Hstep & _).
  pose proof (ready_monitor_sound _ _ _ Hpre) as Hsound.
  destruct q1; simpl in Hstep, Hsound; try discriminate Hstep.
  - destruct (HAVE_SECCOMP w); [discriminate Hstep|].
    destruct Hsound as [Hd Ha]. repeat split; auto. discriminate.
  - destruct Hsound as (Hd & Ha & Hf). auto.
Qed.

Lemma handoff_only_when_confined_witness :
  In (Call sc_maybe_aa_change_onexec) (firstn 55 (trace user_launch)).
Proof.
  destruct (handoff_only_when_confined user_launch
              (firstn 55 (trace user_launch)) (skipn 56 (trace user_launch))
              "/snap/foo/bin/app" true) as (_ & H & _).
  - vm_compute. reflexivity.
  - exact H.
Defined.

(** ** The order in which the execution environment is entered *)

Lemma main_order w :
  holds (main w) (initial_state w)
    (fun o s' => ended order_step NotEntered nothing (fun _ _ => True) o s').
Proof.
  assert (H : tracked order_step NotEntered NotEntered (initial_state w)) by reflexivity.
  unfold main.
  destruct (w_args w) as [args|]; plain_walk order_step NotEntered ltac:(exact I).
Qed.

Lemma order_monitor_sound tr q :
  monitor order_step NotEntered tr = Some q -> order_sound tr q.
Proof.
  apply (monitor_invariant order_step NotEntered order_sound); [constructor|].
  intros tr' q1 e q2 Hs Hstep.
  assert (Hin : forall x, In x tr' -> In x (tr' ++ [e])) by (intros; apply in_or_app; auto).
  assert (Hlast : In e (tr' ++ [e])) by (apply in_or_app; right; left; reflexivity).
  assert (Hall : setup_event e = false ->
                 Forall (fun e => setup_event e = false) tr' ->
                 Forall (fun e => setup_event e = false) (tr' ++ [e])).
  { intros He Htr. apply Forall_app. split; [exact Htr | repeat constructor; exact He]. }
  destruct q1; simpl in Hs.
  - destruct (setup_event e) eqn:He.
    + each_event e; simpl in Hstep, He; rewrite ?He in Hstep;
        try discriminate Hstep; try discriminate He.
      inversion Hstep. exact Hlast.
    + assert (Hq : q2 = NotEntered).
      { each_event e; simpl in Hstep, He; rewrite ?He in Hstep;
          try discriminate He; congruence. }
      subst q2. simpl. auto.
  - each_event e; simpl in Hstep; try discriminate Hstep;
      repeat match type of Hstep with
             | context [if ?b then _ else _] => destruct b
             end;
      try discriminate Hstep; inversion Hstep; subst; simpl; auto.
  - destruct Hs as [Hr Hc].
    each_event e; simpl in Hstep; try discriminate Hstep;
      repeat match type of Hstep with
             | context [if ?b then _ else _] => destruct b
             end;
      try discriminate Hstep; inversion Hstep; subst; simpl; auto.
  - destruct Hs as (Hr & Hc & Hf). inversion Hstep; subst. simpl. auto.
Qed.

(** X20: in every run, the first call of the set-up of the execution
    environment is sc_reassociate_with_pid1_mount_ns: no lock is taken and
    no namespace touched before it; the helper process is forked only after
    the distribution has been classified (normal mode being probed while it
    can still be told); and every operation on the snap's namespaces and
    freezer group comes after both. *)
Theorem environment_entered_in_order (w : world) (pre post : list event) (e : event) :
  trace w = pre ++ e :: post ->
  (setup_event e = true -> e <> Call sc_reassociate_with_pid1_mount_ns ->
     In (Call sc_reassociate_with_pid1_mount_ns) pre) /\
  (e = Call sc_fork_helper -> In (Call sc_classify_distro) pre) /\
  (namespace_op e = true ->
     In (Call sc_classify_distro) pre /\ In (Call sc_fork_helper) pre).
Proof.
  intros Htr.
  destruct (main_order w) as (q & [Hq _] & _).
  unfold tracked in Hq. fold (run w) in Hq. fold (trace w) in Hq.
  rewrite Htr in Hq.
  destruct (monitor_split _ _ _ _ _ _ Hq) as (q1 & q2 & Hpre & Hstep & _).
  pose proof (order_monitor_sound _ _ Hpre) as Hsound.
  refine (conj _ (conj _ _)).
  - intros He Hne. destruct q1; simpl in Hsound; try tauto.
    exfalso. each_event e; simpl in Hstep, He; rewrite ?He in Hstep;
      try discriminate He; try discriminate Hstep. now apply Hne.
  - intros ->. destruct q1; simpl in Hsound, Hstep; try discriminate Hstep; tauto.
  - intros Hop. destruct q1; simpl in Hsound.
    + exfalso. each_event e; try discriminate Hop; discriminate Hstep.
    + exfalso. each_event e; try discriminate Hop; discriminate Hstep.
    + exfalso. each_event e; try discriminate Hop; discriminate Hstep.
    + tauto.
Qed.

Lemma environment_entered_in_order_witness :
  In (Call sc_classify_distro) (firstn 21 (trace user_launch)) /\
  In (Call sc_fork_helper) (firstn 21 (trace user_launch)).
Proof.
  destruct (environment_entered_in_order user_launch
              (firstn 21 (trace user_launch)) (skipn 22 (trace user_launch))
              (Call sc_join_preserved_ns)) as (_ & _ & H).
  - vm_compute. reflexivity.
  - apply H. reflexivity.
Defined.

(** ** The drops and their verification, in order *)

Lemma drop_made_here w tr :
  drop_made w ((tr ++ [Setegid (rgid (w_creds w)) true])
                 ++ [Seteuid (ruid (w_creds w)) true]).
Proof. exists tr, []. now rewrite <- app_assoc. Qed.

Lemma drop_made_snoc w tr e : drop_made w tr -> drop_made w (tr ++ [e]).
Proof.
  intros (pre & post & ->). exists pre, (post ++ [e]).
  now rewrite <- app_assoc.
Qed.

(** The temporary drop is in the trace. *)
Ltac drop_atom :=
  cbn [after initial_state st_creds st_env st_trace];
  first [ apply drop_made_here | repeat apply drop_made_snoc; assumption ].

(** The ids after the events executed since the last block. *)
Ltac seq_xt :=
  repeat match goal with
         | H : seq_extra _ _ _ |- _ => unfold seq_extra in H; decompose [and] H; clear H
         end;
  unfold seq_extra;
  try (unfold privileged);
  cbn [after initial_state st_creds st_env st_trace ruid euid suid rgid egid sgid
       with_egid with_euid with_all_gids with_all_uids];
  repeat progress
    (use_cases;
     cbn [after initial_state st_creds st_env st_trace ruid euid suid rgid egid sgid
          with_egid with_euid with_all_gids with_all_uids]);
  repeat split;
  first [ id_atom | drop_atom ].

(** How the launch was started, from the cases followed. *)
Ltac seq_fin :=
  cbn;
  first [ exact I | assumption | eexists; reflexivity
        | split; [ eexists; reflexivity | assumption ]
        | use_cases; cbn; reflexivity ].

Lemma main_seq w :
  holds (main w) (initial_state w)
    (fun o s' => ended (seq_step w) SeqInherited (seq_extra w) (seq_end w) o s').
Proof.
  assert (H : tracked (seq_step w) SeqInherited SeqInherited (initial_state w))
    by reflexivity.
  assert (Hx : seq_extra w SeqInherited (initial_state w)).
  { unfold seq_extra. cbn. auto. }
  unfold seq_extra in Hx. decompose [and] Hx. clear Hx.
  unfold main.
  destruct (w_args w) as [args|];
    walk_on (seq_step w) SeqInherited (seq_extra w) id_fork seq_fin seq_xt.
Qed.


Lemma seq_step_sound w tr q e q' :
  seq_sound w tr q -> seq_step w q e = Some q' -> seq_sound w (tr ++ [e]) q'.
Proof.
  intros Hs Hstep.
  assert (Hsnoc : forall (P : event -> Prop), Forall P tr -> P e -> Forall P (tr ++ [e])).
  { intros P Htr He. apply Forall_app. split; [assumption | repeat constructor; assumption]. }
  assert (Hin : forall x, In x tr -> In x (tr ++ [e])) by (intros; apply in_or_app; auto).
  assert (Hlast : In e (tr ++ [e])) by (apply in_or_app; right; left; reflexivity).
  destruct q; cbn [seq_sound] in Hs; cbn [seq_step] in Hstep;
    each_event e; try discriminate Hstep;
    repeat match type of Hstep with
           | context [if ?b then _ else _] => destruct b eqn:?
           end;
    try discriminate Hstep;
    injection Hstep as <-; cbn [seq_sound];
    repeat match goal with
           | H : _ /\ _ |- _ => destruct H
           | H : _ && _ = true |- _ => apply andb_true_iff in H
           | H : (_ =? _) = true |- _ => apply Z.eqb_eq in H; try subst
           | H : exists _, _ |- _ => destruct H
           end;
    try exact I;
    repeat match goal with |- _ /\ _ => split end;
    try (apply Hsnoc; [assumption | reflexivity]);
    try assumption;
    try (eexists; split; [reflexivity | assumption]);
    try (subst tr; apply in_or_app; left; apply in_or_app; right; left; reflexivity);
    auto.
Qed.

Lemma seq_monitor_sound w tr q :
  monitor (seq_step w) SeqInherited tr = Some q -> seq_sound w tr q.
Proof.
  apply (monitor_invariant (seq_step w) SeqInherited (seq_sound w)).
  - split; constructor.
  - intros. eapply seq_step_sound; eauto.
Qed.

(** Nothing is accepted after a refused call. *)
Lemma seq_stop w q post qf :
  q = SeqFailed \/ q = SeqRefused ->
  fold_left (feed (seq_step w)) post (Some q) = Some qf ->
  post = [] /\ qf = q.
Proof.
  intros Hq Hpost. destruct post as [|e post].
  - simpl in Hpost. injection Hpost as <-. auto.
  - destruct (accepted_cons _ _ _ _ _ Hpost) as (q' & Hstep & _).
    destruct Hq as [-> | ->]; discriminate Hstep.
Qed.


(** Once the temporary drop is made, seteuid is not called again. *)
Lemma seq_late_step w q e q' :
  seq_late q = true -> seq_step w q e = Some q' ->
  seq_late q' = true /\ seteuid_call e = false.
Proof.
  intros Hq Hstep.
  destruct q; try discriminate Hq; cbn [seq_step] in Hstep;
    each_event e; try discriminate Hstep;
    repeat match type of Hstep with
           | context [if ?b then _ else _] => destruct b eqn:?
           end;
    try discriminate Hstep;
    injection Hstep as <-; split; reflexivity.
Qed.

Lemma seq_late_quiet w post q qf :
  seq_late q = true ->
  fold_left (feed (seq_step w)) post (Some q) = Some qf ->
  seq_late qf = true /\ Forall (fun e => seteuid_call e = false) post.
Proof.
  revert q. induction post as [|e post IH]; intros q Hq Hpost.
  - simpl in Hpost. injection Hpost as <-. split; [assumption | constructor].
  - destruct (accepted_cons _ _ _ _ _ Hpost) as (q' & Hstep & Hrest).
    destruct (seq_late_step _ _ _ _ Hq Hstep) as [Hq' He].
    destruct (IH _ Hq' Hrest) as [Hf Hall].
    split; [assumption | constructor; assumption].
Qed.

Lemma seq_late_extra w q s :
  seq_late q = true -> seq_extra w q s -> drop_made w (st_trace s).
Proof.
  intros Hq Hx. destruct q; try discriminate Hq; cbn [seq_extra] in Hx;
    decompose [and] Hx; assumption.
Qed.

(** The one call of seteuid in a trace is where it is found. *)
Lemma drop_position (pre pre' post post' : list event) (x y x' : event) :
  seteuid_call x' = true -> seteuid_call y = false ->
  Forall (fun e => seteuid_call e = false) pre ->
  Forall (fun e => seteuid_call e = false) post ->
  pre ++ x :: post = pre' ++ y :: x' :: post' ->
  pre = pre' ++ [y].
Proof.
  intros Hx' Hy Hpre Hpost. revert pre'.
  induction pre as [|a pre IH]; intros pre' Heq.
  - exfalso. destruct pre' as [|b pre'']; cbn in Heq.
    + injection Heq as _ Heq. rewrite Heq in Hpost.
      inversion Hpost; subst. congruence.
    + injection Heq as _ Heq. rewrite Heq in Hpost.
      apply Forall_app in Hpost. destruct Hpost as [_ Hpost].
      inversion Hpost as [|? ? _ Hpost']; subst.
      inversion Hpost'; subst. congruence.
  - inversion Hpre as [|? ? Ha Hpre']; subst.
    destruct pre' as [|b pre'']; cbn in Heq.
    + injection Heq as -> Heq. destruct pre as [|c pre]; cbn in Heq.
      * reflexivity.
      * exfalso. injection Heq as -> _.
        inversion Hpre'; subst. congruence.
    + injection Heq as -> Heq. cbn. f_equal. apply IH; assumption.
Qed.

(** What follows the temporary drop: the reads of lines 215-216, which
    are fatal exactly when one of the real uid and the real gid is 0 and
    the other is not. *)
Lemma seq_after_drop w post qf o :
  fold_left (feed (seq_step w)) post (Some SeqDropped) = Some qf ->
  seq_end w qf o ->
  exists rest, post = drop_reads (w_creds w) ++ rest /\
    (xorb (ruid (w_creds w) =? 0) (rgid (w_creds w) =? 0) = true ->
       rest = [] /\ exists msg, o = Stop (Died msg)) /\
    (xorb (ruid (w_creds w) =? 0) (rgid (w_creds w) =? 0) = false ->
       exists rest', rest = Call setup_user_data :: rest').
Proof.
  intros Hpost Hend. unfold drop_reads.
  destruct post as [|e1 post]; [simpl in Hpost; injection Hpost as <-; destruct Hend|].
  destruct (accepted_cons _ _ _ _ _ Hpost) as (q1 & Hstep1 & Hpost1). clear Hpost.
  cbn [seq_step] in Hstep1.
  destruct (ruid (w_creds w) =? 0) eqn:Hu, (rgid (w_creds w) =? 0) eqn:Hg;
    cbn [negb andb xorb app] in *;
    each_event e1; try discriminate Hstep1; injection Hstep1 as <-.
  - (* root: no read *)
    eexists. split; [reflexivity|]. split; [discriminate | eauto].
  - (* real uid 0, real gid not: geteuid, fatal *)
    exists post. split; [reflexivity|]. split; [intros _ | discriminate].
    destruct post as [|e2 post].
    + simpl in Hpost1. injection Hpost1 as <-. destruct Hend as [Hd _]. auto.
    + destruct (accepted_cons _ _ _ _ _ Hpost1) as (q2 & Hstep2 & _).
      cbn [seq_step] in Hstep2. rewrite Hu in Hstep2.
      each_event e2; discriminate Hstep2.
  - (* real gid 0, real uid not: getegid, fatal *)
    exists post. split; [reflexivity|]. split; [intros _ | discriminate].
    destruct post as [|e2 post].
    + simpl in Hpost1. injection Hpost1 as <-. destruct Hend as [Hd _]. auto.
    + destruct (accepted_cons _ _ _ _ _ Hpost1) as (q2 & Hstep2 & _).
      cbn [seq_step] in Hstep2. rewrite Hg in Hstep2.
      each_event e2; discriminate Hstep2.
  - (* neither is 0: geteuid, getegid, and the launcher goes on *)
    destruct post as [|e2 post].
    { simpl in Hpost1. injection Hpost1 as <-. destruct Hend as [_ Hc]. congruence. }
    destruct (accepted_cons _ _ _ _ _ Hpost1) as (q2 & Hstep2 & Hpost2).
    cbn [seq_step] in Hstep2. rewrite Hu in Hstep2.
    each_event e2; try discriminate Hstep2. injection Hstep2 as <-.
    destruct post as [|e3 post].
    { simpl in Hpost2. injection Hpost2 as <-. destruct Hend as [_ Hc]. congruence. }
    destruct (accepted_cons _ _ _ _ _ Hpost2) as (q3 & Hstep3 & _).
    cbn [seq_step] in Hstep3. rewrite Hg in Hstep3.
    each_event e3; try discriminate Hstep3.
    eexists. split; [reflexivity|]. split; [discriminate | eauto].
Qed.

Lemma mixed_ids_xorb c :
  mixed_ids c <-> xorb (ruid c =? 0) (rgid c =? 0) = true.
Proof.
  unfold mixed_ids.
  destruct (Z.eqb_spec (ruid c) 0), (Z.eqb_spec (rgid c) 0); cbn;
    intuition (try discriminate; try lia).
Qed.





(** C3 (amended): in every run of [main], a call that changes ids and
    that the kernel refuses is the last event of the run, which has died.
    seteuid is called with the invoker's real uid, directly after a
    successful setegid(real_gid); when it succeeds it is directly followed
    by the reads of lines 215-216: geteuid if the real gid is not 0, then
    getegid if the real uid is not 0.  If exactly one of the real uid and
    the real gid is 0 the run ends with these reads and has died; if not,
    the next event is the set-up of the user data.  And a run of a
    launcher started with effective uid 0 that hands off has made the
    temporary drop and ends with effective uid equal to the real uid and
    effective gid equal to the real gid. *)
Theorem id_changes_are_checked (w : world) :
  (forall pre e post,
     trace w = pre ++ e :: post -> failed_id_change e = true ->
     post = [] /\ exists msg, outcome w = Stop (Died msg)) /\
  (forall pre u post,
     trace w = pre ++ Seteuid u true :: post ->
     u = ruid (w_creds w) /\
     (exists pre', pre = pre' ++ [Setegid (rgid (w_creds w)) true]) /\
     exists rest,
       post = drop_reads (w_creds w) ++ rest /\
       (mixed_ids (w_creds w) ->
          rest = [] /\ exists msg, outcome w = Stop (Died msg)) /\
       (~ mixed_ids (w_creds w) ->
          exists rest', rest = Call setup_user_data :: rest')) /\
  (forall path, outcome w = Stop (Replaced path) -> euid (w_creds w) = 0 ->
     In (Seteuid (ruid (w_creds w)) true) (trace w) /\
     euid (final_creds w) = ruid (w_creds w) /\
     egid (final_creds w) = rgid (w_creds w)).
Proof.
  destruct (main_seq w) as (qf & [Hq Hx] & Hend).
  unfold tracked in Hq. fold (run w) in Hq, Hx, Hend. fold (trace w) in Hq, Hx.
  fold (outcome w) in Hend.
  refine (conj _ (conj _ _)).
  - intros pre e post Htr Hfail. rewrite Htr in Hq.
    destruct (monitor_split _ _ _ _ _ _ Hq) as (q1 & q2 & Hpre & Hstep & Hpost).
    assert (Hq2 : q2 = SeqFailed \/ q2 = SeqRefused).
    { destruct q1; cbn [seq_step] in Hstep;
        each_event e; try discriminate Hfail; try discriminate Hstep;
        repeat match type of Hstep with
               | context [if ?b then _ else _] => destruct b eqn:?
               end;
        try discriminate Hstep; try discriminate Hfail;
        injection Hstep as <-; auto. }
    destruct (seq_stop _ _ _ _ Hq2 Hpost) as [-> ->].
    split; [reflexivity|].
    destruct Hq2 as [-> | ->]; exact Hend.
  - intros pre u post Htr. rewrite Htr in Hq.
    destruct (monitor_split _ _ _ _ _ _ Hq) as (q1 & q2 & Hpre & Hstep & Hpost).
    pose proof (seq_monitor_sound _ _ _ Hpre) as Hsound.
    destruct q1; cbn [seq_step] in Hstep; try discriminate Hstep.
    destruct (u =? ruid (w_creds w)) eqn:Hu; [|discriminate Hstep].
    apply Z.eqb_eq in Hu. subst u. injection Hstep as <-.
    split; [reflexivity|].
    destruct (seq_late_quiet w post SeqDropped qf eq_refl Hpost) as [Hlate Hquiet].
    destruct (seq_late_extra _ _ _ Hlate Hx) as (pre' & post' & Hdrop).
    fold (trace w) in Hdrop. rewrite Htr in Hdrop.
    destruct Hsound as [_ Hpre_quiet].
    split.
    { exists pre'. eapply drop_position; [| | | |exact Hdrop];
        [reflexivity | reflexivity | assumption | assumption]. }
    destruct (seq_after_drop _ _ _ _ Hpost Hend) as (rest & Hrest & Hmixed & Hplain).
    exists rest. split; [exact Hrest|]. split.
    + intros Hm. apply Hmixed. now apply mixed_ids_xorb.
    + intros Hm. apply Hplain. apply not_true_is_false.
      intros Hc. apply Hm. now apply mixed_ids_xorb.
  - intros path Hout Heu. rewrite Hout in Hend.
    apply Z.eqb_eq in Heu.
    destruct qf; cbn [seq_end] in Hend;
      try contradiction;
      try congruence;
      try (destruct Hend as [[msg Hm] _]; discriminate Hm);
      try (destruct Hend as [msg Hm]; discriminate Hm);
      (assert (Hdrop : drop_made w (trace w))
         by (eapply seq_late_extra; [|exact Hx]; reflexivity));
      cbn [seq_extra] in Hx; decompose [and] Hx;
      (split; [|split; assumption]);
      destruct Hdrop as (pre' & post' & ->);
      apply in_or_app; right; right; left; reflexivity.
Qed.

Lemma id_changes_are_checked_witness :
  exists rest,
    skipn 46 (trace user_launch)
    = Geteuid :: Getegid :: Call setup_user_data :: rest.
Proof.
  destruct (id_changes_are_checked user_launch) as (_ & H & _).
  destruct (H (firstn 45 (trace user_launch)) 1000 (skipn 46 (trace user_launch)))
    as (_ & _ & rest & Hpost & _ & Hplain).
  - vm_compute. reflexivity.
  - destruct Hplain as [rest' ->].
    + intros [[Hu _] | [_ Hg]]; [discriminate Hu | discriminate Hg].
    + exists rest'. exact Hpost.
Defined.

(** A launch by user 1000 whose group is 0: the temporary drop is made and
    the read of line 216 is fatal, although the effective gid is the real
    gid. *)
Example group_root_launch_dies_at_the_reads :
  outcome group_root_launch = Stop (Died "dropping privs did not work") /\
  skipn 41 (trace group_root_launch)
  = [Setegid 0 true; Seteuid 1000 true; Getegid].
Proof. vm_compute. split; reflexivity. Qed.

(** ** The messages of fatal errors *)

(** %d of a gid: 1000 is printed as it is, 2^32 - 1 as -1. *)
Example decimal_of_gid :
  decimal (as_int 1000) = "1000" /\ decimal (as_int 4294967295) = "-1".
Proof. split; reflexivity. Qed.

(** Line 134 names the security tag it rejects. *)
Example mistagged_launch_message :
  outcome mistagged_launch = Stop (Died "security tag snap.foo.app not allowed").
Proof. reflexivity. Qed.
